(** * PageRank: the transition model, the sampling estimator and the
      iterative estimator of [pagerank.py], embedded and verified.

    Numbers: the Python code computes with floats, and the program is
    embedded twice.  The definitions at the top level compute over the exact
    rationals [Q]: an equation on ranks is read up to [==] (equality of
    fractions) and gives the values of the program up to the rounding of its
    floats.  The module [B64] is the same program in binary64, on the
    primitive floats.  What depends on the rounding is settled there:
    whether the loop of the iterative estimator is left, whether
    [random.choices] accepts its weights, and the exact values returned.

    Containers: a corpus is a Python [dict] from page names to [set]s of page
    names; dictionaries are [gmap string _], sets are [gset string].  The
    order in which a dictionary is traversed is the order of [map_to_list].

    Failures: a Python exception is a value [Raise e] of the [result] type;
    the [while True] loop of the iterative estimator takes fuel and yields
    [None] when the fuel is used up before the loop is left.

    Randomness: [random.choice] and [random.choices] follow their CPython
    definitions, with the uniform variate that a call consumes as an
    argument; turn [i] of the sampling loop consumes the variate [rng i]. *)

From Stdlib Require Import QArith Qabs Qround Lqa Floats.
From stdpp Require Import gmap strings list fin_maps fin_sets.

Open Scope Q_scope.

(** ** Python exceptions and the result of a call *)

Inductive exn : Set :=
  | KeyError
  | IndexError
  | ValueError
  | ZeroDivisionError
  | UnboundLocalError.

Inductive result (A : Type) : Type :=
  | Ok (a : A)
  | Raise (e : exn).
Arguments Ok {A} a.
Arguments Raise {A} e.

#[global] Instance result_ret : MRet result := λ A a, Ok a.
#[global] Instance result_bind : MBind result := λ A B f r,
  match r with
  | Ok a => f a
  | Raise e => Raise e
  end.

Module Py.

(** [for x in xs: body], the loop state threaded through the body. *)
Fixpoint for_in {A S : Type} (xs : list A) (body : A → S → result S) (s : S)
    : result S :=
  match xs with
  | [] => Ok s
  | x :: rest => s' ← body x s; for_in rest body s'
  end.

(** [[f(x) for x in xs]] *)
Fixpoint comprehension {A B : Type} (f : A → result B) (xs : list A)
    : result (list B) :=
  match xs with
  | [] => Ok []
  | x :: rest => y ← f x; ys ← comprehension f rest; Ok (y :: ys)
  end.

(** The keys of a dictionary, in traversal order: [for k in d]. *)
Definition keys {V : Type} (d : gmap string V) : list string :=
  (map_to_list d).*1.

(** [d[k]] *)
Definition getitem {V : Type} (d : gmap string V) (k : string) : result V :=
  match d !! k with
  | Some v => Ok v
  | None => Raise KeyError
  end.

(** [xs[i]] on a list, for a non-negative index. *)
Definition index {A : Type} (xs : list A) (i : nat) : result A :=
  match xs !! i with
  | Some x => Ok x
  | None => Raise IndexError
  end.

(** [len(_)] as a number. *)
Definition of_nat (n : nat) : Q := inject_Z (Z.of_nat n).

(** [x / y], true division. *)
Definition truediv (x y : Q) : result Q :=
  if Qeq_bool y 0 then Raise ZeroDivisionError else Ok (x / y).

(** [range(n)] for a Python integer [n]: empty when [n <= 0]. *)
Definition range (n : Z) : list nat := seq 0 (Z.to_nat n).

(** [s == set()] *)
Definition is_empty_set (s : gset string) : bool := bool_decide (s = ∅).

(** [sum(d.values())] *)
Definition sum_values (d : gmap string Q) : Q :=
  foldr (λ kv acc, kv.2 + acc) 0 (map_to_list d).

End Py.

(** ** The [random] module, with the generator's output as an input

    [u] is the uniform variate of the half-open unit interval that the call
    consumes. *)

Module Random.

(** The loop of [bisect.bisect_right(a, x, lo, hi)]:
    [while lo < hi: mid = (lo + hi) // 2;
                    if x < a[mid]: hi = mid  else: lo = mid + 1].
    [hi - lo] shrinks at every turn, so [hi - lo] turns are enough. *)
Fixpoint bisect_loop (turns : nat) (a : list Q) (x : Q) (lo hi : nat)
    : result nat :=
  match turns with
  | O => Ok lo
  | S turns' =>
      if decide (lo < hi)%nat then
        let mid := ((lo + hi) / 2)%nat in
        a_mid ← Py.index a mid;
        if Qlt_le_dec x a_mid
        then bisect_loop turns' a x lo mid
        else bisect_loop turns' a x (mid + 1)%nat hi
      else Ok lo
  end.

Definition bisect (a : list Q) (x : Q) (lo hi : nat) : result nat :=
  bisect_loop (hi - lo) a x lo hi.

(** [itertools.accumulate(weights)]: the running sums. *)
Fixpoint accumulate_from (acc : Q) (ws : list Q) : list Q :=
  match ws with
  | [] => []
  | w :: rest => (acc + w) :: accumulate_from (acc + w) rest
  end.

Definition accumulate (ws : list Q) : list Q :=
  match ws with
  | [] => []
  | w :: rest => w :: accumulate_from w rest
  end.

(** [random.choice(seq)]: [seq[randbelow(len(seq))]], the index being
    [floor(u * len(seq))] for a variate [u] of the unit interval. *)
Definition choice {A : Type} (u : Q) (seq : list A) : result A :=
  if decide (length seq = 0)%nat then Raise IndexError
  else Py.index seq (Z.to_nat (Qfloor (u * Py.of_nat (length seq)))).

(** [random.choices(population, weights)] with the default [k=1]: a list
    of one element.  Over the rationals every total is finite, so the test
    [not isfinite(total)] of CPython has no case here; [B64.choices] has
    it. *)
Definition choices {A : Type} (u : Q) (population : list A) (weights : list Q)
    : result (list A) :=
  let n := length population in
  let cum_weights := accumulate weights in
  if decide (length cum_weights ≠ n) then Raise ValueError
  else
    total ← match last cum_weights with
            | Some t => Ok t
            | None => Raise IndexError
            end;
    if Qle_bool total 0 then Raise ValueError
    else
      let hi := (n - 1)%nat in
      i ← bisect cum_weights (u * total) 0 hi;
      x ← Py.index population i;
      Ok [x].

End Random.

(** ** [pagerank.py] *)

(** [transition_model(corpus, page, damping_factor)] *)
Definition transition_model (corpus : gmap string (gset string)) (page : string)
    (damping_factor : Q) : result (gmap string Q) :=
  let web_pages_count := size corpus in
  output ← Py.for_in (Py.keys corpus) (λ web_page output,
              baseline ← Py.truediv (1 - damping_factor) (Py.of_nat web_pages_count);
              Ok (<[web_page := baseline]> output)) ∅;
  linked ← Py.getitem corpus page;
  if negb (Py.is_empty_set linked) then
    let linked_pages_count := size linked in
    Py.for_in (elements linked) (λ linked_page output,
      old ← Py.getitem output linked_page;
      share ← Py.truediv damping_factor (Py.of_nat linked_pages_count);
      Ok (<[linked_page := old + share]> output)) output
  else
    Py.for_in (Py.keys corpus) (λ web_page output,
      uniform ← Py.truediv 1 (Py.of_nat web_pages_count);
      Ok (<[web_page := uniform]> output)) output.

(** The first half of the body of [for i in range(n)] in [sample_pagerank]:
    the page sampled at turn [i], from the variable [sample] (unbound before
    the first turn). *)
Definition next_sample (corpus : gmap string (gset string)) (damping_factor : Q)
    (rng : nat → Q) (i : nat) (sample : option string) : result string :=
  if decide (i = 0)%nat then
    Random.choice (rng i) (Py.keys corpus)
  else
    current ← match sample with
              | Some s => Ok s
              | None => Raise UnboundLocalError
              end;
    sample_transition ← transition_model corpus current damping_factor;
    weights ← Py.comprehension (Py.getitem sample_transition)
                (Py.keys sample_transition);
    drawn ← Random.choices (rng i) (Py.keys sample_transition) weights;
    Py.index drawn 0.

(** One turn of the sampling loop: the page is sampled, then
    [output[sample] = output[sample] + 1 / n].  The loop state is the
    variable [sample] and the dictionary [output]. *)
Definition sample_turn (corpus : gmap string (gset string)) (damping_factor : Q)
    (n : Z) (rng : nat → Q) (i : nat) (st : option string * gmap string Q)
    : result (option string * gmap string Q) :=
  let '(sample, output) := st in
  sample ← next_sample corpus damping_factor rng i sample;
  old ← Py.getitem output sample;
  weight ← Py.truediv 1 (inject_Z n);
  Ok (Some sample, <[sample := old + weight]> output).

(** [sample_pagerank(corpus, damping_factor, n)]; [rng i] is the uniform
    variate consumed by turn [i] of the sampling loop. *)
Definition sample_pagerank (corpus : gmap string (gset string)) (damping_factor : Q)
    (n : Z) (rng : nat → Q) : result (gmap string Q) :=
  output ← Py.for_in (Py.keys corpus) (λ web_page output,
              Ok (<[web_page := 0]> output)) ∅;
  st ← Py.for_in (Py.range n) (sample_turn corpus damping_factor n rng)
         (None, output);
  Ok st.2.

(** The body of [for web_page in corpus] inside a pass of
    [iterate_pagerank]: what [web_page] adds to [prob_visit_from_other]
    for [current_page]. *)
Definition visit_from (corpus : gmap string (gset string)) (web_pages_count : nat)
    (output_copy : gmap string Q) (current_page web_page : string)
    (prob_visit_from_other : Q) : result Q :=
  linked ← Py.getitem corpus web_page;
  if negb (Py.is_empty_set linked) then
    if decide (current_page ∈ linked) then
      rank ← Py.getitem output_copy web_page;
      share ← Py.truediv rank (Py.of_nat (size linked));
      Ok (prob_visit_from_other + share)
    else Ok prob_visit_from_other
  else
    rank ← Py.getitem output_copy web_page;
    share ← Py.truediv rank (Py.of_nat web_pages_count);
    Ok (prob_visit_from_other + share).

(** One pass of the [while True] loop of [iterate_pagerank], from the
    snapshot [output_copy]: the loop [for current_page in output_copy]. *)
Definition iterate_pass (corpus : gmap string (gset string)) (damping_factor : Q)
    (web_pages_count : nat) (output_copy output : gmap string Q)
    : result (gmap string Q) :=
  Py.for_in (Py.keys output_copy) (λ current_page output,
    prob_visit_from_other ←
      Py.for_in (Py.keys corpus)
        (visit_from corpus web_pages_count output_copy current_page) 0;
    baseline ← Py.truediv (1 - damping_factor) (Py.of_nat web_pages_count);
    Ok (<[current_page := baseline + damping_factor * prob_visit_from_other]> output))
    output.

(** The convergence threshold [0.001]. *)
Definition threshold : Q := 1 # 1000.

(** [[output[page] - output_copy[page] for page in output_copy
      if abs(output[page] - output_copy[page]) > 0.001]] *)
Definition significant_differences (output output_copy : gmap string Q)
    : result (list Q) :=
  Py.for_in (Py.keys output_copy) (λ page acc,
    new ← Py.getitem output page;
    old ← Py.getitem output_copy page;
    if Qlt_le_dec threshold (Qabs (new - old))
    then Ok (acc ++ [new - old])
    else Ok acc) [].

(** The [while True] loop of [iterate_pagerank], at most [fuel] passes. *)
Fixpoint iterate_loop (fuel : nat) (corpus : gmap string (gset string))
    (damping_factor : Q) (web_pages_count : nat) (output : gmap string Q)
    : option (result (gmap string Q)) :=
  match fuel with
  | O => None
  | S fuel' =>
      let output_copy := output in
      match iterate_pass corpus damping_factor web_pages_count output_copy output with
      | Raise e => Some (Raise e)
      | Ok output =>
          match significant_differences output output_copy with
          | Raise e => Some (Raise e)
          | Ok differences =>
              if decide (length differences = 0)%nat then Some (Ok output)
              else iterate_loop fuel' corpus damping_factor web_pages_count output
          end
      end
  end.

(** The initial vector of [iterate_pagerank]: [1 / len(corpus)] everywhere. *)
Definition initial_ranks (corpus : gmap string (gset string))
    : result (gmap string Q) :=
  Py.for_in (Py.keys corpus) (λ web_page output,
    start ← Py.truediv 1 (Py.of_nat (size corpus));
    Ok (<[web_page := start]> output)) ∅.

(** [iterate_pagerank(corpus, damping_factor)] *)
Definition iterate_pagerank (fuel : nat) (corpus : gmap string (gset string))
    (damping_factor : Q) : option (result (gmap string Q)) :=
  match initial_ranks corpus with
  | Raise e => Some (Raise e)
  | Ok output => iterate_loop fuel corpus damping_factor (size corpus) output
  end.

(** ** Concrete corpora *)

Definition corpus_single : gmap string (gset string) := {[ "A" := ∅ ]}.
Definition corpus_pair : gmap string (gset string) :=
  <[ "A" := {[ "B" ]} ]> {[ "B" := {[ "A" ]} ]}.
Definition corpus_dangling : gmap string (gset string) :=
  <[ "A" := ∅ ]> {[ "B" := {[ "A" ]} ]}.
Definition corpus_foreign : gmap string (gset string) := {[ "A" := {[ "B" ]} ]}.

(** ** Specification-side definitions *)

(** The sum of [f] over a list. *)
Definition sumQ {A : Type} (f : A → Q) (l : list A) : Q :=
  foldr (λ x acc, f x + acc) 0 l.

(** The outbound links of a node, its out-degree and its rank in a vector. *)
Definition links (corpus : gmap string (gset string)) (q : string) : gset string :=
  default ∅ (corpus !! q).
Definition outdegree (corpus : gmap string (gset string)) (q : string) : nat :=
  size (links corpus q).
Definition rank (ranks : gmap string Q) (q : string) : Q :=
  default 0 (ranks !! q).

(** Every edge target is a key of the graph. *)
Definition targets_are_keys (corpus : gmap string (gset string)) : Prop :=
  map_Forall (λ _ linked, linked ⊆ dom corpus) corpus.

#[global] Instance targets_are_keys_dec corpus : Decision (targets_are_keys corpus).
Proof. unfold targets_are_keys. apply _. Defined.

(** The draws of the generator lie in the half-open unit interval. *)
Definition unit_draws (rng : nat → Q) : Prop := ∀ i, 0 <= rng i ∧ rng i < 1.

(** The pages sampled at the turns [turns] of the sampling loop, in order. *)
Fixpoint walk (corpus : gmap string (gset string)) (damping_factor : Q)
    (rng : nat → Q) (turns : list nat) (sample : option string)
    : result (list string) :=
  match turns with
  | [] => Ok []
  | i :: rest =>
      s ← next_sample corpus damping_factor rng i sample;
      later ← walk corpus damping_factor rng rest (Some s);
      Ok (s :: later)
  end.

(** The [n] pages that [sample_pagerank] samples. *)
Definition samples (corpus : gmap string (gset string)) (damping_factor : Q)
    (n : Z) (rng : nat → Q) : result (list string) :=
  walk corpus damping_factor rng (Py.range n) None.

(** How often page [p] occurs among the sampled pages. *)
Definition visits (p : string) (sampled : list string) : nat :=
  length (filter (λ s, s = p) sampled).

(** The share of the rank of [q] that one pass hands to [p]: with no
    outbound link (dangling) [q] hands [1 / N] of its rank to every node,
    otherwise [1 / outdegree q] to each node it links to. *)
Definition transfer (corpus : gmap string (gset string)) (p q : string) : Q :=
  if decide (outdegree corpus q = 0)%nat then 1 / Py.of_nat (size corpus)
  else if decide (p ∈ links corpus q) then 1 / Py.of_nat (outdegree corpus q)
  else 0.

(** What node [q] adds to the new rank of [p], from the previous vector. *)
Definition contribution (corpus : gmap string (gset string)) (prev : gmap string Q)
    (p q : string) : Q :=
  if decide (outdegree corpus q = 0)%nat then rank prev q / Py.of_nat (size corpus)
  else if decide (p ∈ links corpus q) then rank prev q / Py.of_nat (outdegree corpus q)
  else 0.

(** The PageRank recurrence at node [p], from the previous vector. *)
Definition recurrence (corpus : gmap string (gset string)) (d : Q)
    (prev : gmap string Q) (p : string) : Q :=
  (1 - d) / Py.of_nat (size corpus)
  + d * sumQ (contribution corpus prev p) (Py.keys corpus).

(** The vector after [k] passes of [iterate_pagerank]. *)
Fixpoint rank_vector (k : nat) (corpus : gmap string (gset string)) (d : Q)
    : result (gmap string Q) :=
  match k with
  | O => initial_ranks corpus
  | S k' =>
      prev ← rank_vector k' corpus d;
      iterate_pass corpus d (size corpus) prev prev
  end.

(** No node of [old] changed by more than the threshold. *)
Definition converged (new old : gmap string Q) : Prop :=
  ∀ p, p ∈ dom old → Qabs (rank new p - rank old p) <= threshold.

(** The share every node gets from a random jump. *)
Definition baseline (corpus : gmap string (gset string)) (d : Q) : Q :=
  (1 - d) / Py.of_nat (size corpus).

(** The vector after [k] passes, as a total function of [k]. *)
Definition ranks_after (corpus : gmap string (gset string)) (d : Q) (k : nat)
    : gmap string Q :=
  match rank_vector k corpus d with
  | Ok x => x
  | Raise _ => ∅
  end.

(** The distance between two vectors, summed over the nodes of the graph. *)
Definition distance (corpus : gmap string (gset string)) (a b : string → Q) : Q :=
  sumQ (λ p, Qabs (a p - b p)) (Py.keys corpus).

(** How much the vector moves in pass [k + 1]. *)
Definition change (corpus : gmap string (gset string)) (d : Q) (k : nat) : Q :=
  distance corpus (rank (ranks_after corpus d (S k))) (rank (ranks_after corpus d k)).

(** ** [crawl] and the constants of [main]

    The directory is seen through three calls outside the program:
    [os.listdir(directory)] is the list [listing] of names, [open] and
    [read] on a name are [read_file] ([None] when either raises), and
    [re.findall] with the pattern of the source is [findall]. *)

(** The result of [crawl]: the pages, a failure of [os.listdir] on the
    directory or of [open] or [read] on a file, or an exception of the
    program's own. *)
Inductive crawled (A : Type) : Type :=
  | Pages (a : A)
  | OSError (filename : string)
  | Fault (e : exn).
Arguments Pages {A} a.
Arguments OSError {A} filename.
Arguments Fault {A} e.

#[global] Instance exn_eq_dec : EqDecision exn.
Proof. solve_decision. Defined.

#[global] Instance crawled_eq_dec {A} `{EqDecision A} : EqDecision (crawled A).
Proof. solve_decision. Defined.

#[global] Instance crawled_ret : MRet crawled := λ A a, Pages a.
#[global] Instance crawled_bind : MBind crawled := λ A B f r,
  match r with
  | Pages a => f a
  | OSError filename => OSError filename
  | Fault e => Fault e
  end.

(** [for x in xs: body] inside [crawl]. *)
Fixpoint for_each {A S : Type} (xs : list A) (body : A → S → crawled S) (s : S)
    : crawled S :=
  match xs with
  | [] => Pages s
  | x :: rest => s' ← body x s; for_each rest body s'
  end.

(** [s.endswith(suffix)] *)
Definition endswith (s suffix : string) : bool :=
  bool_decide (Stdlib.Strings.String.list_ascii_of_string suffix
               `suffix_of` Stdlib.Strings.String.list_ascii_of_string s).

(** The body of the first loop of [crawl]: a name that does not end in
    [.html] is skipped; the file is opened and read, and the links found in
    it are stored, its own name taken out. *)
Definition read_page (read_file : string → option string)
    (findall : string → list string) (filename : string)
    (pages : gmap string (gset string)) : crawled (gmap string (gset string)) :=
  if negb (endswith filename ".html") then Pages pages
  else
    contents ← match read_file filename with
               | Some contents => Pages contents
               | None => OSError filename
               end;
    let links := findall contents in
    Pages (<[filename := list_to_set links ∖ {[ filename ]}]> pages).

(** The first loop of [crawl]. *)
Definition extract_links (listing : list string) (read_file : string → option string)
    (findall : string → list string) : crawled (gmap string (gset string)) :=
  for_each listing (read_page read_file findall) ∅.

(** The body of the second loop of [crawl]: only the links to pages of the
    corpus stay. *)
Definition keep_links (filename : string) (pages : gmap string (gset string))
    : crawled (gmap string (gset string)) :=
  links ← match pages !! filename with
          | Some links => Pages links
          | None => Fault KeyError
          end;
  Pages (<[filename := filter (λ link, is_Some (pages !! link)) links]> pages).

(** The second loop of [crawl]. *)
Definition keep_corpus_links (pages : gmap string (gset string))
    : crawled (gmap string (gset string)) :=
  for_each (Py.keys pages) keep_links pages.

(** [crawl(directory)] *)
Definition crawl (listing : list string) (read_file : string → option string)
    (findall : string → list string) : crawled (gmap string (gset string)) :=
  pages ← extract_links listing read_file findall;
  keep_corpus_links pages.

(** [crawl(directory)] from its first call on: [listdir] is what
    [os.listdir(directory)] gives, [None] when it raises (the directory is
    missing, is no directory, or may not be read). *)
Definition crawl_directory (directory : string) (listdir : option (list string))
    (read_file : string → option string) (findall : string → list string)
    : crawled (gmap string (gset string)) :=
  match listdir with
  | Some listing => crawl listing read_file findall
  | None => OSError directory
  end.

(** The names of the listing that [crawl] opens. *)
Definition html_files (listing : list string) : list string :=
  filter (λ filename, endswith filename ".html" = true) listing.

(** Every [.html] file of the listing can be opened and read. *)
Definition readable (listing : list string) (read_file : string → option string) : Prop :=
  Forall (λ filename, is_Some (read_file filename)) (html_files listing).

(** The links found in a file, the file's own name taken out. *)
Definition found_links (read_file : string → option string)
    (findall : string → list string) (filename : string) : gset string :=
  list_to_set (findall (default "" (read_file filename))) ∖ {[ filename ]}.

Definition DAMPING : Q := 85 # 100.
Definition SAMPLES : Z := 10000.

(** A directory of three pages and a file that is no page. *)
Definition demo_listing : list string := ["1.html"; "notes.txt"; "2.html"; "3.html"].
Definition demo_read (filename : string) : option string :=
  if String.eqb filename "1.html" then Some "<a href=2.html> <a href=1.html> <a href=x.html>"
  else if String.eqb filename "2.html" then Some "<a href=1.html> <a href=3.html>"
  else if String.eqb filename "3.html" then Some ""
  else None.
Definition demo_findall (contents : string) : list string :=
  if String.eqb contents "<a href=2.html> <a href=1.html> <a href=x.html>"
  then ["2.html"; "1.html"; "x.html"]
  else if String.eqb contents "<a href=1.html> <a href=3.html>"
  then ["1.html"; "3.html"]
  else [].
Definition demo_pages : gmap string (gset string) :=
  {[ "1.html" := {[ "2.html" ]};
     "2.html" := {[ "1.html"; "3.html" ]};
     "3.html" := ∅ ]}.

(** The corpus in which every page without links links to every page of the
    corpus, itself included. *)
Definition link_to_all (corpus : gmap string (gset string)) : gmap string (gset string) :=
  (λ linked, if decide (linked = ∅) then dom corpus else linked) <$> corpus.

(** A corpus of four pages, all with links: no page links to [S], and [B]
    and [C] have the same incoming links. *)
Definition corpus_fan : gmap string (gset string) :=
  {[ "S" := {[ "B"; "C" ]}; "A" := {[ "B"; "C" ]}; "B" := {[ "A" ]}; "C" := {[ "A" ]} ]}.

(** The ranks that [iterate_pagerank] returns on it for [d = 1/2]. *)
Definition fan_ranks : gmap string Q :=
  match iterate_pagerank 20 corpus_fan (1 # 2) with
  | Some (Ok ranks) => ranks
  | _ => ∅
  end.

(** The transition model of [s] gives [s'] a positive probability. *)
Definition may_follow (corpus : gmap string (gset string)) (d : Q) (s s' : string) : Prop :=
  ∃ t w, transition_model corpus s d = Ok t ∧ t !! s' = Some w ∧ 0 < w.

(** Two rank vectors over the same nodes with equal ranks. *)
Definition same_ranks (a b : gmap string Q) : Prop :=
  dom a = dom b ∧ ∀ p, rank a p == rank b p.

(** ** The program in binary64

    Python computes the ranks in floats.  [B64] is the program again, line
    for line, with the arithmetic of IEEE 754 binary64 (round to nearest,
    ties to even), which is what the operations of [PrimFloat] compute.
    Every divisor of the program is a count (a length, or the sample count
    [n]), so a division raises [ZeroDivisionError] exactly when the count is
    [0]; counts stay below [2^53], where their conversion to a float is
    exact.  A dictionary is traversed in the order of [map_to_list], as at
    the top level.  A value of [random.random()] is a float; the number that
    [random.choice] takes from the generator is an input of its own. *)

Module B64.

#[local] Open Scope float_scope.

(** [float(n)] for an integer [n]: the nearest binary64 number, [n] itself
    when [|n| < 2^53]. *)
Definition of_Z (n : Z) : float := SF2Prim (binary_normalize prec emax n 0 false).

(** [x / count], for a count (a length, or the sample count). *)
Definition truediv (x : float) (count : Z) : result float :=
  if decide (count = 0)%Z then Raise ZeroDivisionError else Ok (x / of_Z count).

(** The loop of [bisect.bisect_right(a, x, lo, hi)]. *)
Fixpoint bisect_loop (turns : nat) (a : list float) (x : float) (lo hi : nat)
    : result nat :=
  match turns with
  | O => Ok lo
  | S turns' =>
      if decide (lo < hi)%nat then
        let mid := ((lo + hi) / 2)%nat in
        a_mid ← Py.index a mid;
        if x <? a_mid
        then bisect_loop turns' a x lo mid
        else bisect_loop turns' a x (mid + 1)%nat hi
      else Ok lo
  end.

Definition bisect (a : list float) (x : float) (lo hi : nat) : result nat :=
  bisect_loop (hi - lo) a x lo hi.

(** [itertools.accumulate(weights)]: the running sums. *)
Fixpoint accumulate_from (acc : float) (ws : list float) : list float :=
  match ws with
  | [] => []
  | w :: rest => (acc + w) :: accumulate_from (acc + w) rest
  end.

Definition accumulate (ws : list float) : list float :=
  match ws with
  | [] => []
  | w :: rest => w :: accumulate_from w rest
  end.

(** [random.choice(seq)]: [seq[randbelow(len(seq))]]; the generator gives
    a number below the length, here [randbelow] reduced modulo the length. *)
Definition choice {A : Type} (randbelow : nat) (seq : list A) : result A :=
  if decide (length seq = 0)%nat then Raise IndexError
  else Py.index seq (randbelow mod length seq).

(** [random.choices(population, weights)] with the default [k=1]; [u] is
    the value of [random()].  The total of the weights is tested as CPython
    tests it: [total <= 0.0] and [not isfinite(total)] raise [ValueError]. *)
Definition choices {A : Type} (u : float) (population : list A) (weights : list float)
    : result (list A) :=
  let n := length population in
  let cum_weights := accumulate weights in
  if decide (length cum_weights ≠ n) then Raise ValueError
  else
    last_weight ← match last cum_weights with
                  | Some t => Ok t
                  | None => Raise IndexError
                  end;
    let total := last_weight + 0 in
    if total <=? 0 then Raise ValueError
    else if negb (is_finite total) then Raise ValueError
    else
      let hi := (n - 1)%nat in
      i ← bisect cum_weights (u * total) 0 hi;
      x ← Py.index population i;
      Ok [x].

(** [transition_model(corpus, page, damping_factor)] *)
Definition transition_model (corpus : gmap string (gset string)) (page : string)
    (damping_factor : float) : result (gmap string float) :=
  let web_pages_count := size corpus in
  output ← Py.for_in (Py.keys corpus) (λ web_page output,
              baseline ← truediv (1 - damping_factor) (Z.of_nat web_pages_count);
              Ok (<[web_page := baseline]> output)) ∅;
  linked ← Py.getitem corpus page;
  if negb (Py.is_empty_set linked) then
    let linked_pages_count := size linked in
    Py.for_in (elements linked) (λ linked_page output,
      old ← Py.getitem output linked_page;
      share ← truediv damping_factor (Z.of_nat linked_pages_count);
      Ok (<[linked_page := old + share]> output)) output
  else
    Py.for_in (Py.keys corpus) (λ web_page output,
      uniform ← truediv 1 (Z.of_nat web_pages_count);
      Ok (<[web_page := uniform]> output)) output.

(** The page sampled at turn [i] of the loop of [sample_pagerank]. *)
Definition next_sample (corpus : gmap string (gset string)) (damping_factor : float)
    (randbelow : nat) (rng : nat → float) (i : nat) (sample : option string)
    : result string :=
  if decide (i = 0)%nat then
    choice randbelow (Py.keys corpus)
  else
    current ← match sample with
              | Some s => Ok s
              | None => Raise UnboundLocalError
              end;
    sample_transition ← transition_model corpus current damping_factor;
    weights ← Py.comprehension (Py.getitem sample_transition)
                (Py.keys sample_transition);
    drawn ← choices (rng i) (Py.keys sample_transition) weights;
    Py.index drawn 0.

(** One turn of the sampling loop:
    [output[sample] = output[sample] + 1 / n]. *)
Definition sample_turn (corpus : gmap string (gset string)) (damping_factor : float)
    (n : Z) (randbelow : nat) (rng : nat → float) (i : nat)
    (st : option string * gmap string float)
    : result (option string * gmap string float) :=
  let '(sample, output) := st in
  sample ← next_sample corpus damping_factor randbelow rng i sample;
  old ← Py.getitem output sample;
  weight ← truediv 1 n;
  Ok (Some sample, <[sample := old + weight]> output).

(** [sample_pagerank(corpus, damping_factor, n)]: [randbelow] is the number
    the generator gives to [random.choice] in the first turn, [rng i] the
    value of [random()] in turn [i]. *)
Definition sample_pagerank (corpus : gmap string (gset string)) (damping_factor : float)
    (n : Z) (randbelow : nat) (rng : nat → float) : result (gmap string float) :=
  output ← Py.for_in (Py.keys corpus) (λ web_page output,
              Ok (<[web_page := 0]> output)) ∅;
  st ← Py.for_in (Py.range n) (sample_turn corpus damping_factor n randbelow rng)
         (None, output);
  Ok st.2.

(** What [web_page] adds to [prob_visit_from_other] for [current_page]. *)
Definition visit_from (corpus : gmap string (gset string)) (web_pages_count : nat)
    (output_copy : gmap string float) (current_page web_page : string)
    (prob_visit_from_other : float) : result float :=
  linked ← Py.getitem corpus web_page;
  if negb (Py.is_empty_set linked) then
    if decide (current_page ∈ linked) then
      rank ← Py.getitem output_copy web_page;
      share ← truediv rank (Z.of_nat (size linked));
      Ok (prob_visit_from_other + share)
    else Ok prob_visit_from_other
  else
    rank ← Py.getitem output_copy web_page;
    share ← truediv rank (Z.of_nat web_pages_count);
    Ok (prob_visit_from_other + share).

(** One pass of the [while True] loop of [iterate_pagerank]. *)
Definition iterate_pass (corpus : gmap string (gset string)) (damping_factor : float)
    (web_pages_count : nat) (output_copy output : gmap string float)
    : result (gmap string float) :=
  Py.for_in (Py.keys output_copy) (λ current_page output,
    prob_visit_from_other ←
      Py.for_in (Py.keys corpus)
        (visit_from corpus web_pages_count output_copy current_page) 0;
    baseline ← truediv (1 - damping_factor) (Z.of_nat web_pages_count);
    Ok (<[current_page := baseline + damping_factor * prob_visit_from_other]> output))
    output.

(** The literal [0.001]: the binary64 number nearest to it. *)
Definition threshold : float := 0x1.0624dd2f1a9fcp-10.

(** [abs(output[page] - output_copy[page]) > 0.001] *)
Definition significant (new old : float) : bool := threshold <? abs (new - old).

Definition significant_differences (output output_copy : gmap string float)
    : result (list float) :=
  Py.for_in (Py.keys output_copy) (λ page acc,
    new ← Py.getitem output page;
    old ← Py.getitem output_copy page;
    if significant new old
    then Ok (acc ++ [new - old])
    else Ok acc) [].

(** The [while True] loop of [iterate_pagerank], at most [fuel] passes. *)
Fixpoint iterate_loop (fuel : nat) (corpus : gmap string (gset string))
    (damping_factor : float) (web_pages_count : nat) (output : gmap string float)
    : option (result (gmap string float)) :=
  match fuel with
  | O => None
  | S fuel' =>
      let output_copy := output in
      match iterate_pass corpus damping_factor web_pages_count output_copy output with
      | Raise e => Some (Raise e)
      | Ok output =>
          match significant_differences output output_copy with
          | Raise e => Some (Raise e)
          | Ok differences =>
              if decide (length differences = 0)%nat then Some (Ok output)
              else iterate_loop fuel' corpus damping_factor web_pages_count output
          end
      end
  end.

Definition initial_ranks (corpus : gmap string (gset string))
    : result (gmap string float) :=
  Py.for_in (Py.keys corpus) (λ web_page output,
    start ← truediv 1 (Z.of_nat (size corpus));
    Ok (<[web_page := start]> output)) ∅.

(** [iterate_pagerank(corpus, damping_factor)] *)
Definition iterate_pagerank (fuel : nat) (corpus : gmap string (gset string))
    (damping_factor : float) : option (result (gmap string float)) :=
  match initial_ranks corpus with
  | Raise e => Some (Raise e)
  | Ok output => iterate_loop fuel corpus damping_factor (size corpus) output
  end.

(** The vector after [k] passes of [iterate_pagerank]. *)
Fixpoint rank_vector (k : nat) (corpus : gmap string (gset string)) (d : float)
    : result (gmap string float) :=
  match k with
  | O => initial_ranks corpus
  | S k' =>
      prev ← rank_vector k' corpus d;
      iterate_pass corpus d (size corpus) prev prev
  end.

Definition ranks_after (corpus : gmap string (gset string)) (d : float) (k : nat)
    : gmap string float :=
  match rank_vector k corpus d with
  | Ok x => x
  | Raise _ => ∅
  end.

(** No node changed by more than [0.001] from [old] to [new]: the test
    that ends the loop. *)
Definition converged (new old : gmap string float) : Prop :=
  ∀ p a b, new !! p = Some a → old !! p = Some b → significant a b = false.

(** [x + w + ... + w], the weight [w] added [c] times, one after the other. *)
Definition added (w : float) (c : nat) (x : float) : float :=
  Nat.iter c (λ y, y + w) x.

(** The same sum in blocks of 64 additions, [64 * p] additions in all.  The
    comparisons choose between two equal branches: they make an evaluator
    finish a partial sum before it starts on the next block. *)
Definition add4 (w x : float) : float := x + w + w + w + w.
Definition add16 (w x : float) : float := add4 w (add4 w (add4 w (add4 w x))).
Definition add64 (w x : float) : float := add16 w (add16 w (add16 w (add16 w x))).
Fixpoint add_blocks (w : float) (p : positive) (x : float) : float :=
  match p with
  | xH => add64 w x
  | xO p' =>
      let y := add_blocks w p' x in
      if y <? 0 then add_blocks w p' y else add_blocks w p' y
  | xI p' =>
      let y := add_blocks w p' x in
      let z := if y <? 0 then add_blocks w p' y else add_blocks w p' y in
      if z <? 0 then add64 w z else add64 w z
  end.

(** The constant [DAMPING = 0.85]: the binary64 number nearest to it. *)
Definition DAMPING : float := 0x1.b333333333333p-1.

End B64.



(** ** Arithmetic of page counts *)

Lemma of_nat_pos n : (0 < n)%nat → 0 < Py.of_nat n.
Proof.
  intros Hn. unfold Py.of_nat, Qlt. simpl. lia.
Qed.

Lemma of_nat_nonzero n : (0 < n)%nat → ¬ Py.of_nat n == 0.
Proof.
  intros Hn Heq. pose proof (of_nat_pos n Hn) as Hpos. rewrite Heq in Hpos.
  by apply Qlt_irrefl in Hpos.
Qed.

Lemma of_nat_S n : Py.of_nat (S n) == 1 + Py.of_nat n.
Proof.
  unfold Py.of_nat. rewrite Nat2Z.inj_succ, <- Z.add_1_l, inject_Z_plus.
  reflexivity.
Qed.

Lemma truediv_ok x y : ¬ y == 0 → Py.truediv x y = Ok (x / y).
Proof.
  intros Hy. unfold Py.truediv.
  destruct (Qeq_bool y 0) eqn:E; [|done].
  by apply Qeq_bool_iff in E.
Qed.

Lemma truediv_count x n : (0 < n)%nat → Py.truediv x (Py.of_nat n) = Ok (x / Py.of_nat n).
Proof. intros Hn. by apply truediv_ok, of_nat_nonzero. Qed.

(** ** Dictionaries: keys and lookups *)

Lemma keys_NoDup {V} (d : gmap string V) : NoDup (Py.keys d).
Proof. apply NoDup_fst_map_to_list. Qed.

Lemma elem_of_keys {V} (d : gmap string V) k : k ∈ Py.keys d ↔ k ∈ dom d.
Proof.
  unfold Py.keys. rewrite elem_of_dom, list_elem_of_fmap. split.
  - intros [[k' v] [-> Hin]]. apply elem_of_map_to_list in Hin. by exists v.
  - intros [v Hv]. exists (k, v). split; [done|]. by apply elem_of_map_to_list.
Qed.

Lemma length_keys {V} (d : gmap string V) : length (Py.keys d) = size d.
Proof. unfold Py.keys. by rewrite length_fmap, length_map_to_list. Qed.

Lemma keys_perm {V W} (d : gmap string V) (e : gmap string W) :
  dom d = dom e → Py.keys d ≡ₚ Py.keys e.
Proof.
  intros Hdom. apply NoDup_Permutation; [apply keys_NoDup..|].
  intros k. by rewrite !elem_of_keys, Hdom.
Qed.

Lemma getitem_Some {V} (d : gmap string V) k v : d !! k = Some v → Py.getitem d k = Ok v.
Proof. intros H. unfold Py.getitem. by rewrite H. Qed.

Lemma getitem_None {V} (d : gmap string V) k : d !! k = None → Py.getitem d k = Raise KeyError.
Proof. intros H. unfold Py.getitem. by rewrite H. Qed.

Lemma size_pos_of_elem {V} (d : gmap string V) k : k ∈ dom d → (0 < size d)%nat.
Proof.
  intros [v Hv]%elem_of_dom.
  destruct (decide (size d = 0%nat)) as [Hz|]; [|lia].
  apply map_size_empty_iff in Hz. subst d. by rewrite lookup_empty in Hv.
Qed.

Lemma is_empty_set_true s : Py.is_empty_set s = true ↔ s = ∅.
Proof. unfold Py.is_empty_set. apply bool_decide_eq_true. Qed.

Lemma is_empty_set_false s : Py.is_empty_set s = false ↔ (0 < size s)%nat.
Proof.
  unfold Py.is_empty_set. rewrite bool_decide_eq_false. split.
  - intros Hne. destruct (decide (size s = 0%nat)) as [Hz|]; [|lia].
    by apply size_empty_iff, leibniz_equiv in Hz.
  - intros Hpos ->. rewrite size_empty in Hpos. lia.
Qed.

(** ** Finite sums of rationals *)

Section sums.
Context {A : Type}.
Implicit Types (f g : A → Q) (l : list A).

Lemma sumQ_cons f x l : sumQ f (x :: l) = f x + sumQ f l.
Proof. done. Qed.

Lemma sumQ_ext f g l : (∀ x, x ∈ l → f x == g x) → sumQ f l == sumQ g l.
Proof.
  induction l as [|x l IH]; intros Hfg; [reflexivity|].
  rewrite !sumQ_cons, (Hfg x), IH; [reflexivity| |left].
  intros y Hy. apply Hfg. by right.
Qed.

Lemma sumQ_app f l1 l2 : sumQ f (l1 ++ l2) == sumQ f l1 + sumQ f l2.
Proof.
  induction l1 as [|x l1 IH]; simpl app; rewrite ?sumQ_cons.
  - unfold sumQ at 2. simpl. ring.
  - rewrite IH. ring.
Qed.

Lemma sumQ_perm f l1 l2 : l1 ≡ₚ l2 → sumQ f l1 == sumQ f l2.
Proof.
  induction 1 as [|x l1 l2 _ IH|x y l|l1 l2 l3 _ IH1 _ IH2];
    rewrite ?sumQ_cons.
  - reflexivity.
  - by rewrite IH.
  - ring.
  - by rewrite IH1.
Qed.

Lemma sumQ_plus f g l : sumQ (λ x, f x + g x) l == sumQ f l + sumQ g l.
Proof.
  induction l as [|x l IH]; rewrite ?sumQ_cons; [reflexivity|].
  rewrite IH. ring.
Qed.

Lemma sumQ_scale c f l : sumQ (λ x, c * f x) l == c * sumQ f l.
Proof.
  induction l as [|x l IH]; rewrite ?sumQ_cons.
  - unfold sumQ. simpl. ring.
  - rewrite IH. ring.
Qed.

Lemma sumQ_const c l : sumQ (λ _, c) l == c * Py.of_nat (length l).
Proof.
  induction l as [|x l IH]; rewrite ?sumQ_cons.
  - unfold sumQ, Py.of_nat. simpl. ring.
  - cbn [length]. rewrite IH, of_nat_S. ring.
Qed.

Lemma sumQ_le f g l : (∀ x, x ∈ l → f x <= g x) → sumQ f l <= sumQ g l.
Proof.
  induction l as [|x l IH]; intros Hfg; rewrite ?sumQ_cons.
  - apply Qle_refl.
  - apply Qplus_le_compat; [apply Hfg; left|].
    apply IH. intros y Hy. apply Hfg. by right.
Qed.

Lemma sumQ_nonneg f l : (∀ x, x ∈ l → 0 <= f x) → 0 <= sumQ f l.
Proof.
  intros Hf. induction l as [|x l IH]; rewrite ?sumQ_cons.
  - apply Qle_refl.
  - assert (0 <= f x) by (apply Hf; left).
    assert (0 <= sumQ f l) by (apply IH; intros y Hy; apply Hf; by right).
    lra.
Qed.

Lemma sumQ_abs f l : Qabs (sumQ f l) <= sumQ (λ x, Qabs (f x)) l.
Proof.
  induction l as [|x l IH]; rewrite ?sumQ_cons.
  - apply Qle_refl.
  - eapply Qle_trans; [apply Qabs_triangle|].
    apply Qplus_le_compat; [apply Qle_refl|done].
Qed.

Lemma sumQ_fmap {B} (h : B → A) f (l : list B) : sumQ f (h <$> l) = sumQ (f ∘ h) l.
Proof. induction l as [|x l IH]; [done|]. cbn [fmap list_fmap]. by rewrite !sumQ_cons, IH. Qed.

End sums.

Lemma sumQ_swap {A B} (f : A → B → Q) (l1 : list A) (l2 : list B) :
  sumQ (λ x, sumQ (λ y, f x y) l2) l1 == sumQ (λ y, sumQ (λ x, f x y) l1) l2.
Proof.
  induction l1 as [|x l1 IH]; rewrite ?sumQ_cons.
  - change (sumQ _ []) with 0 at 1.
    rewrite (sumQ_ext _ (λ _, 0)) by (intros; reflexivity).
    rewrite sumQ_const. ring.
  - rewrite IH, <- sumQ_plus. apply sumQ_ext. intros y _. by rewrite sumQ_cons.
Qed.

(** Summing a constant over the members of a set [X] among distinct [l]. *)
Lemma sumQ_indicator (X : gset string) (c : Q) (l : list string) :
  NoDup l →
  (∀ x, x ∈ X → x ∈ l) →
  sumQ (λ x, if decide (x ∈ X) then c else 0) l == c * Py.of_nat (size X).
Proof.
  intros Hnd. revert X. induction Hnd as [|a l Ha Hnd IH]; intros X HX.
  - assert (X = ∅) as ->.
    { apply set_eq. intros x. split; [|by intros ?%not_elem_of_empty].
      intros Hx%HX. by apply elem_of_nil in Hx. }
    rewrite size_empty. unfold sumQ, Py.of_nat. simpl. ring.
  - rewrite sumQ_cons. destruct (decide (a ∈ X)) as [HaX|HaX].
    + rewrite (sumQ_ext _ (λ x, if decide (x ∈ X ∖ {[a]}) then c else 0)).
      * rewrite IH.
        -- assert (size X = S (size (X ∖ {[a]}))) as ->.
           { rewrite (union_difference_L {[a]} X) at 1 by (by apply singleton_subseteq_l).
             rewrite size_union, size_singleton; [done|].
             intros x Hx [_ Hnot]%elem_of_difference. done. }
           rewrite of_nat_S. ring.
        -- intros x [Hx Hne]%elem_of_difference.
           apply HX, elem_of_cons in Hx as [->|]; [|done].
           exfalso. apply Hne. by apply elem_of_singleton.
      * intros x Hx. assert (x ≠ a) by (intros ->; done).
        destruct (decide (x ∈ X)) as [Hx1|Hx1], (decide (x ∈ X ∖ {[a]})) as [Hx2|Hx2];
          try reflexivity; exfalso.
        -- apply Hx2, elem_of_difference. split; [done|]. by intros ?%elem_of_singleton.
        -- by apply elem_of_difference in Hx2 as [? _].
    + rewrite IH; [ring|].
      intros x Hx. apply HX in Hx as Hx'. apply elem_of_cons in Hx' as [->|]; done.
Qed.

Lemma sum_values_keys (d : gmap string Q) : Py.sum_values d == sumQ (rank d) (Py.keys d).
Proof.
  unfold Py.sum_values, Py.keys. rewrite sumQ_fmap.
  change (foldr _ 0 (map_to_list d)) with (sumQ snd (map_to_list d)).
  apply sumQ_ext. intros [k v] Hkv%elem_of_map_to_list.
  unfold rank. simpl. by rewrite Hkv.
Qed.

(** ** Loops that store into a dictionary *)

Lemma bind_Ok {A B} (a : A) (f : A → result B) : (Ok a ≫= f) = f a.
Proof. done. Qed.

(** A loop [for k in ks: out[k] = v_k], over distinct keys, whose body sees
    at [k] the entry that [out] had for [k] before the loop. *)
Lemma for_in_store {V} (P : string → V → Prop) (ks : list string)
    (body : string → gmap string V → result (gmap string V)) (out : gmap string V) :
  NoDup ks →
  (∀ k o, k ∈ ks → o !! k = out !! k →
     ∃ v, body k o = Ok (<[k := v]> o) ∧ P k v) →
  ∃ out', Py.for_in ks body out = Ok out'
    ∧ (∀ k, k ∉ ks → out' !! k = out !! k)
    ∧ (∀ k, k ∈ ks → ∃ v, out' !! k = Some v ∧ P k v).
Proof.
  intros Hnd. revert out. induction Hnd as [|k0 ks Hk0 Hnd IH]; intros out Hbody.
  - exists out. split_and!; [done|done|]. intros k Hk. by apply elem_of_nil in Hk.
  - destruct (Hbody k0 out) as (v0 & Hrun & HP); [left|done|].
    destruct (IH (<[k0 := v0]> out)) as (out' & Hloop & Hrest & Hin).
    { intros k o Hk Ho. apply Hbody; [by right|].
      rewrite Ho, lookup_insert_ne; [done|]. intros ->. done. }
    exists out'. split_and!.
    + simpl. by rewrite Hrun.
    + intros k Hk. apply not_elem_of_cons in Hk as [Hne Hk].
      rewrite Hrest, lookup_insert_ne; done.
    + intros k [->|Hk]%elem_of_cons; [|by apply Hin].
      exists v0. split; [|done]. by rewrite Hrest, lookup_insert_eq.
Qed.

Lemma for_in_store_dom {V} (ks : list string) (out out' : gmap string V) (X : gset string) :
  (∀ k, k ∉ ks → out' !! k = out !! k) →
  (∀ k, k ∈ ks → is_Some (out' !! k)) →
  dom out ∪ list_to_set ks = X →
  dom out' = X.
Proof.
  intros Hrest Hin <-. apply set_eq. intros k.
  rewrite elem_of_union, !elem_of_dom, elem_of_list_to_set.
  destruct (decide (k ∈ ks)) as [Hk|Hk].
  - split; [by right|]. intros _. by apply Hin.
  - rewrite Hrest by done. split; [by left|]. by intros [|].
Qed.

Lemma list_to_set_keys {V} (d : gmap string V) : list_to_set (Py.keys d) =@{gset string} dom d.
Proof.
  apply set_eq. intros k. by rewrite elem_of_list_to_set, elem_of_keys.
Qed.

(** A loop [for k in ks: out[k] = c] that stores one value everywhere. *)
Lemma for_in_fill {V} (c : V) (ks : list string)
    (body : string → gmap string V → result (gmap string V)) (out : gmap string V) :
  NoDup ks →
  (∀ k o, k ∈ ks → body k o = Ok (<[k := c]> o)) →
  ∃ out', Py.for_in ks body out = Ok out'
    ∧ dom out' = dom out ∪ list_to_set ks
    ∧ (∀ k, k ∉ ks → out' !! k = out !! k)
    ∧ (∀ k, k ∈ ks → out' !! k = Some c).
Proof.
  intros Hnd Hbody.
  destruct (for_in_store (λ _ v, v = c) ks body out Hnd) as (out' & Hrun & Hrest & Hin).
  { intros k o Hk _. exists c. split; [by apply Hbody|done]. }
  assert (Hin' : ∀ k, k ∈ ks → out' !! k = Some c).
  { intros k Hk. by destruct (Hin k Hk) as (v & -> & ->). }
  exists out'. split_and!; try done.
  apply (for_in_store_dom ks out); [done| |done].
  intros k Hk. rewrite Hin' by done. by eexists.
Qed.

(** ** The transition model *)

Lemma baseline_loop (corpus : gmap string (gset string)) (d : Q) :
  ∃ out : gmap string Q,
    Py.for_in (Py.keys corpus) (λ web_page output,
      b ← Py.truediv (1 - d) (Py.of_nat (size corpus));
      Ok (<[web_page := b]> output)) ∅ = Ok out
    ∧ dom out = dom corpus
    ∧ (∀ q, q ∈ dom corpus → out !! q = Some (baseline corpus d)).
Proof.
  edestruct (for_in_fill (baseline corpus d) (Py.keys corpus)) as (out & Hrun & Hdom & _ & Hin);
    [apply keys_NoDup| |exists out; split_and!; [exact Hrun|..]].
  - intros k o Hk. cbv beta. rewrite truediv_count; [done|].
    by apply (size_pos_of_elem corpus k), elem_of_keys.
  - rewrite Hdom, list_to_set_keys, dom_empty_L. apply union_empty_l_L.
  - intros q Hq. by apply Hin, elem_of_keys.
Qed.

(** A page with outbound links, all of them keys: the linked pages get the
    baseline and a share of [d], the others the baseline. *)
Lemma transition_model_linked (corpus : gmap string (gset string)) page d linked :
  corpus !! page = Some linked →
  linked ≠ ∅ →
  linked ⊆ dom corpus →
  ∃ out, transition_model corpus page d = Ok out
    ∧ dom out = dom corpus
    ∧ (∀ q, q ∈ linked →
         out !! q = Some (baseline corpus d + d / Py.of_nat (size linked)))
    ∧ (∀ q, q ∈ dom corpus → q ∉ linked → out !! q = Some (baseline corpus d)).
Proof.
  intros Hpage Hne Hsub. unfold transition_model.
  destruct (baseline_loop corpus d) as (out0 & -> & Hdom0 & Hbase).
  rewrite bind_Ok, (getitem_Some _ _ _ Hpage), bind_Ok.
  assert (Hpos : (0 < size linked)%nat).
  { apply is_empty_set_false. unfold Py.is_empty_set. by apply bool_decide_eq_false. }
  apply is_empty_set_false in Hpos as Hempty. rewrite Hempty. simpl negb. cbv iota.
  apply is_empty_set_false in Hempty.
  destruct (for_in_store
              (λ _ v, v = baseline corpus d + d / Py.of_nat (size linked))
              (elements linked)
              (λ linked_page output,
                 old ← Py.getitem output linked_page;
                 share ← Py.truediv d (Py.of_nat (size linked));
                 Ok (<[linked_page := old + share]> output)) out0)
    as (out & Hrun & Hrest & Hin); [apply NoDup_elements| |].
  { intros k o Hk Ho. apply elem_of_elements in Hk.
    rewrite Hbase in Ho by (by apply Hsub).
    rewrite (getitem_Some _ _ _ Ho), bind_Ok, truediv_count by done.
    rewrite bind_Ok. by eexists. }
  exists out. split_and!; [done|..].
  - apply (for_in_store_dom (elements linked) out0); [done|..].
    + intros k Hk. destruct (Hin k Hk) as (v & -> & _). by eexists.
    + rewrite Hdom0, list_to_set_elements_L. apply set_eq. intros x.
      rewrite elem_of_union. split; [intros [|?%Hsub]; done|by left].
  - intros q Hq. destruct (Hin q) as (v & -> & ->); [by apply elem_of_elements|done].
  - intros q Hq Hnot. rewrite Hrest; [by apply Hbase|by rewrite elem_of_elements].
Qed.

(** A dangling page: every node gets [1 / N]. *)
Lemma transition_model_dangling (corpus : gmap string (gset string)) page d :
  corpus !! page = Some ∅ →
  ∃ out, transition_model corpus page d = Ok out
    ∧ dom out = dom corpus
    ∧ (∀ q, q ∈ dom corpus → out !! q = Some (1 / Py.of_nat (size corpus))).
Proof.
  intros Hpage. unfold transition_model.
  destruct (baseline_loop corpus d) as (out0 & -> & Hdom0 & Hbase).
  rewrite bind_Ok, (getitem_Some _ _ _ Hpage), bind_Ok.
  replace (Py.is_empty_set ∅) with true by (symmetry; by apply is_empty_set_true).
  simpl negb. cbv iota.
  edestruct (for_in_fill (1 / Py.of_nat (size corpus)) (Py.keys corpus))
    as (out & Hrun & Hdom & _ & Hin);
    [apply keys_NoDup| |exists out; split_and!; [exact Hrun|..]].
  - intros k o Hk. cbv beta. rewrite truediv_count; [done|].
    by apply (size_pos_of_elem corpus k), elem_of_keys.
  - rewrite Hdom, list_to_set_keys, Hdom0. apply set_eq. intros x.
    rewrite elem_of_union. tauto.
  - intros q Hq. by apply Hin, elem_of_keys.
Qed.

(** The ranks of a distribution over the nodes of [corpus] add up as the
    pointwise description of the distribution says. *)
Lemma sum_values_pointwise {V} (corpus : gmap string V) (out : gmap string Q) (f : string → Q) :
  dom out = dom corpus →
  (∀ q v, out !! q = Some v → v == f q) →
  Py.sum_values out == sumQ f (Py.keys corpus).
Proof.
  intros Hdom Hf. rewrite sum_values_keys, (sumQ_perm _ _ _ (keys_perm out corpus Hdom)).
  apply sumQ_ext. intros q Hq. apply elem_of_keys in Hq. rewrite <- Hdom in Hq.
  apply elem_of_dom in Hq as [v Hv]. unfold rank. rewrite Hv. by apply Hf.
Qed.

Lemma transition_model_total (corpus : gmap string (gset string)) page d linked :
  corpus !! page = Some linked →
  linked ⊆ dom corpus →
  ∃ out, transition_model corpus page d = Ok out
    ∧ dom out = dom corpus
    ∧ Py.sum_values out == 1.
Proof.
  intros Hpage Hsub.
  assert (HN : ¬ Py.of_nat (size corpus) == 0).
  { apply of_nat_nonzero, (size_pos_of_elem corpus page), elem_of_dom. by eexists. }
  destruct (decide (linked = ∅)) as [->|Hne].
  - destruct (transition_model_dangling corpus page d Hpage) as (out & Hrun & Hdom & Hval).
    exists out. split_and!; [done..|].
    rewrite (sum_values_pointwise corpus out (λ _, 1 / Py.of_nat (size corpus)) Hdom).
    + rewrite sumQ_const, length_keys. by field.
    + intros q v Hq. rewrite Hval in Hq; [by injection Hq as <-|].
      rewrite <- Hdom. apply elem_of_dom. by eexists.
  - destruct (transition_model_linked corpus page d linked Hpage Hne Hsub)
      as (out & Hrun & Hdom & Hin & Hout).
    assert (Hk : ¬ Py.of_nat (size linked) == 0).
    { apply of_nat_nonzero, is_empty_set_false. unfold Py.is_empty_set.
      by apply bool_decide_eq_false. }
    exists out. split_and!; [done..|].
    rewrite (sum_values_pointwise corpus out
               (λ q, baseline corpus d
                     + (if decide (q ∈ linked) then d / Py.of_nat (size linked) else 0)) Hdom).
    + rewrite sumQ_plus, sumQ_const, length_keys, sumQ_indicator.
      * unfold baseline. by field.
      * apply keys_NoDup.
      * intros x Hx. by apply elem_of_keys, Hsub.
    + intros q v Hq. assert (q ∈ dom corpus) as Hqd.
      { rewrite <- Hdom. apply elem_of_dom. by eexists. }
      destruct (decide (q ∈ linked)) as [Hl|Hl].
      * rewrite Hin in Hq by done. by injection Hq as <-.
      * rewrite Hout in Hq by done. injection Hq as <-. ring.
Qed.

(** A page with a link to a node that is no key: the lookup of that node in
    [output] fails. *)
Lemma for_in_missing_key {V} (ks : list string)
    (body : string → gmap string V → result (gmap string V)) (out : gmap string V) :
  (∀ k o, o !! k = None → body k o = Raise KeyError) →
  (∀ k o, is_Some (o !! k) → ∃ v, body k o = Ok (<[k := v]> o)) →
  (∃ k, k ∈ ks ∧ out !! k = None) →
  Py.for_in ks body out = Raise KeyError.
Proof.
  intros Hmiss Hhit. revert out. induction ks as [|k0 ks IH]; intros out (k & Hk & Hnone).
  - by apply elem_of_nil in Hk.
  - simpl. destruct (out !! k0) as [v0|] eqn:E0.
    + destruct (Hhit k0 out) as (v & ->); [by rewrite E0|]. rewrite bind_Ok.
      apply IH. exists k. apply elem_of_cons in Hk as [->|Hk]; [congruence|].
      split; [done|]. rewrite lookup_insert_ne; [done|]. intros ->. congruence.
    + by rewrite Hmiss.
Qed.

Lemma transition_model_foreign (corpus : gmap string (gset string)) page d linked :
  corpus !! page = Some linked →
  ¬ linked ⊆ dom corpus →
  transition_model corpus page d = Raise KeyError.
Proof.
  intros Hpage Hsub. unfold transition_model.
  destruct (baseline_loop corpus d) as (out0 & -> & Hdom0 & Hbase).
  rewrite bind_Ok, (getitem_Some _ _ _ Hpage), bind_Ok.
  assert (Hpos : (0 < size linked)%nat).
  { apply is_empty_set_false. unfold Py.is_empty_set. apply bool_decide_eq_false.
    intros ->. apply Hsub, empty_subseteq. }
  apply is_empty_set_false in Hpos as Hempty. rewrite Hempty. simpl negb. cbv iota.
  apply for_in_missing_key.
  - intros k o Hk. by rewrite (getitem_None _ _ Hk).
  - intros k o [v Hv]. rewrite (getitem_Some _ _ _ Hv), bind_Ok, truediv_count by done.
    rewrite bind_Ok. by eexists.
  - destruct (decide (Forall (λ k, k ∈ dom corpus) (elements linked))) as [Hall|Hex].
    + exfalso. apply Hsub. intros k Hk.
      rewrite Forall_forall in Hall. by apply Hall, elem_of_elements.
    + apply not_Forall_Exists in Hex; [|apply _].
      apply Exists_exists in Hex as (k & Hk & Hnot).
      exists k. split; [done|]. apply not_elem_of_dom. by rewrite Hdom0.
Qed.

Lemma transition_model_no_page (corpus : gmap string (gset string)) page d :
  corpus !! page = None →
  transition_model corpus page d = Raise KeyError.
Proof.
  intros Hpage. unfold transition_model.
  destruct (baseline_loop corpus d) as (out0 & -> & _).
  by rewrite bind_Ok, (getitem_None _ _ Hpage).
Qed.

(** ** The random choices *)

Lemma index_Some {A} (xs : list A) i x : xs !! i = Some x → Py.index xs i = Ok x.
Proof. intros H. unfold Py.index. by rewrite H. Qed.

Lemma index_lt {A} (xs : list A) i :
  (i < length xs)%nat → ∃ x, Py.index xs i = Ok x ∧ x ∈ xs.
Proof.
  intros Hi. destruct (lookup_lt_is_Some_2 xs i Hi) as [x Hx].
  exists x. split; [by apply index_Some|]. apply list_elem_of_lookup. by exists i.
Qed.

(** A uniform choice from a non-empty sequence yields one of its members. *)
Lemma choice_ok {A} (u : Q) (seq : list A) :
  seq ≠ [] → 0 <= u → u < 1 →
  ∃ x, Random.choice u seq = Ok x ∧ x ∈ seq.
Proof.
  intros Hne Hu0 Hu1. unfold Random.choice.
  assert (Hlen : (0 < length seq)%nat) by (destruct seq; [done|simpl; lia]).
  destruct (decide (length seq = 0%nat)) as [|_]; [lia|].
  apply index_lt.
  pose proof (of_nat_pos _ Hlen) as Hpos.
  set (x := u * Py.of_nat (length seq)).
  assert (Hx0 : 0 <= x) by (unfold x; nra).
  assert (Hx1 : x < Py.of_nat (length seq)) by (unfold x; nra).
  assert (Hfl0 : (0 <= Qfloor x)%Z).
  { change 0%Z with (Qfloor 0). by apply Qfloor_resp_le. }
  assert (Hfl1 : (Qfloor x < Z.of_nat (length seq))%Z).
  { rewrite Zlt_Qlt. eapply Qle_lt_trans; [apply Qfloor_le|done]. }
  lia.
Qed.

Lemma bisect_loop_bounds (turns : nat) (a : list Q) (x : Q) (lo hi : nat) :
  (lo ≤ hi)%nat → (hi ≤ length a)%nat →
  ∃ i, Random.bisect_loop turns a x lo hi = Ok i ∧ (lo ≤ i ≤ hi)%nat.
Proof.
  revert lo hi. induction turns as [|turns IH]; intros lo hi Hlo Hhi;
    cbn [Random.bisect_loop]; cbv zeta.
  - exists lo. split; [done|lia].
  - destruct (decide (lo < hi)%nat) as [Hlt|]; [|exists lo; split; [done|lia]].
    assert (Hmid : (lo ≤ (lo + hi) / 2 < hi)%nat).
    { split; [apply Nat.div_le_lower_bound; lia|apply Nat.Div0.div_lt_upper_bound; lia]. }
    destruct (index_lt a ((lo + hi) / 2)) as (a_mid & -> & _); [lia|].
    rewrite bind_Ok. destruct (Qlt_le_dec x a_mid).
    + destruct (IH lo ((lo + hi) / 2)%nat) as (i & -> & Hi); [lia..|].
      exists i. split; [done|lia].
    + destruct (IH ((lo + hi) / 2 + 1)%nat hi) as (i & -> & Hi); [lia..|].
      exists i. split; [done|lia].
Qed.

Lemma accumulate_from_length acc ws : length (Random.accumulate_from acc ws) = length ws.
Proof. revert acc. induction ws as [|w ws IH]; intros acc; simpl; [done|]. by rewrite IH. Qed.

Lemma accumulate_length ws : length (Random.accumulate ws) = length ws.
Proof. destruct ws as [|w ws]; simpl; [done|]. by rewrite accumulate_from_length. Qed.

Lemma accumulate_from_last acc ws :
  ∃ t, last (acc :: Random.accumulate_from acc ws) = Some t ∧ t == acc + sumQ id ws.
Proof.
  revert acc. induction ws as [|w ws IH]; intros acc.
  - exists acc. split; [done|]. unfold sumQ. simpl. ring.
  - destruct (IH (acc + w)) as (t & Ht & Heq). exists t. split.
    + simpl Random.accumulate_from. by rewrite last_cons_cons.
    + rewrite Heq, sumQ_cons. unfold id at 2. ring.
Qed.

Lemma accumulate_last ws :
  ws ≠ [] → ∃ t, last (Random.accumulate ws) = Some t ∧ t == sumQ id ws.
Proof.
  destruct ws as [|w ws]; [done|]. intros _.
  destruct (accumulate_from_last w ws) as (t & Ht & Heq).
  exists t. split; [done|]. rewrite Heq, sumQ_cons. reflexivity.
Qed.

(** A weighted choice yields a member of the population as soon as the
    weights add up to a positive number. *)
Lemma choices_ok {A} (u : Q) (population : list A) (weights : list Q) :
  length weights = length population →
  population ≠ [] →
  0 < sumQ id weights →
  ∃ x, Random.choices u population weights = Ok [x] ∧ x ∈ population.
Proof.
  intros Hlen Hne Hpos. unfold Random.choices.
  destruct (decide (length (Random.accumulate weights) ≠ length population)) as [Hbad|_].
  { by rewrite accumulate_length in Hbad. }
  destruct (accumulate_last weights) as (t & -> & Ht).
  { intros ->. destruct population; done. }
  rewrite bind_Ok.
  destruct (Qle_bool t 0) eqn:E.
  { apply Qle_bool_iff in E. rewrite Ht in E. lra. }
  assert (Hn : (0 < length population)%nat) by (destruct population; [done|simpl; lia]).
  destruct (bisect_loop_bounds (length population - 1 - 0) (Random.accumulate weights)
              (u * t) 0 (length population - 1)) as (i & Hi & Hbound).
  { lia. } { rewrite accumulate_length. lia. }
  unfold Random.bisect. rewrite Hi, bind_Ok.
  destruct (index_lt population i) as (x & -> & Hx); [lia|].
  exists x. by rewrite bind_Ok.
Qed.

(** The weights handed to the weighted choice are the values of the
    transition model, in the order of its keys. *)
Lemma comprehension_getitem (d : gmap string Q) :
  Py.comprehension (Py.getitem d) (Py.keys d) = Ok (map_to_list d).*2.
Proof.
  unfold Py.keys.
  assert (H : ∀ k v, (k, v) ∈ map_to_list d → d !! k = Some v).
  { intros k v. apply elem_of_map_to_list. }
  induction (map_to_list d) as [|[k v] l IH]; [done|].
  cbn [fmap list_fmap Py.comprehension fst snd].
  rewrite (getitem_Some d k v) by (apply H; left).
  rewrite bind_Ok, IH; [done|]. intros k' v' Hin. apply H. by right.
Qed.

Lemma sum_values_weights (d : gmap string Q) : sumQ id (map_to_list d).*2 = Py.sum_values d.
Proof. by rewrite sumQ_fmap. Qed.

(** ** The sampling estimator *)

Lemma nonempty_keys {V} (d : gmap string V) : d ≠ ∅ → Py.keys d ≠ [].
Proof.
  intros Hne Hnil. apply Hne, map_size_empty_iff.
  by rewrite <- length_keys, Hnil.
Qed.

(** A turn of the walk samples a node of the graph, or fails on the lookup
    of a linked node that is no key. *)
Lemma next_sample_cases (corpus : gmap string (gset string)) d rng i sample :
  corpus ≠ ∅ →
  0 <= rng i → rng i < 1 →
  (i = 0%nat ∨ ∃ current, sample = Some current ∧ current ∈ dom corpus) →
  (∃ s, next_sample corpus d rng i sample = Ok s ∧ s ∈ dom corpus)
  ∨ (next_sample corpus d rng i sample = Raise KeyError ∧ ¬ targets_are_keys corpus).
Proof.
  intros Hne Hu0 Hu1 Hstate. unfold next_sample.
  destruct (decide (i = 0%nat)) as [Hi|Hi].
  - left. destruct (choice_ok (rng i) (Py.keys corpus)) as (x & Hx & Hin);
      [by apply nonempty_keys|done..|].
    exists x. split; [done|]. by apply elem_of_keys.
  - destruct Hstate as [|(current & -> & Hcur)]; [done|].
    apply elem_of_dom in Hcur as Hlook. destruct Hlook as [linked Hlinked].
    rewrite bind_Ok.
    destruct (decide (linked ⊆ dom corpus)) as [Hsub|Hsub].
    + left.
      destruct (transition_model_total corpus current d linked Hlinked Hsub)
        as (t & -> & Hdom & Hsum).
      rewrite !bind_Ok, comprehension_getitem, bind_Ok.
      destruct (choices_ok (rng i) (Py.keys t) (map_to_list t).*2) as (x & -> & Hx).
      * unfold Py.keys. by rewrite !length_fmap.
      * apply nonempty_keys. intros ->. rewrite dom_empty_L in Hdom.
        rewrite <- Hdom in Hcur. by apply not_elem_of_empty in Hcur.
      * rewrite sum_values_weights, Hsum. reflexivity.
      * rewrite bind_Ok. exists x. split; [done|].
        rewrite <- Hdom. by apply elem_of_keys.
    + right. rewrite (transition_model_foreign corpus current d linked Hlinked Hsub).
      split; [done|]. intros Hwf. by apply Hsub, (Hwf current).
Qed.

Lemma visits_cons p s sampled :
  visits p (s :: sampled) = if decide (s = p) then S (visits p sampled) else visits p sampled.
Proof. unfold visits. rewrite filter_cons. by destruct (decide (s = p)). Qed.

Lemma visits_le p sampled : (visits p sampled ≤ length sampled)%nat.
Proof. apply length_filter. Qed.

Lemma zero_loop (corpus : gmap string (gset string)) :
  ∃ out : gmap string Q,
    Py.for_in (Py.keys corpus) (λ web_page output, Ok (<[web_page := 0]> output)) ∅ = Ok out
    ∧ dom out = dom corpus
    ∧ (∀ q, q ∈ dom corpus → out !! q = Some 0).
Proof.
  edestruct (for_in_fill 0 (Py.keys corpus)) as (out & Hrun & Hdom & _ & Hin);
    [apply keys_NoDup| |exists out; split_and!; [exact Hrun|..]].
  - done.
  - rewrite Hdom, list_to_set_keys, dom_empty_L. apply set_eq. intros x.
    rewrite elem_of_union. split; [by intros [?%not_elem_of_empty|]|by right].
  - intros q Hq. by apply Hin, elem_of_keys.
Qed.

Lemma weight_ok (n : Z) : (1 ≤ n)%Z → Py.truediv 1 (inject_Z n) = Ok (1 / inject_Z n).
Proof.
  intros Hn. apply truediv_ok. intros Heq.
  assert (0 < inject_Z n) as Hpos; [|rewrite Heq in Hpos; by apply Qlt_irrefl in Hpos].
  change 0 with (inject_Z 0). rewrite <- Zlt_Qlt. lia.
Qed.

(** The sampling loop, from any turn on: every turn samples a node of the
    graph and raises its entry by [1 / n], unless the lookup of a linked
    node that is no key ends the loop. *)
Lemma sample_loop (corpus : gmap string (gset string)) d (n : Z) rng :
  corpus ≠ ∅ →
  (∀ i, 0 <= rng i ∧ rng i < 1) →
  (1 ≤ n)%Z →
  ∀ turns sample output,
    dom output = dom corpus →
    match turns with
    | [] => True
    | i :: _ => i = 0%nat ∨ ∃ current, sample = Some current ∧ current ∈ dom corpus
    end →
    (∃ sample' output' sampled,
      Py.for_in turns (sample_turn corpus d n rng) (sample, output) = Ok (sample', output')
      ∧ walk corpus d rng turns sample = Ok sampled
      ∧ length sampled = length turns
      ∧ Forall (λ s, s ∈ dom corpus) sampled
      ∧ dom output' = dom corpus
      ∧ ∀ p, p ∈ dom corpus →
          rank output' p == rank output p + Py.of_nat (visits p sampled) / inject_Z n)
    ∨ (Py.for_in turns (sample_turn corpus d n rng) (sample, output) = Raise KeyError
       ∧ ¬ targets_are_keys corpus).
Proof.
  intros Hne Hrng Hn. induction turns as [|i turns IH]; intros sample output Hdom Hstate.
  - left. exists sample, output, []. split_and!; try done.
    intros p _. unfold visits, Py.of_nat. simpl. unfold Qdiv. ring.
  - destruct (next_sample_cases corpus d rng i sample Hne) as [(s & Hs & Hsd)|[Hs Hbad]];
      [apply Hrng..|done| |].
    2:{ right. split; [|done]. cbn [Py.for_in sample_turn]. by rewrite Hs. }
    assert (is_Some (output !! s)) as [old Hold] by (apply elem_of_dom; by rewrite Hdom).
    assert (Hturn : sample_turn corpus d n rng i (sample, output)
                    = Ok (Some s, <[s := old + 1 / inject_Z n]> output)).
    { cbn [sample_turn]. rewrite Hs, bind_Ok, (getitem_Some _ _ _ Hold), bind_Ok.
      by rewrite (weight_ok n Hn), !bind_Ok. }
    destruct (IH (Some s) (<[s := old + 1 / inject_Z n]> output))
      as [(sample' & output' & later & Hrun & Hwalk & Hlen & Hall & Hdom' & Hrank)
         |[Hrun Hbad]].
    { rewrite dom_insert_L, Hdom. apply set_eq. intros x.
      rewrite elem_of_union, elem_of_singleton. split; [by intros [->|]|by right]. }
    { destruct turns; [done|]. right. by exists s. }
    2:{ right. split; [|done]. cbn [Py.for_in]. by rewrite Hturn, bind_Ok. }
    left. exists sample', output', (s :: later). split_and!.
    + cbn [Py.for_in]. by rewrite Hturn, bind_Ok.
    + cbn [walk]. by rewrite Hs, bind_Ok, Hwalk.
    + simpl. by rewrite Hlen.
    + by constructor.
    + done.
    + intros p Hp. rewrite (Hrank p Hp), visits_cons. unfold rank.
      destruct (decide (s = p)) as [->|Hsp].
      * rewrite lookup_insert_eq, Hold. simpl. rewrite of_nat_S. unfold Qdiv. ring.
      * rewrite lookup_insert_ne by done. reflexivity.
Qed.

(** On a non-empty graph, with [n >= 1]: the estimator returns, for every
    node, its number of visits over [n], unless it fails on a linked node
    that is no key. *)
Lemma sample_pagerank_cases (corpus : gmap string (gset string)) d (n : Z) rng :
  corpus ≠ ∅ →
  (∀ i, 0 <= rng i ∧ rng i < 1) →
  (1 ≤ n)%Z →
  (∃ out sampled,
    sample_pagerank corpus d n rng = Ok out
    ∧ samples corpus d n rng = Ok sampled
    ∧ length sampled = Z.to_nat n
    ∧ Forall (λ s, s ∈ dom corpus) sampled
    ∧ dom out = dom corpus
    ∧ ∀ p v, out !! p = Some v → v == Py.of_nat (visits p sampled) / inject_Z n)
  ∨ (sample_pagerank corpus d n rng = Raise KeyError ∧ ¬ targets_are_keys corpus).
Proof.
  intros Hne Hrng Hn. unfold sample_pagerank, samples.
  destruct (zero_loop corpus) as (out0 & -> & Hdom0 & Hzero). rewrite bind_Ok.
  destruct (sample_loop corpus d n rng Hne Hrng Hn (Py.range n) None out0 Hdom0)
    as [(sample' & out & sampled & -> & Hwalk & Hlen & Hall & Hdom & Hrank)|[-> Hbad]].
  { unfold Py.range. destruct (Z.to_nat n); [done|]. by left. }
  2:{ by right. }
  left. exists out, sampled. rewrite bind_Ok. split_and!; try done.
  - rewrite Hlen. unfold Py.range. by rewrite length_seq.
  - intros p v Hv. assert (p ∈ dom corpus) as Hp.
    { rewrite <- Hdom. apply elem_of_dom. by eexists. }
    specialize (Hrank p Hp). unfold rank in Hrank.
    rewrite Hv, (Hzero p Hp) in Hrank. simpl in Hrank. rewrite Hrank. ring.
Qed.

Lemma sample_pagerank_counts (corpus : gmap string (gset string)) d (n : Z) rng :
  targets_are_keys corpus →
  corpus ≠ ∅ →
  (∀ i, 0 <= rng i ∧ rng i < 1) →
  (1 ≤ n)%Z →
  ∃ out sampled,
    sample_pagerank corpus d n rng = Ok out
    ∧ samples corpus d n rng = Ok sampled
    ∧ length sampled = Z.to_nat n
    ∧ Forall (λ s, s ∈ dom corpus) sampled
    ∧ dom out = dom corpus
    ∧ ∀ p v, out !! p = Some v → v == Py.of_nat (visits p sampled) / inject_Z n.
Proof.
  intros Hwf Hne Hrng Hn.
  by destruct (sample_pagerank_cases corpus d n rng Hne Hrng Hn) as [Hok|[_ Hbad]].
Qed.

(** *** Counting the visits *)

Lemma sum_list_with_plus {A} (f g : A → nat) (l : list A) :
  sum_list_with (λ x, f x + g x)%nat l = (sum_list_with f l + sum_list_with g l)%nat.
Proof. induction l as [|x l IH]; [done|]. cbn [sum_list_with]. rewrite IH. lia. Qed.

Lemma sum_list_with_ext {A} (f g : A → nat) (l : list A) :
  (∀ x, x ∈ l → f x = g x) → sum_list_with f l = sum_list_with g l.
Proof.
  induction l as [|x l IH]; intros Hfg; [done|]. cbn [sum_list_with].
  rewrite (Hfg x), IH; [done| |left]. intros y Hy. apply Hfg. by right.
Qed.

Lemma sum_list_with_zero {A} (l : list A) : sum_list_with (λ _, 0%nat) l = 0%nat.
Proof. induction l as [|x l IH]; [done|]. cbn [sum_list_with]. by rewrite IH. Qed.

Lemma sum_list_with_one_hot (s : string) (l : list string) :
  NoDup l → s ∈ l →
  sum_list_with (λ p, if decide (s = p) then 1 else 0)%nat l = 1%nat.
Proof.
  induction 1 as [|a l Ha Hnd IH]; intros Hs; [by apply elem_of_nil in Hs|].
  cbn [sum_list_with]. destruct (decide (s = a)) as [->|Hne].
  - rewrite (sum_list_with_ext _ (λ _, 0%nat)).
    + by rewrite sum_list_with_zero.
    + intros x Hx. destruct (decide (a = x)) as [<-|]; done.
  - apply elem_of_cons in Hs as [|Hs]; [done|]. by rewrite IH.
Qed.

(** The visit counts of the nodes add up to the number of samples. *)
Lemma sum_list_with_visits (l : list string) (sampled : list string) :
  NoDup l → Forall (λ s, s ∈ l) sampled →
  sum_list_with (λ p, visits p sampled) l = length sampled.
Proof.
  intros Hnd. induction 1 as [|s sampled Hs _ IH].
  - apply sum_list_with_zero.
  - rewrite (sum_list_with_ext _
               (λ p, (if decide (s = p) then 1 else 0) + visits p sampled)%nat).
    + rewrite sum_list_with_plus, sum_list_with_one_hot, IH; done.
    + intros p _. rewrite visits_cons. by destruct (decide (s = p)).
Qed.

Lemma of_nat_plus a b : Py.of_nat (a + b) == Py.of_nat a + Py.of_nat b.
Proof. unfold Py.of_nat. by rewrite Nat2Z.inj_add, inject_Z_plus. Qed.

Lemma of_nat_sum_list_with {A} (f : A → nat) (l : list A) :
  Py.of_nat (sum_list_with f l) == sumQ (λ x, Py.of_nat (f x)) l.
Proof.
  induction l as [|x l IH]; [reflexivity|].
  cbn [sum_list_with]. by rewrite of_nat_plus, sumQ_cons, IH.
Qed.

Lemma of_nat_to_nat (n : Z) : (0 ≤ n)%Z → Py.of_nat (Z.to_nat n) = inject_Z n.
Proof. intros Hn. unfold Py.of_nat. by rewrite Z2Nat.id. Qed.

Lemma of_nat_le a b : (a ≤ b)%nat → Py.of_nat a <= Py.of_nat b.
Proof. intros Hab. unfold Py.of_nat. rewrite <- Zle_Qle. lia. Qed.

(** Estimates that are visit counts over [n] add up to one. *)
Lemma counts_sum_to_one (corpus : gmap string (gset string)) (n : Z)
    (out : gmap string Q) (sampled : list string) :
  (1 ≤ n)%Z →
  length sampled = Z.to_nat n →
  Forall (λ s, s ∈ dom corpus) sampled →
  dom out = dom corpus →
  (∀ p v, out !! p = Some v → v == Py.of_nat (visits p sampled) / inject_Z n) →
  Py.sum_values out == 1.
Proof.
  intros Hn Hlen Hall Hdom Hval.
  rewrite (sum_values_pointwise corpus out _ Hdom Hval).
  rewrite (sumQ_ext _ (λ p, / inject_Z n * Py.of_nat (visits p sampled)))
    by (intros; unfold Qdiv; ring).
  rewrite sumQ_scale, <- of_nat_sum_list_with, sum_list_with_visits, Hlen, of_nat_to_nat by
    first [lia | apply keys_NoDup
          | eapply Forall_impl; [exact Hall|]; intros s Hs; by apply elem_of_keys].
  field. change 0 with (inject_Z 0). rewrite inject_Z_injective. lia.
Qed.

(** ** The iterative estimator: one pass *)

Lemma links_lookup (corpus : gmap string (gset string)) q linked :
  corpus !! q = Some linked → links corpus q = linked.
Proof. intros H. unfold links. by rewrite H. Qed.

(** The inner loop of a pass adds up the contributions of the nodes. *)
Lemma visit_loop (corpus : gmap string (gset string)) (prev : gmap string Q) p :
  dom prev = dom corpus →
  ∀ l acc, (∀ q, q ∈ l → q ∈ dom corpus) →
    ∃ v, Py.for_in l (visit_from corpus (size corpus) prev p) acc = Ok v
         ∧ v == acc + sumQ (contribution corpus prev p) l.
Proof.
  intros Hdom. induction l as [|q l IH]; intros acc Hl.
  - exists acc. split; [done|]. unfold sumQ. simpl. ring.
  - assert (q ∈ dom corpus) as Hq by (apply Hl; left).
    apply elem_of_dom in Hq as Hlook. destruct Hlook as [linked Hlinked].
    assert (is_Some (prev !! q)) as [r Hr] by (apply elem_of_dom; by rewrite Hdom).
    assert (∃ acc', visit_from corpus (size corpus) prev p q acc = Ok acc'
                    ∧ acc' == acc + contribution corpus prev p q) as (acc' & Hstep & Hacc').
    { unfold visit_from, contribution, outdegree, rank.
      rewrite (getitem_Some _ _ _ Hlinked), bind_Ok, (links_lookup _ _ _ Hlinked), Hr.
      simpl default. destruct (Py.is_empty_set linked) eqn:E; simpl negb; cbv iota.
      - apply is_empty_set_true in E. subst linked. rewrite size_empty.
        destruct (decide (0 = 0)%nat); [|done].
        rewrite (getitem_Some _ _ _ Hr), bind_Ok, truediv_count
          by (by apply (size_pos_of_elem corpus q)).
        rewrite bind_Ok. by eexists.
      - apply is_empty_set_false in E.
        destruct (decide (size linked = 0)%nat); [lia|].
        destruct (decide (p ∈ linked)).
        + rewrite (getitem_Some _ _ _ Hr), bind_Ok, truediv_count by done.
          rewrite bind_Ok. by eexists.
        + exists acc. split; [done|]. ring. }
    destruct (IH acc') as (v & Hv & Heq); [intros q' Hq'; apply Hl; by right|].
    exists v. split.
    + cbn [Py.for_in]. by rewrite Hstep, bind_Ok.
    + rewrite Heq, Hacc', sumQ_cons. ring.
Qed.

(** One pass, reading the snapshot [prev] and storing into [output]: the
    stored ranks are those of the recurrence on [prev], whatever [output]
    held. *)
Lemma iterate_pass_recurrence (corpus : gmap string (gset string)) d
    (prev output : gmap string Q) :
  dom prev = dom corpus →
  ∃ new, iterate_pass corpus d (size corpus) prev output = Ok new
    ∧ dom new = dom output ∪ dom corpus
    ∧ (∀ p, p ∉ dom corpus → new !! p = output !! p)
    ∧ (∀ p, p ∈ dom corpus → ∃ v, new !! p = Some v ∧ v == recurrence corpus d prev p).
Proof.
  intros Hdom. unfold iterate_pass.
  destruct (for_in_store (λ p v, v == recurrence corpus d prev p) (Py.keys prev)
              (λ current_page output,
                 prob ← Py.for_in (Py.keys corpus)
                          (visit_from corpus (size corpus) prev current_page) 0;
                 b ← Py.truediv (1 - d) (Py.of_nat (size corpus));
                 Ok (<[current_page := b + d * prob]> output)) output)
    as (new & Hrun & Hrest & Hin); [apply keys_NoDup| |].
  { intros p o Hp _. apply elem_of_keys in Hp. rewrite Hdom in Hp.
    destruct (visit_loop corpus prev p Hdom (Py.keys corpus) 0) as (v & -> & Hv).
    { intros q. by rewrite elem_of_keys. }
    rewrite bind_Ok, truediv_count by (by apply (size_pos_of_elem corpus p)).
    rewrite bind_Ok. eexists. split; [done|].
    unfold recurrence. rewrite Hv. ring. }
  exists new. split_and!; [done|..].
  - apply (for_in_store_dom (Py.keys prev) output); [done|..].
    + intros k Hk. destruct (Hin k Hk) as (v & -> & _). by eexists.
    + by rewrite list_to_set_keys, Hdom.
  - intros p Hp. apply Hrest. by rewrite elem_of_keys, Hdom.
  - intros p Hp. apply Hin. by rewrite elem_of_keys, Hdom.
Qed.

(** ** The pass as a linear map: its columns add up to one *)

Lemma contribution_transfer (corpus : gmap string (gset string)) prev p q :
  contribution corpus prev p q == transfer corpus p q * rank prev q.
Proof.
  unfold contribution, transfer.
  destruct (decide (outdegree corpus q = 0)%nat); [unfold Qdiv; ring|].
  destruct (decide (p ∈ links corpus q)); unfold Qdiv; ring.
Qed.

Lemma inverse_count_nonneg n : 0 <= 1 / Py.of_nat n.
Proof.
  unfold Qdiv. rewrite Qmult_1_l. apply Qinv_le_0_compat.
  unfold Py.of_nat. change 0 with (inject_Z 0). rewrite <- Zle_Qle. lia.
Qed.

Lemma transfer_nonneg (corpus : gmap string (gset string)) p q : 0 <= transfer corpus p q.
Proof.
  unfold transfer. destruct (decide (outdegree corpus q = 0)%nat).
  - apply inverse_count_nonneg.
  - destruct (decide (p ∈ links corpus q)); [apply inverse_count_nonneg|apply Qle_refl].
Qed.

(** Every node hands on all of its rank: here the edge targets must be
    nodes of the graph. *)
Lemma transfer_column (corpus : gmap string (gset string)) q :
  targets_are_keys corpus →
  q ∈ dom corpus →
  sumQ (λ p, transfer corpus p q) (Py.keys corpus) == 1.
Proof.
  intros Hwf Hq. apply elem_of_dom in Hq as Hlook. destruct Hlook as [linked Hlinked].
  unfold transfer, outdegree. rewrite (links_lookup _ _ _ Hlinked).
  destruct (decide (size linked = 0)%nat) as [|Hk].
  - rewrite sumQ_const, length_keys. field.
    by apply of_nat_nonzero, (size_pos_of_elem corpus q).
  - rewrite sumQ_indicator.
    + field. apply of_nat_nonzero. lia.
    + apply keys_NoDup.
    + intros x Hx. by apply elem_of_keys, (Hwf q linked).
Qed.

Lemma recurrence_difference (corpus : gmap string (gset string)) d a b p :
  recurrence corpus d a p - recurrence corpus d b p
  == d * sumQ (λ q, transfer corpus p q * (rank a q - rank b q)) (Py.keys corpus).
Proof.
  unfold recurrence.
  rewrite (sumQ_ext (contribution corpus a p) (λ q, transfer corpus p q * rank a q))
    by (intros; apply contribution_transfer).
  rewrite (sumQ_ext (contribution corpus b p) (λ q, transfer corpus p q * rank b q))
    by (intros; apply contribution_transfer).
  rewrite (sumQ_ext (λ q, transfer corpus p q * (rank a q - rank b q))
             (λ q, transfer corpus p q * rank a q + (-1) * (transfer corpus p q * rank b q)))
    by (intros; ring).
  rewrite sumQ_plus, sumQ_scale. ring.
Qed.

Lemma distance_nonneg (corpus : gmap string (gset string)) a b : 0 <= distance corpus a b.
Proof. apply sumQ_nonneg. intros. apply Qabs_nonneg. Qed.

Lemma distance_bounds (corpus : gmap string (gset string)) a b p :
  p ∈ dom corpus → Qabs (a p - b p) <= distance corpus a b.
Proof.
  intros Hp. apply elem_of_keys in Hp. unfold distance.
  induction (Py.keys corpus) as [|x l IH]; [by apply elem_of_nil in Hp|].
  rewrite sumQ_cons.
  assert (0 <= sumQ (λ p, Qabs (a p - b p)) l) by (apply sumQ_nonneg; intros; apply Qabs_nonneg).
  pose proof (Qabs_nonneg (a x - b x)).
  apply elem_of_cons in Hp as [->|Hp]; [lra|]. specialize (IH Hp). lra.
Qed.

Lemma scale_le (z x y : Q) : 0 <= z → x <= y → z * x <= z * y.
Proof. intros Hz Hxy. nra. Qed.

(** One pass shrinks distances by the factor [|d|]. *)
Lemma recurrence_contracts (corpus : gmap string (gset string)) d a b :
  targets_are_keys corpus →
  distance corpus (recurrence corpus d a) (recurrence corpus d b)
  <= Qabs d * distance corpus (rank a) (rank b).
Proof.
  intros Hwf. unfold distance.
  rewrite (sumQ_ext _
    (λ p, Qabs d * Qabs (sumQ (λ q, transfer corpus p q * (rank a q - rank b q))
                           (Py.keys corpus)))).
  2:{ intros p _. by rewrite recurrence_difference, Qabs_Qmult. }
  rewrite sumQ_scale. apply scale_le; [apply Qabs_nonneg|].
  eapply Qle_trans.
  { apply sumQ_le. intros p _. apply sumQ_abs. }
  rewrite sumQ_swap. apply Qle_lteq. right. apply sumQ_ext. intros q Hq.
  rewrite (sumQ_ext _ (λ p, Qabs (rank a q - rank b q) * transfer corpus p q)).
  - rewrite sumQ_scale, transfer_column; [ring|done|by apply elem_of_keys].
  - intros p _. rewrite Qabs_Qmult, (Qabs_pos (transfer corpus p q)); [ring|].
    apply transfer_nonneg.
Qed.

(** ** The iterative estimator: the sequence of vectors *)

Lemma initial_ranks_ok (corpus : gmap string (gset string)) :
  ∃ out, initial_ranks corpus = Ok out
    ∧ dom out = dom corpus
    ∧ (∀ q, q ∈ dom corpus → out !! q = Some (1 / Py.of_nat (size corpus))).
Proof.
  unfold initial_ranks.
  edestruct (for_in_fill (1 / Py.of_nat (size corpus)) (Py.keys corpus))
    as (out & Hrun & Hdom & _ & Hin);
    [apply keys_NoDup| |exists out; split_and!; [exact Hrun|..]].
  - intros k o Hk. cbv beta. rewrite truediv_count; [done|].
    by apply (size_pos_of_elem corpus k), elem_of_keys.
  - rewrite Hdom, list_to_set_keys, dom_empty_L. apply set_eq. intros x.
    rewrite elem_of_union. split; [by intros [?%not_elem_of_empty|]|by right].
  - intros q Hq. by apply Hin, elem_of_keys.
Qed.

Lemma union_self (X : gset string) : X ∪ X = X.
Proof. apply set_eq. intros x. rewrite elem_of_union. tauto. Qed.

Lemma rank_vector_ok (corpus : gmap string (gset string)) d k :
  ∃ x, rank_vector k corpus d = Ok x ∧ dom x = dom corpus.
Proof.
  induction k as [|k (x & Hx & Hdom)].
  - destruct (initial_ranks_ok corpus) as (x & Hx & Hdom & _). by exists x.
  - destruct (iterate_pass_recurrence corpus d x x Hdom) as (y & Hy & Hdomy & _).
    exists y. cbn [rank_vector]. rewrite Hx, bind_Ok. split; [done|].
    by rewrite Hdomy, Hdom, union_self.
Qed.

Lemma rank_vector_dom (corpus : gmap string (gset string)) d k x :
  rank_vector k corpus d = Ok x → dom x = dom corpus.
Proof.
  intros Hx. destruct (rank_vector_ok corpus d k) as (x' & Hx' & Hdom). congruence.
Qed.

Lemma rank_vector_step (corpus : gmap string (gset string)) d k x y :
  rank_vector k corpus d = Ok x →
  rank_vector (S k) corpus d = Ok y →
  ∀ p, p ∈ dom corpus → rank y p == recurrence corpus d x p.
Proof.
  intros Hx Hy p Hp. cbn [rank_vector] in Hy. rewrite Hx, bind_Ok in Hy.
  destruct (iterate_pass_recurrence corpus d x x (rank_vector_dom _ _ _ _ Hx))
    as (y' & Hy' & _ & _ & Hval).
  assert (y' = y) as -> by congruence.
  destruct (Hval p Hp) as (v & Hv & Heq). unfold rank at 1. by rewrite Hv.
Qed.

Lemma rank_vector_ranks_after (corpus : gmap string (gset string)) d k :
  rank_vector k corpus d = Ok (ranks_after corpus d k).
Proof.
  unfold ranks_after. by destruct (rank_vector_ok corpus d k) as (x & -> & _).
Qed.

Lemma distance_ext (corpus : gmap string (gset string)) a a' b b' :
  (∀ p, p ∈ dom corpus → a p == a' p) →
  (∀ p, p ∈ dom corpus → b p == b' p) →
  distance corpus a b == distance corpus a' b'.
Proof.
  intros Ha Hb. apply sumQ_ext. intros p Hp%elem_of_keys.
  by rewrite (Ha p Hp), (Hb p Hp).
Qed.

Lemma change_shrinks (corpus : gmap string (gset string)) d k :
  targets_are_keys corpus →
  change corpus d (S k) <= Qabs d * change corpus d k.
Proof.
  intros Hwf. unfold change.
  rewrite (distance_ext corpus _ (recurrence corpus d (ranks_after corpus d (S k)))
             _ (recurrence corpus d (ranks_after corpus d k))).
  - by apply recurrence_contracts.
  - apply (rank_vector_step corpus d (S k)); apply rank_vector_ranks_after.
  - apply (rank_vector_step corpus d k); apply rank_vector_ranks_after.
Qed.

(** A non-negative sequence that shrinks by a factor below one gets below
    every positive bound. *)
Lemma geometric_decay (δ : nat → Q) (c ε : Q) :
  0 <= c → c < 1 →
  (∀ k, 0 <= δ k) →
  (∀ k, δ (S k) <= c * δ k) →
  0 < ε →
  ∃ K, δ K <= ε.
Proof.
  intros Hc0 Hc1 Hpos Hstep Hε.
  set (e := 1 - c). assert (He : 0 < e) by (unfold e; lra).
  assert (Hinv : ∀ k, δ k * (1 + Py.of_nat k * e) <= δ 0%nat).
  { induction k as [|k IH].
    - change (Py.of_nat 0) with 0. lra.
    - rewrite of_nat_S.
      assert (HK : 0 <= Py.of_nat k) by (apply (of_nat_le 0); lia).
      pose proof (Hpos k) as HA. pose proof (Hstep k) as HB.
      assert (H1 : δ (S k) * (1 + (1 + Py.of_nat k) * e)
                   <= c * δ k * (1 + (1 + Py.of_nat k) * e)).
      { apply Qmult_le_compat_r; [done|]. nra. }
      assert (H2 : c * δ k * (1 + (1 + Py.of_nat k) * e)
                   == δ k * (1 + Py.of_nat k * e)
                      - δ k * ((1 + Py.of_nat k) * (e * e))).
      { unfold e. ring. }
      assert (H3 : 0 <= δ k * ((1 + Py.of_nat k) * (e * e))).
      { apply Qmult_le_0_compat; [done|]. apply Qmult_le_0_compat; nra. }
      lra. }
  set (K := Z.to_nat (Qceiling (δ 0%nat / (e * ε)))).
  assert (Heε : 0 < e * ε) by nra.
  assert (HK : δ 0%nat <= Py.of_nat K * (e * ε)).
  { assert (Hq : 0 <= δ 0%nat / (e * ε)).
    { apply Qle_shift_div_l; [done|]. pose proof (Hpos 0%nat). lra. }
    assert (0 ≤ Qceiling (δ 0%nat / (e * ε)))%Z as Hceil.
    { change 0%Z with (Qceiling 0). by apply Qceiling_resp_le. }
    unfold K. rewrite of_nat_to_nat by done.
    pose proof (Qle_ceiling (δ 0%nat / (e * ε))) as Hup.
    apply (Qmult_le_compat_r _ _ (e * ε)) in Hup; [|lra].
    assert (Hfrac : δ 0%nat / (e * ε) * (e * ε) == δ 0%nat) by (field; lra).
    by rewrite Hfrac in Hup. }
  exists K. specialize (Hinv K).
  assert (HK0 : 0 <= Py.of_nat K) by (apply (of_nat_le 0); lia).
  destruct (Qlt_le_dec ε (δ K)) as [Hbad|]; [|done]. exfalso.
  assert (ε * (1 + Py.of_nat K * e) < δ K * (1 + Py.of_nat K * e)).
  { apply Qmult_lt_compat_r; [nra|done]. }
  nra.
Qed.

Lemma change_nonneg (corpus : gmap string (gset string)) d k : 0 <= change corpus d k.
Proof. apply distance_nonneg. Qed.

(** With [|d| < 1] some pass moves no node by more than the threshold. *)
Lemma eventually_converged (corpus : gmap string (gset string)) d :
  targets_are_keys corpus →
  Qabs d < 1 →
  ∃ K, converged (ranks_after corpus d (S K)) (ranks_after corpus d K).
Proof.
  intros Hwf Hd.
  destruct (geometric_decay (change corpus d) (Qabs d) threshold) as [K HK].
  - apply Qabs_nonneg.
  - done.
  - apply change_nonneg.
  - intros k. by apply change_shrinks.
  - done.
  - exists K. intros p Hp.
    rewrite (rank_vector_dom corpus d K _ (rank_vector_ranks_after corpus d K)) in Hp.
    eapply Qle_trans; [|exact HK].
    apply (distance_bounds corpus (rank (ranks_after corpus d (S K)))
             (rank (ranks_after corpus d K)) p Hp).
Qed.

(** ** The iterative estimator: the convergence test and the loop *)

(** The list of significant differences is empty exactly when no node
    changed by more than the threshold. *)
Lemma significant_differences_spec (new old : gmap string Q) :
  dom new = dom old →
  ∃ differences, significant_differences new old = Ok differences
    ∧ (length differences = 0%nat ↔ converged new old).
Proof.
  intros Hdom. unfold significant_differences.
  assert (Hgen : ∀ l acc, (∀ p, p ∈ l → p ∈ dom old) →
    ∃ differences,
      Py.for_in l (λ page acc,
        a ← Py.getitem new page;
        b ← Py.getitem old page;
        if Qlt_le_dec threshold (Qabs (a - b)) then Ok (acc ++ [a - b]) else Ok acc) acc
      = Ok differences
      ∧ (differences = [] ↔
         acc = [] ∧ ∀ p, p ∈ l → Qabs (rank new p - rank old p) <= threshold)).
  { induction l as [|p l IH]; intros acc Hl.
    - exists acc. split; [done|]. split; [intros ->; split; [done|]|by intros [-> _]].
      intros p Hp. by apply elem_of_nil in Hp.
    - assert (p ∈ dom old) as Hp by (apply Hl; left).
      assert (is_Some (old !! p)) as [b Hb] by (by apply elem_of_dom).
      assert (is_Some (new !! p)) as [a Ha] by (apply elem_of_dom; by rewrite Hdom).
      cbn [Py.for_in]. rewrite (getitem_Some _ _ _ Ha), bind_Ok, (getitem_Some _ _ _ Hb), bind_Ok.
      assert (Hrank : rank new p - rank old p = a - b) by (unfold rank; by rewrite Ha, Hb).
      destruct (Qlt_le_dec threshold (Qabs (a - b))) as [Hbig|Hsmall]; rewrite bind_Ok.
      + destruct (IH (acc ++ [a - b])) as (ds & -> & Hds); [intros q Hq; apply Hl; by right|].
        exists ds. split; [done|]. rewrite Hds. split.
        * intros [Hnil _]. by destruct acc.
        * intros [_ Hall]. exfalso. specialize (Hall p). rewrite Hrank in Hall.
          apply (Qlt_irrefl threshold). eapply Qlt_le_trans; [exact Hbig|]. apply Hall. left.
      + destruct (IH acc) as (ds & -> & Hds); [intros q Hq; apply Hl; by right|].
        exists ds. split; [done|]. rewrite Hds. split.
        * intros [-> Hall]. split; [done|].
          intros q [->|Hq]%elem_of_cons; [by rewrite Hrank|by apply Hall].
        * intros [-> Hall]. split; [done|]. intros q Hq. apply Hall. by right. }
  destruct (Hgen (Py.keys old) []) as (ds & Hrun & Hds).
  { intros p. by rewrite elem_of_keys. }
  exists ds. split; [done|]. rewrite length_zero_iff_nil, Hds. unfold converged. split.
  - intros [_ Hall] p Hp. by apply Hall, elem_of_keys.
  - intros Hall. split; [done|]. intros p Hp. by apply Hall, elem_of_keys.
Qed.

Lemma converged_dec (new old : gmap string Q) :
  dom new = dom old → {converged new old} + {¬ converged new old}.
Proof.
  intros Hdom.
  destruct (significant_differences new old) as [ds|e] eqn:E.
  - destruct (decide (length ds = 0%nat)) as [Hz|Hnz].
    + left. destruct (significant_differences_spec new old Hdom) as (ds' & Hrun & Hiff).
      apply Hiff. congruence.
    + right. destruct (significant_differences_spec new old Hdom) as (ds' & Hrun & Hiff).
      intros Hc. apply Hnz. apply Hiff in Hc. congruence.
  - exfalso. destruct (significant_differences_spec new old Hdom) as (ds' & Hrun & _).
    congruence.
Qed.

(** The first index at which a decidable property holds. *)
Lemma least_index (P : nat → Prop) (K : nat) :
  (∀ k, {P k} + {¬ P k}) →
  P K →
  ∃ k, P k ∧ ∀ j, (j < k)%nat → ¬ P j.
Proof.
  intros Hdec HK.
  assert (Hscan : ∀ n, (∃ k, (k < n)%nat ∧ P k ∧ ∀ j, (j < k)%nat → ¬ P j)
                       ∨ (∀ j, (j < n)%nat → ¬ P j)).
  { induction n as [|n [Hfound|Hnone]].
    - right. intros j Hj. lia.
    - left. destruct Hfound as (k & Hk & Hrest). exists k. split; [lia|done].
    - destruct (Hdec n) as [Hn|Hn].
      + left. exists n. split; [lia|]. by split.
      + right. intros j Hj. destruct (decide (j = n)) as [->|]; [done|].
        apply Hnone. lia. }
  destruct (Hscan (S K)) as [(k & _ & Hk)|Hnone]; [by exists k|].
  exfalso. apply (Hnone K); [lia|done].
Qed.

Lemma ranks_after_dom (corpus : gmap string (gset string)) d k :
  dom (ranks_after corpus d k) = dom corpus.
Proof. apply (rank_vector_dom corpus d k), rank_vector_ranks_after. Qed.

Lemma ranks_after_pass (corpus : gmap string (gset string)) d k :
  iterate_pass corpus d (size corpus) (ranks_after corpus d k) (ranks_after corpus d k)
  = Ok (ranks_after corpus d (S k)).
Proof.
  rewrite <- (rank_vector_ranks_after corpus d (S k)). cbn [rank_vector].
  by rewrite rank_vector_ranks_after.
Qed.

(** The loop entered with the vector of pass [j]: it leaves at the first
    pass after which the convergence test holds, with the vector of that
    pass, when the fuel reaches that far. *)
Lemma iterate_loop_run (corpus : gmap string (gset string)) d :
  ∀ m j fuel,
    (∀ i, (j ≤ i < j + m)%nat →
       ¬ converged (ranks_after corpus d (S i)) (ranks_after corpus d i)) →
    converged (ranks_after corpus d (S (j + m))) (ranks_after corpus d (j + m)) →
    iterate_loop fuel corpus d (size corpus) (ranks_after corpus d j)
    = if decide (m < fuel)%nat then Some (Ok (ranks_after corpus d (S (j + m)))) else None.
Proof.
  induction m as [|m IH]; intros j fuel Hnot Hconv.
  - destruct fuel as [|fuel]; [done|]. cbn [iterate_loop]. rewrite ranks_after_pass.
    destruct (significant_differences_spec (ranks_after corpus d (S j)) (ranks_after corpus d j))
      as (ds & -> & Hds); [by rewrite !ranks_after_dom|].
    rewrite Nat.add_0_r in Hconv. apply Hds in Hconv.
    destruct (decide (length ds = 0%nat)); [|done].
    destruct (decide (0 < S fuel)%nat); [|lia]. by rewrite Nat.add_0_r.
  - destruct fuel as [|fuel]; [done|]. cbn [iterate_loop]. rewrite ranks_after_pass.
    destruct (significant_differences_spec (ranks_after corpus d (S j)) (ranks_after corpus d j))
      as (ds & -> & Hds); [by rewrite !ranks_after_dom|].
    destruct (decide (length ds = 0%nat)) as [Hz|_].
    { exfalso. apply (Hnot j); [lia|]. by apply Hds. }
    rewrite (IH (S j) fuel).
    + replace (S j + m)%nat with (j + S m)%nat by lia.
      destruct (decide (m < fuel)%nat), (decide (S m < S fuel)%nat); try done; lia.
    + intros i Hi. apply Hnot. lia.
    + by replace (S j + m)%nat with (j + S m)%nat by lia.
Qed.

Lemma iterate_pagerank_loop (corpus : gmap string (gset string)) d fuel :
  iterate_pagerank fuel corpus d
  = iterate_loop fuel corpus d (size corpus) (ranks_after corpus d 0).
Proof.
  unfold iterate_pagerank.
  pose proof (rank_vector_ranks_after corpus d 0) as H0. cbn [rank_vector] in H0.
  by rewrite H0.
Qed.

(** With [|d| < 1] and all edge targets keys, the estimator leaves its loop:
    after the first pass [k + 1] that passes the convergence test, with the
    vector of that pass. *)
Lemma iterate_pagerank_converges (corpus : gmap string (gset string)) d :
  targets_are_keys corpus →
  Qabs d < 1 →
  ∃ k,
    (∀ fuel, iterate_pagerank fuel corpus d
             = if decide (k < fuel)%nat then Some (Ok (ranks_after corpus d (S k))) else None)
    ∧ converged (ranks_after corpus d (S k)) (ranks_after corpus d k)
    ∧ ∀ j, (j < k)%nat → ¬ converged (ranks_after corpus d (S j)) (ranks_after corpus d j).
Proof.
  intros Hwf Hd.
  destruct (eventually_converged corpus d Hwf Hd) as [K HK].
  destruct (least_index
              (λ k, converged (ranks_after corpus d (S k)) (ranks_after corpus d k)) K)
    as (k & Hk & Hleast); [|done|].
  { intros k. apply converged_dec. by rewrite !ranks_after_dom. }
  exists k. split_and!; [|done..].
  intros fuel. rewrite iterate_pagerank_loop.
  apply (iterate_loop_run corpus d k 0 fuel).
  - intros i Hi. apply Hleast. lia.
  - done.
Qed.

(** The loop never raises: it runs out of fuel or returns a vector. *)
Lemma iterate_loop_no_failure (corpus : gmap string (gset string)) d fuel :
  ∀ j, iterate_loop fuel corpus d (size corpus) (ranks_after corpus d j) = None
       ∨ ∃ k, iterate_loop fuel corpus d (size corpus) (ranks_after corpus d j)
              = Some (Ok (ranks_after corpus d k)).
Proof.
  induction fuel as [|fuel IH]; intros j; [by left|].
  cbn [iterate_loop]. rewrite ranks_after_pass.
  destruct (significant_differences_spec (ranks_after corpus d (S j)) (ranks_after corpus d j))
    as (ds & -> & _); [by rewrite !ranks_after_dom|].
  destruct (decide (length ds = 0%nat)); [right; by exists (S j)|apply IH].
Qed.

Lemma iterate_pagerank_no_failure (corpus : gmap string (gset string)) d fuel e :
  iterate_pagerank fuel corpus d ≠ Some (Raise e).
Proof.
  rewrite iterate_pagerank_loop.
  by destruct (iterate_loop_no_failure corpus d fuel 0) as [->|[k ->]].
Qed.

(** ** Degenerate calls *)

Lemma keys_empty {V} : Py.keys (∅ : gmap string V) = [].
Proof. unfold Py.keys. by rewrite map_to_list_empty. Qed.

Lemma range_lt_1 (n : Z) : (n < 1)%Z → Py.range n = [].
Proof. intros Hn. unfold Py.range. by replace (Z.to_nat n) with 0%nat by lia. Qed.

Lemma range_ge_1 (n : Z) : (1 ≤ n)%Z → ∃ rest, Py.range n = 0%nat :: rest.
Proof.
  intros Hn. unfold Py.range. destruct (Z.to_nat n) as [|m] eqn:E; [lia|].
  by exists (seq 1 m).
Qed.

(** With [n < 1] no turn of the sampling loop runs. *)
Lemma sample_pagerank_no_turn (corpus : gmap string (gset string)) d (n : Z) rng :
  (n < 1)%Z →
  ∃ out, sample_pagerank corpus d n rng = Ok out
    ∧ dom out = dom corpus
    ∧ (∀ q, q ∈ dom corpus → out !! q = Some 0).
Proof.
  intros Hn. unfold sample_pagerank.
  destruct (zero_loop corpus) as (out0 & -> & Hdom0 & Hzero).
  rewrite bind_Ok, (range_lt_1 n Hn). by exists out0.
Qed.

Lemma sample_pagerank_empty d (n : Z) rng :
  (1 ≤ n)%Z → sample_pagerank ∅ d n rng = Raise IndexError.
Proof.
  intros Hn. unfold sample_pagerank. destruct (range_ge_1 n Hn) as [rest ->].
  by rewrite keys_empty.
Qed.


(** With [n = 1] the only turn samples a page with [random.choice]; the
    transition model is not computed. *)
Lemma sample_pagerank_one_turn (corpus : gmap string (gset string)) d rng :
  corpus ≠ ∅ →
  unit_draws rng →
  ∃ s out,
    sample_pagerank corpus d 1 rng = Ok out
    ∧ samples corpus d 1 rng = Ok [s]
    ∧ dom out = dom corpus
    ∧ s ∈ dom corpus
    ∧ rank out s == 1
    ∧ ∀ p, p ≠ s → rank out p == 0.
Proof.
  intros Hne Hrng. unfold sample_pagerank, samples.
  destruct (zero_loop corpus) as (out0 & -> & Hdom0 & Hzero). rewrite bind_Ok.
  change (Py.range 1) with [0%nat]. cbn [Py.for_in walk sample_turn].
  assert (∃ s, next_sample corpus d rng 0 None = Ok s ∧ s ∈ dom corpus) as (s & Hs & Hsd).
  { unfold next_sample. destruct (decide (0 = 0)%nat); [|done].
    destruct (choice_ok (rng 0%nat) (Py.keys corpus)) as (x & Hx & Hin);
      [by apply nonempty_keys|apply Hrng..|].
    exists x. split; [done|]. by apply elem_of_keys. }
  rewrite Hs, !bind_Ok, (getitem_Some _ _ _ (Hzero s Hsd)), bind_Ok.
  rewrite (weight_ok 1) by lia. rewrite !bind_Ok. cbn [snd].
  exists s, (<[s := 0 + 1 / inject_Z 1]> out0). split_and!; try done.
  - rewrite dom_insert_L, Hdom0. apply set_eq. intros x.
    rewrite elem_of_union, elem_of_singleton. split; [by intros [->|]|by right].
  - unfold rank. rewrite lookup_insert_eq. by vm_compute.
  - intros p Hp. unfold rank. rewrite lookup_insert_ne by done.
    destruct (out0 !! p) as [v|] eqn:Hv; [|reflexivity].
    rewrite Hzero in Hv; [by injection Hv as <-|].
    rewrite <- Hdom0. apply elem_of_dom. by eexists.
Qed.

(** ** The binary64 program: one pass and the loop *)

Lemma b64_truediv_count (x : float) (n : nat) :
  (0 < n)%nat → B64.truediv x (Z.of_nat n) = Ok (x / B64.of_Z (Z.of_nat n))%float.
Proof. intros Hn. unfold B64.truediv. destruct (decide (Z.of_nat n = 0)%Z); [lia|done]. Qed.

Lemma b64_initial_ranks_ok (corpus : gmap string (gset string)) :
  ∃ out, B64.initial_ranks corpus = Ok out ∧ dom out = dom corpus.
Proof.
  unfold B64.initial_ranks.
  edestruct (for_in_fill (1 / B64.of_Z (Z.of_nat (size corpus)))%float (Py.keys corpus))
    as (out & Hrun & Hdom & _ & _);
    [apply keys_NoDup| |exists out; split; [exact Hrun|]].
  - intros k o Hk. cbv beta. rewrite b64_truediv_count; [done|].
    by apply (size_pos_of_elem corpus k), elem_of_keys.
  - rewrite Hdom, list_to_set_keys, dom_empty_L. apply set_eq. intros x.
    rewrite elem_of_union. split; [by intros [?%not_elem_of_empty|]|by right].
Qed.

(** The inner loop of a pass raises no exception. *)
Lemma b64_visit_loop (corpus : gmap string (gset string)) (prev : gmap string float) p :
  dom prev = dom corpus →
  ∀ l acc, (∀ q, q ∈ l → q ∈ dom corpus) →
    ∃ v, Py.for_in l (B64.visit_from corpus (size corpus) prev p) acc = Ok v.
Proof.
  intros Hdom. induction l as [|q l IH]; intros acc Hl; [by exists acc|].
  assert (q ∈ dom corpus) as Hq by (apply Hl; left).
  apply elem_of_dom in Hq as Hlook. destruct Hlook as [linked Hlinked].
  assert (is_Some (prev !! q)) as [r Hr] by (apply elem_of_dom; by rewrite Hdom).
  assert (∃ acc', B64.visit_from corpus (size corpus) prev p q acc = Ok acc') as [acc' Hstep].
  { unfold B64.visit_from. rewrite (getitem_Some _ _ _ Hlinked), bind_Ok.
    destruct (Py.is_empty_set linked) eqn:E; simpl negb; cbv iota.
    - rewrite (getitem_Some _ _ _ Hr), bind_Ok, b64_truediv_count
        by (by apply (size_pos_of_elem corpus q)).
      by eexists.
    - apply is_empty_set_false in E. destruct (decide (p ∈ linked)); [|by eexists].
      rewrite (getitem_Some _ _ _ Hr), bind_Ok, b64_truediv_count by done.
      by eexists. }
  destruct (IH acc') as [v Hv]; [intros q' Hq'; apply Hl; by right|].
  exists v. cbn [Py.for_in]. by rewrite Hstep, bind_Ok.
Qed.

(** A pass over a vector of the graph's nodes gives such a vector. *)
Lemma b64_iterate_pass_ok (corpus : gmap string (gset string)) (d : float)
    (prev : gmap string float) :
  dom prev = dom corpus →
  ∃ new, B64.iterate_pass corpus d (size corpus) prev prev = Ok new
    ∧ dom new = dom corpus.
Proof.
  intros Hdom. unfold B64.iterate_pass.
  destruct (for_in_store (λ _ _, True) (Py.keys prev)
              (λ current_page output,
                 prob ← Py.for_in (Py.keys corpus)
                          (B64.visit_from corpus (size corpus) prev current_page) 0%float;
                 b ← B64.truediv (1 - d)%float (Z.of_nat (size corpus));
                 Ok (<[current_page := (b + d * prob)%float]> output)) prev)
    as (new & Hrun & Hrest & Hin); [apply keys_NoDup| |].
  { intros p o Hp _. apply elem_of_keys in Hp. rewrite Hdom in Hp.
    destruct (b64_visit_loop corpus prev p Hdom (Py.keys corpus) 0%float) as (v & ->).
    { intros q. by rewrite elem_of_keys. }
    rewrite bind_Ok, b64_truediv_count by (by apply (size_pos_of_elem corpus p)).
    rewrite bind_Ok. by eexists. }
  exists new. split; [done|].
  apply (for_in_store_dom (Py.keys prev) prev); [done|..].
  - intros k Hk. destruct (Hin k Hk) as (v & -> & _). by eexists.
  - by rewrite list_to_set_keys, union_self.
Qed.

Lemma b64_rank_vector_ok (corpus : gmap string (gset string)) (d : float) k :
  ∃ x, B64.rank_vector k corpus d = Ok x ∧ dom x = dom corpus.
Proof.
  induction k as [|k (x & Hx & Hdom)]; [apply b64_initial_ranks_ok|].
  destruct (b64_iterate_pass_ok corpus d x Hdom) as (y & Hy & Hdomy).
  exists y. cbn [B64.rank_vector]. by rewrite Hx, bind_Ok.
Qed.

Lemma b64_rank_vector_ranks_after (corpus : gmap string (gset string)) (d : float) k :
  B64.rank_vector k corpus d = Ok (B64.ranks_after corpus d k).
Proof.
  unfold B64.ranks_after. by destruct (b64_rank_vector_ok corpus d k) as (x & -> & _).
Qed.

Lemma b64_ranks_after_dom (corpus : gmap string (gset string)) (d : float) k :
  dom (B64.ranks_after corpus d k) = dom corpus.
Proof.
  destruct (b64_rank_vector_ok corpus d k) as (x & Hx & Hdom).
  rewrite b64_rank_vector_ranks_after in Hx. by injection Hx as ->.
Qed.

Lemma b64_ranks_after_pass (corpus : gmap string (gset string)) (d : float) k :
  B64.iterate_pass corpus d (size corpus) (B64.ranks_after corpus d k)
    (B64.ranks_after corpus d k)
  = Ok (B64.ranks_after corpus d (S k)).
Proof.
  rewrite <- (b64_rank_vector_ranks_after corpus d (S k)). cbn [B64.rank_vector].
  by rewrite b64_rank_vector_ranks_after.
Qed.

(** The list of significant differences is empty exactly when the test
    [abs(new - old) > 0.001] fails at every node. *)
Lemma b64_significant_differences_spec (new old : gmap string float) :
  dom new = dom old →
  ∃ differences, B64.significant_differences new old = Ok differences
    ∧ (length differences = 0%nat ↔ B64.converged new old).
Proof.
  intros Hdom. unfold B64.significant_differences.
  assert (Hgen : ∀ l acc, (∀ p, p ∈ l → p ∈ dom old) →
    ∃ differences,
      Py.for_in l (λ page acc,
        a ← Py.getitem new page;
        b ← Py.getitem old page;
        if B64.significant a b then Ok (acc ++ [(a - b)%float]) else Ok acc) acc
      = Ok differences
      ∧ (differences = [] ↔
         acc = [] ∧ ∀ p a b, p ∈ l → new !! p = Some a → old !! p = Some b →
                     B64.significant a b = false)).
  { induction l as [|p l IH]; intros acc Hl.
    - exists acc. split; [done|]. split; [intros ->; split; [done|]|by intros [-> _]].
      intros p a b Hp. by apply elem_of_nil in Hp.
    - assert (p ∈ dom old) as Hp by (apply Hl; left).
      assert (is_Some (old !! p)) as [b Hb] by (by apply elem_of_dom).
      assert (is_Some (new !! p)) as [a Ha] by (apply elem_of_dom; by rewrite Hdom).
      cbn [Py.for_in]. rewrite (getitem_Some _ _ _ Ha), bind_Ok, (getitem_Some _ _ _ Hb), bind_Ok.
      destruct (B64.significant a b) eqn:Hsig; rewrite bind_Ok.
      + destruct (IH (acc ++ [(a - b)%float])) as (ds & -> & Hds);
          [intros q Hq; apply Hl; by right|].
        exists ds. split; [done|]. rewrite Hds. split.
        * intros [Hnil _]. by destruct acc.
        * intros [_ Hall]. rewrite (Hall p a b) in Hsig; [done|by left|done..].
      + destruct (IH acc) as (ds & -> & Hds); [intros q Hq; apply Hl; by right|].
        exists ds. split; [done|]. rewrite Hds. split.
        * intros [-> Hall]. split; [done|].
          intros q a' b' [->|Hq]%elem_of_cons Ha' Hb'; [congruence|by apply (Hall q)].
        * intros [-> Hall]. split; [done|]. intros q a' b' Hq. apply Hall. by right. }
  destruct (Hgen (Py.keys old) []) as (ds & Hrun & Hds).
  { intros p. by rewrite elem_of_keys. }
  exists ds. split; [done|]. rewrite length_zero_iff_nil, Hds. unfold B64.converged. split.
  - intros [_ Hall] p a b Ha Hb. apply (Hall p); [|done..].
    apply elem_of_keys, elem_of_dom. by eexists.
  - intros Hall. split; [done|]. intros p a b _. apply Hall.
Qed.

Lemma b64_converged_dec (new old : gmap string float) :
  dom new = dom old → {B64.converged new old} + {¬ B64.converged new old}.
Proof.
  intros Hdom.
  destruct (B64.significant_differences new old) as [ds|e] eqn:E.
  - destruct (decide (length ds = 0%nat)) as [Hz|Hnz].
    + left. destruct (b64_significant_differences_spec new old Hdom) as (ds' & Hrun & Hiff).
      apply Hiff. congruence.
    + right. destruct (b64_significant_differences_spec new old Hdom) as (ds' & Hrun & Hiff).
      intros Hc. apply Hnz. apply Hiff in Hc. congruence.
  - exfalso. destruct (b64_significant_differences_spec new old Hdom) as (ds' & Hrun & _).
    congruence.
Qed.

(** One turn of the loop, entered with the vector of pass [j]. *)
Lemma b64_iterate_loop_turn (corpus : gmap string (gset string)) (d : float) fuel j :
  B64.iterate_loop (S fuel) corpus d (size corpus) (B64.ranks_after corpus d j)
  = if b64_converged_dec (B64.ranks_after corpus d (S j)) (B64.ranks_after corpus d j)
         (eq_trans (b64_ranks_after_dom corpus d (S j))
                   (eq_sym (b64_ranks_after_dom corpus d j)))
    then Some (Ok (B64.ranks_after corpus d (S j)))
    else B64.iterate_loop fuel corpus d (size corpus) (B64.ranks_after corpus d (S j)).
Proof.
  cbn [B64.iterate_loop]. rewrite b64_ranks_after_pass.
  destruct (b64_significant_differences_spec
              (B64.ranks_after corpus d (S j)) (B64.ranks_after corpus d j))
    as (ds & -> & Hds); [by rewrite !b64_ranks_after_dom|].
  destruct (b64_converged_dec _ _ _) as [Hc|Hc], (decide (length ds = 0%nat)) as [Hz|Hz];
    try done.
  - by apply Hds in Hc.
  - by apply Hds in Hz.
Qed.



Lemma b64_iterate_loop_no_failure (corpus : gmap string (gset string)) (d : float) fuel :
  ∀ j e, B64.iterate_loop fuel corpus d (size corpus) (B64.ranks_after corpus d j)
         ≠ Some (Raise e).
Proof.
  induction fuel as [|fuel IH]; intros j e; [done|].
  rewrite b64_iterate_loop_turn. destruct (b64_converged_dec _ _ _); [done|apply IH].
Qed.

Lemma b64_iterate_pagerank_loop (corpus : gmap string (gset string)) (d : float) fuel :
  B64.iterate_pagerank fuel corpus d
  = B64.iterate_loop fuel corpus d (size corpus) (B64.ranks_after corpus d 0).
Proof.
  unfold B64.iterate_pagerank.
  pose proof (b64_rank_vector_ranks_after corpus d 0) as H0. cbn [B64.rank_vector] in H0.
  by rewrite H0.
Qed.

(** *** A cycle of period three *)





(** ** The binary64 program: the sampling loop *)

Lemma added_S (w : float) (c : nat) (x : float) :
  B64.added w (S c) x = B64.added w c (x + w)%float.
Proof. unfold B64.added. by rewrite Nat.iter_succ_r. Qed.

Lemma added_plus (w : float) (a b : nat) (x : float) :
  B64.added w (a + b) x = B64.added w a (B64.added w b x).
Proof. unfold B64.added. by rewrite Nat.iter_add. Qed.

(** The blocks of 64 additions add the weight [64 * p] times. *)
Lemma add_blocks_added (w : float) (p : positive) :
  ∀ x, B64.add_blocks w p x = B64.added w (Pos.to_nat (64 * p)) x.
Proof.
  induction p as [p IH|p IH|]; intros x; cbn [B64.add_blocks].
  - set (y := B64.add_blocks w p x).
    replace (if (y <? 0)%float then B64.add_blocks w p y else B64.add_blocks w p y)
      with (B64.add_blocks w p y) by (by destruct (y <? 0)%float).
    set (z := B64.add_blocks w p y).
    replace (if (z <? 0)%float then B64.add64 w z else B64.add64 w z)
      with (B64.add64 w z) by (by destruct (z <? 0)%float).
    subst z y. rewrite !IH.
    change (B64.add64 w ?u) with (B64.added w 64 u).
    rewrite <- !added_plus. f_equal.
    rewrite !Pos2Nat.inj_mul, Pos2Nat.inj_xI. change (Pos.to_nat 64) with 64%nat. lia.
  - set (y := B64.add_blocks w p x).
    replace (if (y <? 0)%float then B64.add_blocks w p y else B64.add_blocks w p y)
      with (B64.add_blocks w p y) by (by destruct (y <? 0)%float).
    subst y. rewrite !IH, <- added_plus. f_equal.
    rewrite !Pos2Nat.inj_mul, Pos2Nat.inj_xO. change (Pos.to_nat 64) with 64%nat. lia.
  - reflexivity.
Qed.

(** On the single-node graph every turn samples [A] and adds [1 / n]. *)
Lemma b64_single_node_turn (d : float) (n : Z) (randbelow : nat) (rng : nat → float)
    (i : nat) (sample : option string) (x : float) :
  n ≠ 0%Z →
  i = 0%nat ∨ sample = Some "A" →
  B64.sample_turn corpus_single d n randbelow rng i (sample, {[ "A" := x ]})
  = Ok (Some "A", {[ "A" := (x + 1 / B64.of_Z n)%float ]}).
Proof.
  intros Hn Hstate.
  assert (Hs : B64.next_sample corpus_single d randbelow rng i sample = Ok "A").
  { unfold B64.next_sample. destruct (decide (i = 0%nat)) as [->|Hi].
    - unfold B64.choice. change (Py.keys corpus_single) with ["A"].
      cbn [length]. destruct (decide (1 = 0)%nat); [done|]. by rewrite Nat.mod_1_r.
    - destruct Hstate as [Hz | ->]; [done|]. by vm_compute. }
  cbn [B64.sample_turn]. rewrite Hs, bind_Ok.
  unfold Py.getitem. rewrite lookup_singleton_eq, bind_Ok.
  unfold B64.truediv. destruct (decide (n = 0%Z)); [done|].
  by rewrite bind_Ok, insert_singleton_eq.
Qed.

Lemma b64_single_node_loop (d : float) (n : Z) (randbelow : nat) (rng : nat → float) :
  n ≠ 0%Z →
  ∀ turns sample x,
    match turns with
    | [] => True
    | i :: _ => i = 0%nat ∨ sample = Some "A"
    end →
    ∃ sample',
      Py.for_in turns (B64.sample_turn corpus_single d n randbelow rng)
        (sample, {[ "A" := x ]})
      = Ok (sample', {[ "A" := B64.added (1 / B64.of_Z n)%float (length turns) x ]}).
Proof.
  intros Hn. induction turns as [|i turns IH]; intros sample x Hstate; [by exists sample|].
  cbn [Py.for_in]. rewrite (b64_single_node_turn d n randbelow rng i sample x Hn Hstate).
  rewrite bind_Ok.
  destruct (IH (Some "A") (x + 1 / B64.of_Z n)%float) as [sample' ->].
  { destruct turns; [done|by right]. }
  exists sample'. cbn [length]. by rewrite added_S.
Qed.

Lemma b64_single_node_sample (d : float) (p : positive) (randbelow : nat)
    (rng : nat → float) :
  B64.sample_pagerank corpus_single d (Z.pos p) randbelow rng
  = Ok {[ "A" := B64.added (1 / B64.of_Z (Z.pos p))%float (Pos.to_nat p) 0%float ]}.
Proof.
  unfold B64.sample_pagerank.
  change (Py.for_in (Py.keys corpus_single) _ ∅)
    with (Ok ({[ "A" := 0%float ]} : gmap string float)).
  rewrite bind_Ok.
  destruct (b64_single_node_loop d (Z.pos p) randbelow rng) with
    (turns := Py.range (Z.pos p)) (sample := @None string) (x := 0%float) as [sample' ->];
    [done| |].
  { unfold Py.range. destruct (Z.to_nat (Z.pos p)); [done|by left]. }
  rewrite bind_Ok. cbn [snd]. unfold Py.range. by rewrite length_seq, Z2Nat.inj_pos.
Qed.

(** The sampling loop in binary64: when it returns, every sampled page is a
    key, and the entry of a page is its entry before the loop with [1 / n]
    added once for every turn that sampled the page. *)
Lemma b64_sample_loop (corpus : gmap string (gset string)) (d : float) (n : Z)
    (randbelow : nat) (rng : nat → float) :
  ∀ turns sample output sample' output',
    Py.for_in turns (B64.sample_turn corpus d n randbelow rng) (sample, output)
    = Ok (sample', output') →
    ∃ sampled,
      length sampled = length turns
      ∧ Forall (λ s, s ∈ dom output) sampled
      ∧ dom output' = dom output
      ∧ ∀ p x, output !! p = Some x →
          output' !! p = Some (B64.added (1 / B64.of_Z n)%float (visits p sampled) x).
Proof.
  induction turns as [|i turns IH]; intros sample output sample' output' Hrun.
  - injection Hrun as <- <-. exists []. split_and!; try done.
  - cbn [Py.for_in B64.sample_turn] in Hrun.
    destruct (B64.next_sample corpus d randbelow rng i sample) as [s|] eqn:Hs; [|done].
    rewrite bind_Ok in Hrun. unfold Py.getitem in Hrun.
    destruct (output !! s) as [old|] eqn:Hold; [|done].
    rewrite bind_Ok in Hrun. unfold B64.truediv in Hrun.
    destruct (decide (n = 0)%Z); [done|]. rewrite !bind_Ok in Hrun.
    destruct (IH _ _ _ _ Hrun) as (later & Hlen & Hall & Hdom & Hval).
    assert (Hdom1 : dom (<[s := (old + 1 / B64.of_Z n)%float]> output) = dom output).
    { rewrite dom_insert_L. apply set_eq. intros k.
      rewrite elem_of_union, elem_of_singleton. split; [|by right].
      intros [->|]; [|done]. apply elem_of_dom. by eexists. }
    exists (s :: later). split_and!.
    + simpl. by rewrite Hlen.
    + constructor; [apply elem_of_dom; by eexists|]. by rewrite <- Hdom1.
    + by rewrite Hdom.
    + intros p x Hp. rewrite visits_cons. destruct (decide (s = p)) as [->|Hsp].
      * rewrite added_S. apply Hval. rewrite lookup_insert_eq. congruence.
      * apply Hval. by rewrite lookup_insert_ne.
Qed.

Lemma b64_zero_loop (corpus : gmap string (gset string)) :
  ∃ out : gmap string float,
    Py.for_in (Py.keys corpus) (λ web_page output, Ok (<[web_page := 0%float]> output)) ∅
    = Ok out
    ∧ dom out = dom corpus
    ∧ (∀ q, q ∈ dom corpus → out !! q = Some 0%float).
Proof.
  edestruct (for_in_fill 0%float (Py.keys corpus)) as (out & Hrun & Hdom & _ & Hin);
    [apply keys_NoDup| |exists out; split_and!; [exact Hrun|..]].
  - done.
  - rewrite Hdom, list_to_set_keys, dom_empty_L. apply set_eq. intros x.
    rewrite elem_of_union. split; [by intros [?%not_elem_of_empty|]|by right].
  - intros q Hq. by apply Hin, elem_of_keys.
Qed.

(** What [sample_pagerank] returns in binary64, when it returns. *)
Lemma b64_sample_pagerank_counts (corpus : gmap string (gset string)) (d : float) (n : Z)
    (randbelow : nat) (rng : nat → float) (out : gmap string float) :
  B64.sample_pagerank corpus d n randbelow rng = Ok out →
  ∃ sampled,
    length sampled = Z.to_nat n
    ∧ Forall (λ s, s ∈ dom corpus) sampled
    ∧ dom out = dom corpus
    ∧ (∀ p, p ∈ dom corpus →
         out !! p = Some (B64.added (1 / B64.of_Z n)%float (visits p sampled) 0%float))
    ∧ sum_list_with (λ p, visits p sampled) (Py.keys corpus) = Z.to_nat n.
Proof.
  unfold B64.sample_pagerank. destruct (b64_zero_loop corpus) as (out0 & -> & Hdom0 & Hzero).
  rewrite bind_Ok.
  destruct (Py.for_in (Py.range n) _ (None, out0)) as [[sample' out']|] eqn:Hrun; [|done].
  rewrite bind_Ok. cbn [snd]. intros Hout. injection Hout as <-.
  destruct (b64_sample_loop corpus d n randbelow rng _ _ _ _ _ Hrun)
    as (sampled & Hlen & Hall & Hdom & Hval).
  rewrite Hdom0 in Hall, Hdom. unfold Py.range in Hlen. rewrite length_seq in Hlen.
  exists sampled. split_and!; try done.
  - intros p Hp. apply Hval. by apply Hzero.
  - rewrite sum_list_with_visits; [done|apply keys_NoDup|].
    eapply Forall_impl; [exact Hall|]. intros s Hs. by apply elem_of_keys.
Qed.

(** A hundred million additions of the binary64 number nearest to [1e-8]. *)
Lemma hundred_million_additions :
  B64.added (1 / B64.of_Z 100000000)%float (Pos.to_nat 100000000) 0%float
  = 0x1.00000009d5bc5p+0%float.
Proof.
  change (Pos.to_nat 100000000) with (Pos.to_nat (64 * 1562500)).
  rewrite <- (add_blocks_added (1 / B64.of_Z 100000000)%float 1562500 0%float).
  vm_compute. reflexivity.
Qed.

(** ** Main theorems *)


Lemma corpus_pair_targets : targets_are_keys corpus_pair.
Proof. apply (bool_decide_unpack _). by vm_compute. Qed.

Lemma corpus_dangling_targets : targets_are_keys corpus_dangling.
Proof. apply (bool_decide_unpack _). by vm_compute. Qed.


Lemma corpus_foreign_targets : ¬ targets_are_keys corpus_foreign.
Proof. apply (bool_decide_eq_false_1 _). by vm_compute. Qed.

(** C1.  One pass of [iterate_pagerank] over a graph whose edge targets are
    keys, with [d] in [0,1]: the new rank of every node [p] is
    [(1 - d) / N] plus [d] times the sum, over all nodes [q], of
    [prev(q) / N] when [q] has no outbound link, of [prev(q) / outdegree(q)]
    when [q] links to [p], and of nothing otherwise; all ranks are read from
    the snapshot [prev], whatever the dictionary [output] that the pass
    overwrites holds (in the loop it starts as a copy of [prev]). *)
Theorem iterate_pass_applies_recurrence (corpus : gmap string (gset string)) (d : Q)
    (prev output : gmap string Q) (p : string) :
  targets_are_keys corpus →
  0 <= d → d <= 1 →
  dom prev = dom corpus →
  dom output = dom corpus →
  p ∈ dom corpus →
  ∃ new v,
    iterate_pass corpus d (size corpus) prev output = Ok new
    ∧ dom new = dom corpus
    ∧ new !! p = Some v
    ∧ v == (1 - d) / Py.of_nat (size corpus)
           + d * sumQ (λ q,
                   if decide (outdegree corpus q = 0)%nat
                   then rank prev q / Py.of_nat (size corpus)
                   else if decide (p ∈ links corpus q)
                        then rank prev q / Py.of_nat (outdegree corpus q)
                        else 0) (Py.keys corpus).
Proof.
  intros _ _ _ Hprev Hout Hp.
  destruct (iterate_pass_recurrence corpus d prev output Hprev)
    as (new & Hrun & Hdom & _ & Hval).
  destruct (Hval p Hp) as (v & Hv & Heq).
  exists new, v. split_and!; [done| |done|exact Heq].
  by rewrite Hdom, Hout, union_self.
Qed.

Lemma iterate_pass_applies_recurrence_witness :
  ∃ new v,
    iterate_pass corpus_dangling (1 # 2) (size corpus_dangling)
      {[ "A" := 1 # 2; "B" := 1 # 2 ]} {[ "A" := 1 # 2; "B" := 1 # 2 ]} = Ok new
    ∧ dom new = dom corpus_dangling
    ∧ new !! "A" = Some v
    ∧ v == (1 - (1 # 2)) / Py.of_nat (size corpus_dangling)
           + (1 # 2) * sumQ (λ q,
                   if decide (outdegree corpus_dangling q = 0)%nat
                   then rank {[ "A" := 1 # 2; "B" := 1 # 2 ]} q
                        / Py.of_nat (size corpus_dangling)
                   else if decide ("A" ∈ links corpus_dangling q)
                        then rank {[ "A" := 1 # 2; "B" := 1 # 2 ]} q
                             / Py.of_nat (outdegree corpus_dangling q)
                        else 0) (Py.keys corpus_dangling).
Proof.
  apply (iterate_pass_applies_recurrence corpus_dangling (1 # 2)
           {[ "A" := 1 # 2; "B" := 1 # 2 ]} {[ "A" := 1 # 2; "B" := 1 # 2 ]} "A").
  - apply (bool_decide_unpack _). by vm_compute.
  - by vm_compute.
  - by vm_compute.
  - by vm_compute.
  - by vm_compute.
  - apply (bool_decide_unpack _). by vm_compute.
Defined.

(** C2, as amended.  On a non-empty graph, with [d] in [0,1], for a page
    that is a key and has at least one outbound link, all of its links being
    keys of the graph: [transition_model] returns a distribution over the
    nodes of the graph in which each node linked from the page has exactly
    the baseline [(1 - d) / N] plus [d / k], [k] the out-degree of the page,
    and every other node exactly the baseline. *)
Theorem transition_model_linked_page (corpus : gmap string (gset string)) (d : Q)
    (page : string) (linked : gset string) :
  corpus ≠ ∅ →
  0 <= d → d <= 1 →
  corpus !! page = Some linked →
  (0 < size linked)%nat →
  linked ⊆ dom corpus →
  ∃ out,
    transition_model corpus page d = Ok out
    ∧ dom out = dom corpus
    ∧ (∀ q, q ∈ linked →
         out !! q = Some ((1 - d) / Py.of_nat (size corpus) + d / Py.of_nat (size linked)))
    ∧ (∀ q, q ∈ dom corpus → q ∉ linked →
         out !! q = Some ((1 - d) / Py.of_nat (size corpus))).
Proof.
  intros _ _ _ Hpage Hk Hsub.
  apply (transition_model_linked corpus page d linked Hpage); [|done].
  intros ->. rewrite size_empty in Hk. lia.
Qed.

Lemma transition_model_linked_page_witness :
  ∃ out,
    transition_model corpus_pair "A" (1 # 2) = Ok out
    ∧ dom out = dom corpus_pair
    ∧ (∀ q, q ∈ ({[ "B" ]} : gset string) →
         out !! q = Some ((1 - (1 # 2)) / Py.of_nat (size corpus_pair)
                          + (1 # 2) / Py.of_nat (size ({[ "B" ]} : gset string))))
    ∧ (∀ q, q ∈ dom corpus_pair → q ∉ ({[ "B" ]} : gset string) →
         out !! q = Some ((1 - (1 # 2)) / Py.of_nat (size corpus_pair))).
Proof.
  apply (transition_model_linked_page corpus_pair (1 # 2) "A" {[ "B" ]}).
  - apply (bool_decide_unpack _). by vm_compute.
  - by vm_compute.
  - by vm_compute.
  - by vm_compute.
  - vm_compute. lia.
  - apply (bool_decide_unpack _). by vm_compute.
Defined.

(** C2 as stated fails: on the non-empty graph [{A: {B}}], whose only edge
    leads to a node that is no key, the page [A] is a key with one outbound
    link and [transition_model] raises [KeyError] instead of returning a
    distribution. *)
Lemma transition_model_linked_page_counterexample :
  corpus_foreign ≠ ∅
  ∧ 0 <= 1 # 2 ∧ 1 # 2 <= 1
  ∧ corpus_foreign !! "A" = Some {[ "B" ]}
  ∧ (0 < size ({[ "B" ]} : gset string))%nat
  ∧ transition_model corpus_foreign "A" (1 # 2) = Raise KeyError
  ∧ ¬ ∃ out, transition_model corpus_foreign "A" (1 # 2) = Ok out.
Proof.
  assert (Hrun : transition_model corpus_foreign "A" (1 # 2) = Raise KeyError)
    by (by vm_compute).
  split_and!.
  - apply (bool_decide_unpack _). by vm_compute.
  - by vm_compute.
  - by vm_compute.
  - by vm_compute.
  - vm_compute. lia.
  - done.
  - intros [out Hout]. congruence.
Qed.

(** C3.  On a non-empty graph, with [d] in [0,1], for a page that is a key
    with no outbound link: [transition_model] returns the uniform
    distribution, every node of the graph at exactly [1 / N]. *)
Theorem transition_model_dangling_page (corpus : gmap string (gset string)) (d : Q)
    (page : string) :
  corpus ≠ ∅ →
  0 <= d → d <= 1 →
  corpus !! page = Some ∅ →
  ∃ out,
    transition_model corpus page d = Ok out
    ∧ dom out = dom corpus
    ∧ (∀ q, q ∈ dom corpus → out !! q = Some (1 / Py.of_nat (size corpus))).
Proof. intros _ _ _ Hpage. by apply transition_model_dangling. Qed.

Lemma transition_model_dangling_page_witness :
  ∃ out,
    transition_model corpus_dangling "A" (1 # 2) = Ok out
    ∧ dom out = dom corpus_dangling
    ∧ (∀ q, q ∈ dom corpus_dangling →
         out !! q = Some (1 / Py.of_nat (size corpus_dangling))).
Proof.
  apply (transition_model_dangling_page corpus_dangling (1 # 2) "A").
  - apply (bool_decide_unpack _). by vm_compute.
  - by vm_compute.
  - by vm_compute.
  - by vm_compute.
Defined.



(** C5, as amended.  On a non-empty graph, with [d] in [0,1], for a page
    that is a key and whose links are all keys of the graph:
    [transition_model] returns a distribution with exactly one entry per node
    of the graph, and its values add up to one. *)
Theorem transition_model_sums_to_one (corpus : gmap string (gset string)) (d : Q)
    (page : string) (linked : gset string) :
  corpus ≠ ∅ →
  0 <= d → d <= 1 →
  corpus !! page = Some linked →
  linked ⊆ dom corpus →
  ∃ out,
    transition_model corpus page d = Ok out
    ∧ dom out = dom corpus
    ∧ size out = size corpus
    ∧ Py.sum_values out == 1.
Proof.
  intros _ _ _ Hpage Hsub.
  destruct (transition_model_total corpus page d linked Hpage Hsub)
    as (out & Hrun & Hdom & Hsum).
  exists out. split_and!; try done.
  by rewrite <- !size_dom, Hdom.
Qed.

Lemma transition_model_sums_to_one_witness :
  ∃ out,
    transition_model corpus_pair "B" (17 # 20) = Ok out
    ∧ dom out = dom corpus_pair
    ∧ size out = size corpus_pair
    ∧ Py.sum_values out == 1.
Proof.
  apply (transition_model_sums_to_one corpus_pair (17 # 20) "B" {[ "A" ]}).
  - apply (bool_decide_unpack _). by vm_compute.
  - by vm_compute.
  - by vm_compute.
  - by vm_compute.
  - apply (bool_decide_unpack _). by vm_compute.
Defined.

(** C5 as stated fails: on the non-empty graph [{A: {B}}] the page [A] is a
    key, and [transition_model] raises [KeyError]: no distribution is
    returned, so none that adds up to one. *)
Lemma transition_model_sums_to_one_counterexample :
  corpus_foreign ≠ ∅
  ∧ 0 <= 17 # 20 ∧ 17 # 20 <= 1
  ∧ is_Some (corpus_foreign !! "A")
  ∧ transition_model corpus_foreign "A" (17 # 20) = Raise KeyError
  ∧ ¬ ∃ out, transition_model corpus_foreign "A" (17 # 20) = Ok out
             ∧ dom out = dom corpus_foreign
             ∧ Py.sum_values out == 1.
Proof.
  assert (Hrun : transition_model corpus_foreign "A" (17 # 20) = Raise KeyError)
    by (by vm_compute).
  split_and!.
  - apply (bool_decide_unpack _). by vm_compute.
  - by vm_compute.
  - by vm_compute.
  - exists {[ "B" ]}. by vm_compute.
  - done.
  - intros (out & Hout & _). congruence.
Qed.

(** C6, as amended.  On a non-empty graph whose edge targets are keys,
    with [d] in [0,1], [n >= 1] and any draws of the generator: in exact
    arithmetic [sample_pagerank] returns a distribution whose values add up
    to one.  In binary64 a mapping that it returns holds, for every node,
    the float [1 / n] added to [0] once for every time the node was sampled,
    [n] additions over all nodes: the values add up to one only up to the
    rounding of these additions. *)
Theorem sample_pagerank_sums_to_one (corpus : gmap string (gset string)) (d : Q)
    (n : Z) (rng : nat → Q) :
  corpus ≠ ∅ →
  targets_are_keys corpus →
  0 <= d → d <= 1 →
  (1 ≤ n)%Z →
  unit_draws rng →
  (∃ out,
     sample_pagerank corpus d n rng = Ok out
     ∧ Py.sum_values out == 1)
  ∧ (∀ (bd : float) (randbelow : nat) (brng : nat → float) (bout : gmap string float),
       (n < 2 ^ 53)%Z →
       B64.sample_pagerank corpus bd n randbelow brng = Ok bout →
       ∃ sampled,
         length sampled = Z.to_nat n
         ∧ dom bout = dom corpus
         ∧ (∀ p, p ∈ dom corpus →
              bout !! p
              = Some (B64.added (1 / B64.of_Z n)%float (visits p sampled) 0%float))
         ∧ sum_list_with (λ p, visits p sampled) (Py.keys corpus) = Z.to_nat n).
Proof.
  intros Hne Hwf _ _ Hn Hrng. split.
  - destruct (sample_pagerank_counts corpus d n rng Hwf Hne Hrng Hn)
      as (out & sampled & Hrun & _ & Hlen & Hall & Hdom & Hval).
    exists out. split; [done|].
    by apply (counts_sum_to_one corpus n out sampled).
  - intros bd randbelow brng bout _ Hrun.
    destruct (b64_sample_pagerank_counts corpus bd n randbelow brng bout Hrun)
      as (sampled & Hlen & _ & Hdom & Hval & Hsum).
    by exists sampled.
Qed.

Lemma sample_pagerank_sums_to_one_witness :
  ∃ out,
    sample_pagerank corpus_dangling (17 # 20) 3
      (λ i, if Nat.even i then 1 # 4 else 3 # 4) = Ok out
    ∧ Py.sum_values out == 1.
Proof.
  apply (sample_pagerank_sums_to_one corpus_dangling (17 # 20) 3
           (λ i, if Nat.even i then 1 # 4 else 3 # 4)).
  - apply (bool_decide_unpack _). by vm_compute.
  - apply (bool_decide_unpack _). by vm_compute.
  - by vm_compute.
  - by vm_compute.
  - lia.
  - intros i. destruct (Nat.even i); by vm_compute.
Defined.

(** C6 as stated fails under floats.  On the single-node graph, with
    [n = 100000000], binary64 adds the nearest number to [1e-8] a hundred
    million times: [sample_pagerank] returns [{A: 1.0000000022898672}],
    which is more than [1e-9] away from [1]. *)
Lemma sample_pagerank_sums_to_one_counterexample :
  corpus_single ≠ ∅
  ∧ targets_are_keys corpus_single
  ∧ (0 <=? B64.DAMPING)%float = true ∧ (B64.DAMPING <=? 1)%float = true
  ∧ (1 ≤ 100000000)%Z
  ∧ (∀ randbelow rng,
       B64.sample_pagerank corpus_single B64.DAMPING 100000000 randbelow rng
       = Ok {[ "A" := 0x1.00000009d5bc5p+0%float ]})
  ∧ (0x1.12e0be826d695p-30 <? abs (0x1.00000009d5bc5p+0 - 1))%float = true.
Proof.
  split_and!.
  - apply (bool_decide_unpack _). by vm_compute.
  - apply (bool_decide_unpack _). by vm_compute.
  - by vm_compute.
  - by vm_compute.
  - lia.
  - intros randbelow rng. rewrite (b64_single_node_sample B64.DAMPING 100000000).
    apply (f_equal (λ v, Ok ({[ "A" := v ]} : gmap string float))).
    apply hundred_million_additions.
  - by vm_compute.
Qed.

(** C7, as amended.  Neither estimator checks its parameters at call
    entry.  With [n < 1] [sample_pagerank] returns, for every graph and
    every damping factor, the mapping that gives [0] to every node; with
    [n = 1] on a non-empty graph it returns, for every damping factor, the
    mapping that gives [1] to the sampled node and [0] to every other node.
    [iterate_pagerank] raises no failure for any graph and any damping
    factor, in exact arithmetic and in binary64: it returns a vector or
    goes on iterating. *)
Theorem parameters_are_not_checked (corpus : gmap string (gset string)) (d : Q)
    (n : Z) (rng : nat → Q) :
  ((n < 1)%Z →
     ∃ out, sample_pagerank corpus d n rng = Ok out
       ∧ dom out = dom corpus
       ∧ (∀ q, q ∈ dom corpus → out !! q = Some 0))
  ∧ (corpus ≠ ∅ → unit_draws rng →
     ∃ s out, sample_pagerank corpus d 1 rng = Ok out
       ∧ dom out = dom corpus
       ∧ s ∈ dom corpus
       ∧ rank out s == 1
       ∧ ∀ p, p ≠ s → rank out p == 0)
  ∧ (∀ fuel e, iterate_pagerank fuel corpus d ≠ Some (Raise e))
  ∧ (∀ (bd : float) fuel e, B64.iterate_pagerank fuel corpus bd ≠ Some (Raise e)).
Proof.
  split_and!.
  - apply sample_pagerank_no_turn.
  - intros Hne Hrng.
    destruct (sample_pagerank_one_turn corpus d rng Hne Hrng)
      as (s & out & Hrun & _ & Hdom & Hs & Hone & Hzero).
    by exists s, out.
  - intros fuel e. apply iterate_pagerank_no_failure.
  - intros bd fuel e. rewrite b64_iterate_pagerank_loop. apply b64_iterate_loop_no_failure.
Qed.

Lemma parameters_are_not_checked_witness :
  (∃ out, sample_pagerank corpus_pair (1 # 2) 0 (λ _, 0) = Ok out
     ∧ dom out = dom corpus_pair
     ∧ (∀ q, q ∈ dom corpus_pair → out !! q = Some 0))
  ∧ (∃ s out, sample_pagerank corpus_pair 2 1 (λ _, 1 # 2) = Ok out
       ∧ dom out = dom corpus_pair
       ∧ s ∈ dom corpus_pair
       ∧ rank out s == 1
       ∧ ∀ p, p ≠ s → rank out p == 0).
Proof.
  split.
  - apply (parameters_are_not_checked corpus_pair (1 # 2) 0 (λ _, 0)). lia.
  - apply (parameters_are_not_checked corpus_pair 2 0 (λ _, 1 # 2)).
    + apply (bool_decide_unpack _). by vm_compute.
    + intros i. by vm_compute.
Defined.

(** C7 as stated fails: with the sample count [0] [sample_pagerank] returns
    the all-zero mapping, and with the damping factor [2] both estimators
    return a mapping; no call is rejected. *)
Lemma parameters_are_not_checked_counterexample :
  (∃ out, sample_pagerank corpus_pair (1 # 2) 0 (λ _, 0) = Ok out
     ∧ out !! "A" = Some 0 ∧ out !! "B" = Some 0)
  ∧ (∃ out, sample_pagerank corpus_pair 2 1 (λ _, 0) = Ok out
       ∧ rank out "A" == 1 ∧ rank out "B" == 0)
  ∧ (∃ out, iterate_pagerank 1 corpus_pair 2 = Some (Ok out)
       ∧ rank out "A" == 1 # 2 ∧ rank out "B" == 1 # 2).
Proof.
  split_and!; eexists; (split; [by vm_compute|]); split; by vm_compute.
Qed.




(** ** The single-node graph *)







(** C10, as amended.  On a non-empty graph whose edge targets are keys,
    with [d] in [0,1], [n >= 1] and all draws of the generator:
    [sample_pagerank] returns a mapping whose keys are the nodes of the
    graph; the value of a node is [1 / n] added to [0] once for every one of
    the [c] times the node occurs among the [n] sampled pages, and the
    counts [c] add up to [n].  In exact arithmetic the value is [c / n],
    and not negative; in binary64 it is the float that the [c] additions
    give. *)
Theorem sample_pagerank_visit_frequencies (corpus : gmap string (gset string)) (d : Q)
    (n : Z) (rng : nat → Q) :
  corpus ≠ ∅ →
  targets_are_keys corpus →
  0 <= d → d <= 1 →
  (1 ≤ n)%Z →
  unit_draws rng →
  (∃ out sampled,
     sample_pagerank corpus d n rng = Ok out
     ∧ samples corpus d n rng = Ok sampled
     ∧ length sampled = Z.to_nat n
     ∧ dom out = dom corpus
     ∧ (∀ p, p ∈ dom corpus →
          ∃ v, out !! p = Some v
            ∧ v == Py.of_nat (visits p sampled) / inject_Z n
            ∧ 0 <= v)
     ∧ sum_list_with (λ p, visits p sampled) (Py.keys corpus) = Z.to_nat n)
  ∧ (∀ (bd : float) (randbelow : nat) (brng : nat → float) (bout : gmap string float),
       (n < 2 ^ 53)%Z →
       B64.sample_pagerank corpus bd n randbelow brng = Ok bout →
       ∃ sampled,
         length sampled = Z.to_nat n
         ∧ Forall (λ s, s ∈ dom corpus) sampled
         ∧ dom bout = dom corpus
         ∧ (∀ p, p ∈ dom corpus →
              bout !! p
              = Some (B64.added (1 / B64.of_Z n)%float (visits p sampled) 0%float))
         ∧ sum_list_with (λ p, visits p sampled) (Py.keys corpus) = Z.to_nat n).
Proof.
  intros Hne Hwf _ _ Hn Hrng. split.
  - destruct (sample_pagerank_counts corpus d n rng Hwf Hne Hrng Hn)
      as (out & sampled & Hrun & Hwalk & Hlen & Hall & Hdom & Hval).
    exists out, sampled. split_and!; try done.
    + intros p Hp.
      assert (is_Some (out !! p)) as [v Hv] by (apply elem_of_dom; by rewrite Hdom).
      exists v. pose proof (Hval p v Hv) as Heq.
      assert (Hpos : 0 < inject_Z n).
      { change 0 with (inject_Z 0). rewrite <- Zlt_Qlt. lia. }
      assert (Hc0 : 0 <= Py.of_nat (visits p sampled)) by (apply (of_nat_le 0); lia).
      split_and!; [done..|]. rewrite Heq.
      apply Qle_shift_div_l; [done|]. lra.
    + rewrite sum_list_with_visits; [done|apply keys_NoDup|].
      eapply Forall_impl; [exact Hall|]. intros s Hs. by apply elem_of_keys.
  - intros bd randbelow brng bout _ Hrun.
    by apply (b64_sample_pagerank_counts corpus bd n randbelow brng bout).
Qed.

Lemma sample_pagerank_visit_frequencies_witness :
  ∃ out sampled,
    sample_pagerank corpus_pair (1 # 2) 4 (λ _, 1 # 2) = Ok out
    ∧ samples corpus_pair (1 # 2) 4 (λ _, 1 # 2) = Ok sampled
    ∧ length sampled = Z.to_nat 4
    ∧ dom out = dom corpus_pair
    ∧ (∀ p, p ∈ dom corpus_pair →
         ∃ v, out !! p = Some v
           ∧ v == Py.of_nat (visits p sampled) / inject_Z 4
           ∧ 0 <= v)
    ∧ sum_list_with (λ p, visits p sampled) (Py.keys corpus_pair) = Z.to_nat 4.
Proof.
  apply (sample_pagerank_visit_frequencies corpus_pair (1 # 2) 4 (λ _, 1 # 2)).
  - apply (bool_decide_unpack _). by vm_compute.
  - apply (bool_decide_unpack _). by vm_compute.
  - by vm_compute.
  - by vm_compute.
  - lia.
  - intros i. by vm_compute.
Defined.

(** In binary64 the weights of a damping factor far outside [0,1] cancel:
    with [d = 1e17] on [{A: {B}, B: {A}}] they are [-5e16] and [5e16], their
    total is [0.0], and [random.choices] raises [ValueError]. *)
Lemma b64_cancelled_weights (randbelow : nat) (rng : nat → float) :
  B64.sample_pagerank corpus_pair 1e17 2 randbelow rng = Raise ValueError.
Proof.
  unfold B64.sample_pagerank.
  change (Py.for_in (Py.keys corpus_pair) _ ∅)
    with (Ok ({[ "A" := 0%float; "B" := 0%float ]} : gmap string float)).
  rewrite bind_Ok. change (Py.range 2) with [0%nat; 1%nat].
  cbn [Py.for_in B64.sample_turn].
  assert (B64.next_sample corpus_pair 1e17 randbelow rng 0 None = Ok "A"
          ∨ B64.next_sample corpus_pair 1e17 randbelow rng 0 None = Ok "B") as [-> | ->].
  { unfold B64.next_sample, B64.choice. change (Py.keys corpus_pair) with ["A"; "B"].
    cbn [length]. destruct (decide (0 = 0)%nat); [|done].
    destruct (decide (2 = 0)%nat); [done|].
    pose proof (Nat.mod_upper_bound randbelow 2) as Hlt.
    destruct (randbelow mod 2)%nat as [|[|k]]; [by left|by right|lia]. }
  - by vm_compute.
  - by vm_compute.
Qed.

(** C10 as stated fails.  On the non-empty graph [{A: {B}}], with [n = 2],
    the second turn of the walk looks up the node [B], which is no key, and
    [sample_pagerank] raises [KeyError]: no mapping is returned.  In
    binary64, "every damping factor" fails on a graph whose edge targets are
    keys: with [d = 1e17] [random.choices] raises [ValueError]; and a value
    need not lie in [0,1]: nine additions of [1 / 9] on the single-node graph
    give [1.0000000000000002]. *)
Lemma sample_pagerank_visit_frequencies_counterexample :
  corpus_foreign ≠ ∅
  ∧ (1 ≤ 2)%Z
  ∧ unit_draws (λ _, 1 # 2)
  ∧ sample_pagerank corpus_foreign (1 # 2) 2 (λ _, 1 # 2) = Raise KeyError
  ∧ (¬ ∃ out, sample_pagerank corpus_foreign (1 # 2) 2 (λ _, 1 # 2) = Ok out)
  ∧ corpus_pair ≠ ∅
  ∧ targets_are_keys corpus_pair
  ∧ (∀ randbelow rng,
       B64.sample_pagerank corpus_pair 1e17 2 randbelow rng = Raise ValueError)
  ∧ (∀ randbelow rng,
       B64.sample_pagerank corpus_single B64.DAMPING 9 randbelow rng
       = Ok {[ "A" := 0x1.0000000000001p+0%float ]})
  ∧ (1 <? 0x1.0000000000001p+0)%float = true.
Proof.
  assert (Hrun : sample_pagerank corpus_foreign (1 # 2) 2 (λ _, 1 # 2) = Raise KeyError)
    by (by vm_compute).
  split_and!.
  - apply (bool_decide_unpack _). by vm_compute.
  - lia.
  - intros i. by vm_compute.
  - done.
  - intros [out Hout]. congruence.
  - apply (bool_decide_unpack _). by vm_compute.
  - apply (bool_decide_unpack _). by vm_compute.
  - apply b64_cancelled_weights.
  - intros randbelow rng. rewrite (b64_single_node_sample B64.DAMPING 9).
    apply (f_equal (λ v, Ok ({[ "A" := v ]} : gmap string float))). by vm_compute.
  - by vm_compute.
Qed.

(** ** [crawl] *)

Lemma elem_of_html_files listing f :
  f ∈ html_files listing ↔ f ∈ listing ∧ endswith f ".html" = true.
Proof. unfold html_files. by rewrite list_elem_of_filter, (comm and). Qed.

Lemma bind_Pages {A B} (a : A) (f : A → crawled B) : (Pages a ≫= f) = f a.
Proof. done. Qed.

Lemma read_page_skip read_file findall g pages :
  endswith g ".html" = false → read_page read_file findall g pages = Pages pages.
Proof. intros Hg. unfold read_page. by rewrite Hg. Qed.

Lemma read_page_html read_file findall g c pages :
  endswith g ".html" = true → read_file g = Some c →
  read_page read_file findall g pages
  = Pages (<[g := list_to_set (findall c) ∖ {[ g ]}]> pages).
Proof. intros Hg Hc. unfold read_page. by rewrite Hg, Hc. Qed.

Lemma read_page_unreadable read_file findall g pages :
  endswith g ".html" = true → read_file g = None →
  read_page read_file findall g pages = OSError g.
Proof. intros Hg Hc. unfold read_page. by rewrite Hg, Hc. Qed.

Lemma html_files_cons g l :
  html_files (g :: l) = if endswith g ".html" then g :: html_files l else html_files l.
Proof.
  unfold html_files. rewrite filter_cons.
  destruct (endswith g ".html"); by destruct (decide _).
Qed.

(** The first loop, when every file it opens can be read. *)
Lemma extract_loop (read_file : string → option string) (findall : string → list string)
    (l : list string) (pages : gmap string (gset string)) :
  readable l read_file →
  ∃ pages',
    for_each l (read_page read_file findall) pages = Pages pages'
    ∧ ∀ f, pages' !! f = if decide (f ∈ html_files l)
                         then Some (found_links read_file findall f)
                         else pages !! f.
Proof.
  revert pages. induction l as [|g l IH]; intros pages Hread.
  - exists pages. split; [done|]. intros f. destruct (decide (f ∈ html_files [])) as [Hf|]; [|done].
    by apply elem_of_nil in Hf.
  - cbn [for_each]. unfold readable in Hread. rewrite html_files_cons in Hread |- *.
    destruct (endswith g ".html") eqn:Eg.
    + apply Forall_cons in Hread as [[c Hc] Hread].
      rewrite (read_page_html _ _ g c) by done. rewrite bind_Pages.
      destruct (IH (<[g := list_to_set (findall c) ∖ {[g]}]> pages) Hread) as (pages' & -> & Hval).
      exists pages'. split; [done|]. intros f. rewrite Hval.
      destruct (decide (f ∈ html_files l)) as [Hf|Hf].
      * rewrite decide_True; [done|by right].
      * destruct (decide (f = g)) as [->|Hne].
        -- rewrite lookup_insert_eq, decide_True by left.
           unfold found_links. by rewrite Hc.
        -- rewrite lookup_insert_ne by done. rewrite decide_False; [done|].
           by intros [->|Hin]%elem_of_cons.
    + rewrite read_page_skip, bind_Pages by done.
      destruct (IH pages Hread) as (pages' & -> & Hval). by exists pages'.
Qed.

(** The first loop, when a file it opens cannot be read: it stops at the
    first such file. *)
Lemma extract_loop_fails (read_file : string → option string)
    (findall : string → list string) (l : list string) (pages : gmap string (gset string)) :
  ¬ readable l read_file →
  ∃ f,
    for_each l (read_page read_file findall) pages = OSError f
    ∧ f ∈ html_files l ∧ read_file f = None.
Proof.
  revert pages. induction l as [|g l IH]; intros pages Hread.
  - exfalso. apply Hread. constructor.
  - cbn [for_each]. unfold readable in Hread. rewrite html_files_cons in Hread |- *.
    destruct (endswith g ".html") eqn:Eg.
    + destruct (read_file g) as [c|] eqn:Hc.
      * rewrite (read_page_html _ _ g c) by done. rewrite bind_Pages.
        destruct (IH (<[g := list_to_set (findall c) ∖ {[g]}]> pages)) as (f & -> & Hf & Hnone).
        { intros Hl. apply Hread. constructor; [by rewrite Hc|done]. }
        exists f. split_and!; [done|by right|done].
      * rewrite read_page_unreadable by done. exists g. split_and!; [done|left|done].
    + rewrite read_page_skip, bind_Pages by done.
      destruct (IH pages Hread) as (f & -> & Hf & Hnone). by exists f.
Qed.

Lemma keep_links_key (pages : gmap string (gset string)) k links :
  pages !! k = Some links →
  keep_links k pages
  = Pages (<[k := filter (λ link, is_Some (pages !! link)) links]> pages).
Proof. intros Hk. unfold keep_links. by rewrite Hk. Qed.

(** The second loop: every entry keeps its links to the keys [D] of the
    dictionary, which the loop leaves as they are. *)
Lemma keep_loop (D : gset string) (ks : list string) (pages : gmap string (gset string)) :
  NoDup ks →
  (∀ k, is_Some (pages !! k) ↔ k ∈ D) →
  (∀ k, k ∈ ks → k ∈ D) →
  ∃ pages',
    for_each ks keep_links pages
    = Pages pages'
    ∧ (∀ k, is_Some (pages' !! k) ↔ k ∈ D)
    ∧ (∀ k, k ∉ ks → pages' !! k = pages !! k)
    ∧ (∀ k links, k ∈ ks → pages !! k = Some links →
         pages' !! k = Some (filter (λ link, link ∈ D) links)).
Proof.
  intros Hnd. revert pages. induction Hnd as [|k0 ks Hk0 Hnd IH]; intros pages HD Hks.
  - exists pages. split_and!; try done. intros k links Hk. by apply elem_of_nil in Hk.
  - assert (is_Some (pages !! k0)) as [links0 Hl0] by (apply HD, Hks; left).
    assert (Hfilter : filter (λ link, is_Some (pages !! link)) links0
                      = filter (λ link, link ∈ D) links0).
    { apply set_eq. intros x. by rewrite !elem_of_filter, HD. }
    destruct (IH (<[k0 := filter (λ link, link ∈ D) links0]> pages))
      as (pages' & Hrun & HD' & Hrest & Hin).
    { intros k. destruct (decide (k = k0)) as [->|Hne].
      - rewrite lookup_insert_eq. split; [intros _; apply Hks; left|by eexists].
      - by rewrite lookup_insert_ne. }
    { intros k Hk. apply Hks. by right. }
    exists pages'. split_and!.
    + cbn [for_each]. by rewrite (keep_links_key _ _ _ Hl0), Hfilter, bind_Pages.
    + done.
    + intros k [Hne Hk]%not_elem_of_cons. by rewrite Hrest, lookup_insert_ne.
    + intros k links [->|Hk]%elem_of_cons Hlook.
      * rewrite Hrest, lookup_insert_eq by done. congruence.
      * apply Hin; [done|]. rewrite lookup_insert_ne; [done|]. by intros ->.
Qed.

Lemma keep_corpus_links_pages (pages : gmap string (gset string)) :
  ∃ pages',
    keep_corpus_links pages = Pages pages'
    ∧ dom pages' = dom pages
    ∧ ∀ k links, pages !! k = Some links →
        pages' !! k = Some (filter (λ link, link ∈ dom pages) links).
Proof.
  destruct (keep_loop (dom pages) (Py.keys pages) pages) as (pages' & Hrun & HD & _ & Hin).
  - apply keys_NoDup.
  - intros k. by rewrite elem_of_dom.
  - intros k. by rewrite elem_of_keys.
  - exists pages'. split_and!; [done| |].
    + apply set_eq. intros k. by rewrite elem_of_dom, HD.
    + intros k links Hk. apply Hin; [|done]. apply elem_of_keys, elem_of_dom. by eexists.
Qed.

#[global] Instance readable_dec listing read_file : Decision (readable listing read_file).
Proof. unfold readable. apply _. Defined.

(** [crawl] on a directory all of whose [.html] files can be read. *)
Lemma crawl_pages (listing : list string) (read_file : string → option string)
    (findall : string → list string) :
  readable listing read_file →
  ∃ pages,
    crawl listing read_file findall = Pages pages
    ∧ dom pages = list_to_set (html_files listing)
    ∧ ∀ f, f ∈ html_files listing →
        pages !! f = Some (filter (λ link, link ∈ html_files listing)
                             (found_links read_file findall f)).
Proof.
  intros Hread. unfold crawl, extract_links.
  destruct (extract_loop read_file findall listing ∅ Hread) as (pages0 & -> & Hval).
  rewrite bind_Pages.
  assert (Hdom0 : dom pages0 = list_to_set (html_files listing)).
  { apply set_eq. intros f. rewrite elem_of_dom, Hval, elem_of_list_to_set.
    destruct (decide (f ∈ html_files listing)); [split; [done|by eexists]|].
    rewrite lookup_empty. split; [by intros [? ?]|done]. }
  destruct (keep_corpus_links_pages pages0) as (pages & -> & Hdom & Hlinks).
  exists pages. split_and!; [done|by rewrite Hdom| ].
  intros f Hf. rewrite (Hlinks f (found_links read_file findall f)).
  - f_equal. apply set_eq. intros x. by rewrite !elem_of_filter, Hdom0, elem_of_list_to_set.
  - rewrite Hval. by rewrite decide_True.
Qed.

(** [crawl] fails exactly on a file that it opens and cannot read. *)
Lemma crawl_fails (listing : list string) (read_file : string → option string)
    (findall : string → list string) :
  ¬ readable listing read_file →
  ∃ f, crawl listing read_file findall = OSError f
       ∧ f ∈ html_files listing ∧ read_file f = None.
Proof.
  intros Hread. unfold crawl, extract_links.
  destruct (extract_loop_fails read_file findall listing ∅ Hread) as (f & -> & Hf & Hnone).
  by exists f.
Qed.

(** ** Further properties of the transition model *)

Lemma baseline_bounds (corpus : gmap string (gset string)) d :
  (0 < size corpus)%nat → 0 <= d → d <= 1 →
  0 <= baseline corpus d ∧ baseline corpus d <= 1 - d.
Proof.
  intros HN Hd0 Hd1. unfold baseline.
  assert (1 <= Py.of_nat (size corpus)) as Hone.
  { change 1 with (Py.of_nat 1). apply of_nat_le. lia. }
  split.
  - apply Qle_shift_div_l; lra.
  - apply Qle_shift_div_r; [lra|]. nra.
Qed.

Lemma share_bounds d k : (0 < k)%nat → 0 <= d → 0 <= d / Py.of_nat k ∧ d / Py.of_nat k <= d.
Proof.
  intros Hk Hd0.
  assert (1 <= Py.of_nat k) as Hone.
  { change 1 with (Py.of_nat 1). apply of_nat_le. lia. }
  split.
  - apply Qle_shift_div_l; lra.
  - apply Qle_shift_div_r; [lra|]. nra.
Qed.

(** The three outcomes of [transition_model]. *)
Lemma transition_model_cases (corpus : gmap string (gset string)) page d :
  (∃ linked out, corpus !! page = Some linked ∧ linked ⊆ dom corpus
                 ∧ transition_model corpus page d = Ok out)
  ∨ (transition_model corpus page d = Raise KeyError
     ∧ (corpus !! page = None
        ∨ ∃ linked, corpus !! page = Some linked ∧ ¬ linked ⊆ dom corpus)).
Proof.
  destruct (corpus !! page) as [linked|] eqn:Hpage.
  - destruct (decide (linked ⊆ dom corpus)) as [Hsub|Hsub].
    + left. destruct (transition_model_total corpus page d linked Hpage Hsub) as (out & Hrun & _).
      by exists linked, out.
    + right. split; [by apply (transition_model_foreign corpus page d linked)|].
      right. by exists linked.
  - right. split; [by apply transition_model_no_page|by left].
Qed.

(** ** Further properties of the iterative estimator *)

Lemma sum_values_rank {V} (corpus : gmap string V) (out : gmap string Q) :
  dom out = dom corpus →
  Py.sum_values out == sumQ (rank out) (Py.keys corpus).
Proof.
  intros Hdom. apply (sum_values_pointwise corpus out (rank out) Hdom).
  intros q v Hq. unfold rank. by rewrite Hq.
Qed.

(** A pass keeps the total rank: the new ranks add up to [(1 - d)] plus [d]
    times the old total. *)
Lemma recurrence_total (corpus : gmap string (gset string)) d (x : gmap string Q) :
  targets_are_keys corpus →
  corpus ≠ ∅ →
  sumQ (recurrence corpus d x) (Py.keys corpus)
  == (1 - d) + d * sumQ (rank x) (Py.keys corpus).
Proof.
  intros Hwf Hne. unfold recurrence.
  assert (HN : ¬ Py.of_nat (size corpus) == 0).
  { apply of_nat_nonzero. destruct (decide (size corpus = 0%nat)) as [Hz|]; [|lia].
    by apply map_size_empty_iff in Hz. }
  rewrite sumQ_plus, sumQ_const, length_keys, sumQ_scale.
  rewrite (sumQ_ext _ (λ p, sumQ (λ q, transfer corpus p q * rank x q) (Py.keys corpus))).
  2:{ intros p _. apply sumQ_ext. intros q _. apply contribution_transfer. }
  rewrite sumQ_swap.
  rewrite (sumQ_ext _ (rank x)).
  - by field.
  - intros q Hq%elem_of_keys.
    rewrite (sumQ_ext _ (λ p, rank x q * transfer corpus p q)) by (intros; ring).
    rewrite sumQ_scale, transfer_column by done. ring.
Qed.

Lemma ranks_after_total (corpus : gmap string (gset string)) d k :
  targets_are_keys corpus →
  corpus ≠ ∅ →
  sumQ (rank (ranks_after corpus d k)) (Py.keys corpus) == 1.
Proof.
  intros Hwf Hne. induction k as [|k IH].
  - destruct (initial_ranks_ok corpus) as (x0 & Hx0 & _ & Hval).
    rewrite (sumQ_ext _ (λ _, 1 / Py.of_nat (size corpus))).
    + rewrite sumQ_const, length_keys. field.
      apply of_nat_nonzero. destruct (decide (size corpus = 0%nat)) as [Hz|]; [|lia].
      by apply map_size_empty_iff in Hz.
    + intros p Hp%elem_of_keys. unfold ranks_after. cbn [rank_vector].
      rewrite Hx0. unfold rank. by rewrite Hval.
  - rewrite (sumQ_ext _ (recurrence corpus d (ranks_after corpus d k))).
    + rewrite recurrence_total, IH by done. ring.
    + intros p Hp%elem_of_keys.
      by apply (rank_vector_step corpus d k); [apply rank_vector_ranks_after..|].
Qed.

Lemma contribution_nonneg (corpus : gmap string (gset string)) (x : gmap string Q) p q :
  0 <= rank x q → 0 <= contribution corpus x p q.
Proof.
  intros Hq. rewrite contribution_transfer.
  apply Qmult_le_0_compat; [apply transfer_nonneg|done].
Qed.

(** From a non-negative vector a pass gives every node at least the
    baseline. *)
Lemma recurrence_lower (corpus : gmap string (gset string)) d (x : gmap string Q) p :
  0 <= d →
  (∀ q, q ∈ dom corpus → 0 <= rank x q) →
  (1 - d) / Py.of_nat (size corpus) <= recurrence corpus d x p.
Proof.
  intros Hd Hx. unfold recurrence.
  assert (0 <= sumQ (contribution corpus x p) (Py.keys corpus)) as Hsum.
  { apply sumQ_nonneg. intros q Hq%elem_of_keys. by apply contribution_nonneg, Hx. }
  nra.
Qed.

Lemma ranks_after_lower (corpus : gmap string (gset string)) d k p :
  0 <= d → d <= 1 →
  p ∈ dom corpus →
  0 <= rank (ranks_after corpus d k) p
  ∧ (1 - d) / Py.of_nat (size corpus) <= rank (ranks_after corpus d (S k)) p.
Proof.
  intros Hd0 Hd1. revert p.
  assert (Hbase : 0 <= (1 - d) / Py.of_nat (size corpus)).
  { unfold Qdiv. apply Qmult_le_0_compat; [lra|].
    pose proof (inverse_count_nonneg (size corpus)) as H. unfold Qdiv in H.
    by rewrite Qmult_1_l in H. }
  assert (Hnn : ∀ k p, p ∈ dom corpus → 0 <= rank (ranks_after corpus d k) p).
  { clear k. induction k as [|k IH]; intros p Hp.
    - destruct (initial_ranks_ok corpus) as (x0 & Hx0 & _ & Hval).
      unfold ranks_after. cbn [rank_vector]. rewrite Hx0. unfold rank.
      rewrite Hval by done. apply inverse_count_nonneg.
    - rewrite (rank_vector_step corpus d k _ _ (rank_vector_ranks_after corpus d k)
                 (rank_vector_ranks_after corpus d (S k)) p Hp).
      eapply Qle_trans; [exact Hbase|]. by apply recurrence_lower. }
  intros p Hp. split; [by apply Hnn|].
  rewrite (rank_vector_step corpus d k _ _ (rank_vector_ranks_after corpus d k)
             (rank_vector_ranks_after corpus d (S k)) p Hp).
  apply recurrence_lower; [done|]. intros q Hq. by apply Hnn.
Qed.

Lemma sumQ_term_le {A} (f : A → Q) (l : list A) x :
  x ∈ l → (∀ y, y ∈ l → 0 <= f y) → f x <= sumQ f l.
Proof.
  induction l as [|a l IH]; intros Hx Hf; [by apply elem_of_nil in Hx|].
  rewrite sumQ_cons.
  assert (0 <= f a) by (apply Hf; left).
  assert (0 <= sumQ f l) by (apply sumQ_nonneg; intros y Hy; apply Hf; by right).
  apply elem_of_cons in Hx as [->|Hx]; [lra|].
  assert (f x <= sumQ f l) by (apply IH; [done|]; intros y Hy; apply Hf; by right).
  lra.
Qed.

(** After the convergence test, one more pass moves the vector by at most
    [|d| * N * threshold] in total. *)
Lemma converged_near_fixed_point (corpus : gmap string (gset string)) d k :
  targets_are_keys corpus →
  converged (ranks_after corpus d (S k)) (ranks_after corpus d k) →
  change corpus d (S k) <= Qabs d * (Py.of_nat (size corpus) * threshold).
Proof.
  intros Hwf Hconv.
  eapply Qle_trans; [by apply change_shrinks|].
  apply scale_le; [apply Qabs_nonneg|].
  unfold change, distance.
  eapply Qle_trans.
  - apply (sumQ_le _ (λ _, threshold)). intros p Hp%elem_of_keys.
    apply Hconv. by rewrite ranks_after_dom.
  - rewrite sumQ_const, length_keys. apply Qle_lteq. right. ring.
Qed.

(** ** Properties of [crawl] and of its use in [main] *)

(** A corpus that [crawl] returns is closed under its links and has no
    link from a page to itself. *)
Lemma crawl_result_well_formed (listing : list string) (read_file : string → option string)
    (findall : string → list string) (pages : gmap string (gset string)) :
  crawl listing read_file findall = Pages pages →
  targets_are_keys pages
  ∧ ∀ f links, pages !! f = Some links → f ∉ links.
Proof.
  intros Hrun. destruct (decide (readable listing read_file)) as [Hread|Hread].
  2:{ destruct (crawl_fails listing read_file findall Hread) as (f & Hf & _). congruence. }
  destruct (crawl_pages listing read_file findall Hread) as (pages' & Hrun' & Hdom & Hval).
  assert (pages' = pages) as -> by congruence.
  assert (Hlinks : ∀ f links, pages !! f = Some links →
            links = filter (λ link, link ∈ html_files listing)
                      (found_links read_file findall f)).
  { intros f links Hf. rewrite Hval in Hf; [congruence|].
    apply (elem_of_list_to_set (C:=gset string)). rewrite <- Hdom.
    apply elem_of_dom. by eexists. }
  split.
  - intros f links Hf g Hg. rewrite (Hlinks f links Hf) in Hg.
    apply elem_of_filter in Hg as [Hg _]. rewrite Hdom. by apply elem_of_list_to_set.
  - intros f links Hf Hself. rewrite (Hlinks f links Hf) in Hself.
    apply elem_of_filter in Hself as [_ Hself]. unfold found_links in Hself.
    apply elem_of_difference in Hself as [_ Hself]. by apply Hself, elem_of_singleton.
Qed.

(** X1.  Whatever the directory holds, a corpus returned by [crawl] is a
    well-formed graph: every link leads to a page of the corpus, and no page
    links to itself. *)
Theorem crawl_well_formed (listing : list string) (read_file : string → option string)
    (findall : string → list string) (pages : gmap string (gset string)) :
  crawl listing read_file findall = Pages pages →
  targets_are_keys pages
  ∧ ∀ f links, pages !! f = Some links → f ∉ links.
Proof. apply crawl_result_well_formed. Qed.

Lemma crawl_well_formed_witness :
  targets_are_keys demo_pages
  ∧ ∀ f links, demo_pages !! f = Some links → f ∉ links.
Proof.
  apply (crawl_well_formed demo_listing demo_read demo_findall demo_pages).
  apply (bool_decide_unpack _). by vm_compute.
Defined.

(** X2.  When every [.html] file of the directory can be read, [crawl]
    returns a corpus whose pages are exactly the names of the directory that
    end in [.html]; a page [f] links to [g] exactly when [g] is among the
    links found in the contents of [f], [g] is not [f] itself, and [g] is a
    page of the corpus. *)
Theorem crawl_links (listing : list string) (read_file : string → option string)
    (findall : string → list string) :
  readable listing read_file →
  ∃ pages,
    crawl listing read_file findall = Pages pages
    ∧ (∀ f, f ∈ dom pages ↔ f ∈ listing ∧ endswith f ".html" = true)
    ∧ (∀ f contents, f ∈ dom pages → read_file f = Some contents →
         ∃ links, pages !! f = Some links
           ∧ ∀ g, g ∈ links ↔ g ∈ findall contents ∧ g ≠ f ∧ g ∈ dom pages).
Proof.
  intros Hread.
  destruct (crawl_pages listing read_file findall Hread) as (pages & Hrun & Hdom & Hval).
  assert (Hkeys : ∀ f, f ∈ dom pages ↔ f ∈ html_files listing).
  { intros f. by rewrite Hdom, elem_of_list_to_set. }
  exists pages. split_and!; [done| |].
  - intros f. by rewrite Hkeys, elem_of_html_files.
  - intros f contents Hf Hc. eexists. split; [apply Hval; by apply Hkeys|].
    intros g. rewrite elem_of_filter. unfold found_links. rewrite Hc. simpl default.
    rewrite elem_of_difference, elem_of_list_to_set, elem_of_singleton, Hkeys. tauto.
Qed.

Lemma crawl_links_witness :
  ∃ pages,
    crawl demo_listing demo_read demo_findall = Pages pages
    ∧ (∀ f, f ∈ dom pages ↔ f ∈ demo_listing ∧ endswith f ".html" = true)
    ∧ (∀ f contents, f ∈ dom pages → demo_read f = Some contents →
         ∃ links, pages !! f = Some links
           ∧ ∀ g, g ∈ links ↔ g ∈ demo_findall contents ∧ g ≠ f ∧ g ∈ dom pages).
Proof.
  apply (crawl_links demo_listing demo_read demo_findall).
  apply (bool_decide_unpack _). by vm_compute.
Defined.

(** X3.  [crawl] returns a corpus exactly when [os.listdir] gives the
    names of the directory and every file among them whose name ends in
    [.html] can be opened and read; otherwise it stops with the failure of
    [os.listdir] or of such a file.  Files with other names are never
    opened, and [crawl] raises no exception of its own. *)
Theorem crawl_outcomes (directory : string) (listdir : option (list string))
    (read_file : string → option string) (findall : string → list string) :
  ((∃ pages, crawl_directory directory listdir read_file findall = Pages pages)
   ↔ ∃ listing, listdir = Some listing
       ∧ ∀ f, f ∈ listing → endswith f ".html" = true → is_Some (read_file f))
  ∧ (∀ name, crawl_directory directory listdir read_file findall = OSError name →
       (listdir = None ∧ name = directory)
       ∨ ∃ listing, listdir = Some listing
           ∧ name ∈ listing ∧ endswith name ".html" = true ∧ read_file name = None)
  ∧ (∀ e, crawl_directory directory listdir read_file findall ≠ Fault e).
Proof.
  destruct listdir as [listing|]; cbn [crawl_directory].
  2:{ split_and!.
      - split; [by intros [? ?]|by intros (? & ? & _)].
      - intros name Hname. injection Hname as <-. by left.
      - done. }
  assert (Hreadable : readable listing read_file
                      ↔ ∀ f, f ∈ listing → endswith f ".html" = true → is_Some (read_file f)).
  { unfold readable. rewrite Forall_forall. split.
    - intros H f Hf Hhtml. apply H, elem_of_html_files. by split.
    - intros H f [Hf Hhtml]%elem_of_html_files. by apply H. }
  destruct (decide (readable listing read_file)) as [Hread|Hread].
  - destruct (crawl_pages listing read_file findall Hread) as (pages & Hrun & _).
    rewrite Hrun. split_and!; [|done..]. split.
    + intros _. exists listing. split; [done|]. by apply Hreadable.
    + intros _. by exists pages.
  - destruct (crawl_fails listing read_file findall Hread) as (f & Hrun & Hf & Hnone).
    rewrite Hrun. apply elem_of_html_files in Hf as [Hf Hhtml]. split_and!.
    + split; [by intros [? ?]|]. intros (listing' & Heq & Hall).
      injection Heq as <-. exfalso. by apply Hread, Hreadable.
    + intros name Hname. injection Hname as <-. right. by exists listing.
    + done.
Qed.

(** X4.  The order in which the directory lists its files does not matter:
    on two listings of the same readable files, [crawl] returns the same
    corpus. *)
Theorem crawl_order_independent (listing listing' : list string)
    (read_file : string → option string) (findall : string → list string) :
  listing ≡ₚ listing' →
  readable listing read_file →
  crawl listing read_file findall = crawl listing' read_file findall.
Proof.
  intros Hperm Hread.
  assert (Hhtml : ∀ f, f ∈ html_files listing ↔ f ∈ html_files listing').
  { intros f. by rewrite !elem_of_html_files, Hperm. }
  assert (Hread' : readable listing' read_file).
  { unfold readable in *. rewrite Forall_forall in *. intros f Hf. by apply Hread, Hhtml. }
  destruct (crawl_pages listing read_file findall Hread) as (pages & -> & Hdom & Hval).
  destruct (crawl_pages listing' read_file findall Hread') as (pages' & -> & Hdom' & Hval').
  f_equal. apply map_eq. intros f.
  destruct (decide (f ∈ html_files listing)) as [Hf|Hf].
  - rewrite Hval by done. rewrite Hval' by (by apply Hhtml). f_equal. apply set_eq. intros g.
    by rewrite !elem_of_filter, Hhtml.
  - assert (pages !! f = None) as ->.
    { apply not_elem_of_dom. by rewrite Hdom, elem_of_list_to_set. }
    symmetry. apply not_elem_of_dom. by rewrite Hdom', elem_of_list_to_set, <- Hhtml.
Qed.

Lemma crawl_order_independent_witness :
  crawl demo_listing demo_read demo_findall
  = crawl ["3.html"; "2.html"; "notes.txt"; "1.html"] demo_read demo_findall.
Proof.
  apply (crawl_order_independent demo_listing ["3.html"; "2.html"; "notes.txt"; "1.html"]).
  - apply (bool_decide_unpack _). by vm_compute.
  - apply (bool_decide_unpack _). by vm_compute.
Defined.

Lemma corpus_size_nonzero (corpus : gmap string (gset string)) :
  corpus ≠ ∅ → ¬ Py.of_nat (size corpus) == 0.
Proof.
  intros Hne. apply of_nat_nonzero.
  destruct (decide (size corpus = 0%nat)) as [Hz|]; [|lia].
  by apply map_size_empty_iff in Hz.
Qed.

(** A vector returned by [iterate_pagerank] is the vector of some pass, and
    it passed the convergence test against the vector before. *)
Lemma iterate_pagerank_returns (corpus : gmap string (gset string)) d fuel out :
  iterate_pagerank fuel corpus d = Some (Ok out) →
  ∃ k, out = ranks_after corpus d (S k)
       ∧ converged (ranks_after corpus d (S k)) (ranks_after corpus d k).
Proof.
  rewrite iterate_pagerank_loop. generalize 0%nat as j.
  induction fuel as [|fuel IH]; intros j; [done|].
  cbn [iterate_loop]. rewrite ranks_after_pass.
  destruct (significant_differences_spec (ranks_after corpus d (S j)) (ranks_after corpus d j))
    as (ds & -> & Hds); [by rewrite !ranks_after_dom|].
  destruct (decide (length ds = 0%nat)) as [Hz|_]; [|apply IH].
  intros [= <-]. exists j. split; [done|]. by apply Hds.
Qed.

(** X5.  The pipeline of [main]: on a corpus that [crawl] returned and that
    has at least one page, [sample_pagerank] with the damping factor [0.85]
    and [10000] samples returns a distribution over the pages that adds up
    to one, and [iterate_pagerank] with the damping factor [0.85] leaves its
    loop with a vector over the pages that adds up to one; neither call
    raises an exception. *)
Theorem crawl_then_rank (listing : list string) (read_file : string → option string)
    (findall : string → list string) (corpus : gmap string (gset string))
    (rng : nat → Q) :
  crawl listing read_file findall = Pages corpus →
  corpus ≠ ∅ →
  unit_draws rng →
  (∃ out, sample_pagerank corpus DAMPING SAMPLES rng = Ok out
     ∧ dom out = dom corpus
     ∧ Py.sum_values out == 1)
  ∧ (∃ k out, (∀ fuel, (k < fuel)%nat →
                 iterate_pagerank fuel corpus DAMPING = Some (Ok out))
       ∧ dom out = dom corpus
       ∧ Py.sum_values out == 1).
Proof.
  intros Hcrawl Hne Hrng.
  destruct (crawl_result_well_formed listing read_file findall corpus Hcrawl) as [Hwf _].
  split.
  - destruct (sample_pagerank_counts corpus DAMPING SAMPLES rng Hwf Hne Hrng)
      as (out & sampled & Hrun & _ & Hlen & Hall & Hdom & Hval); [by vm_compute|].
    exists out. split_and!; [done..|].
    apply (counts_sum_to_one corpus SAMPLES out sampled); try done.
  - destruct (iterate_pagerank_converges corpus DAMPING Hwf) as (k & Hrun & _); [by vm_compute|].
    exists k, (ranks_after corpus DAMPING (S k)). split_and!.
    + intros fuel Hfuel. rewrite Hrun. by destruct (decide (k < fuel)%nat).
    + apply ranks_after_dom.
    + rewrite (sum_values_rank corpus) by apply ranks_after_dom.
      by apply ranks_after_total.
Qed.

Lemma demo_draws : unit_draws (λ i, if Nat.even i then 1 # 4 else 3 # 4).
Proof. intros i. destruct (Nat.even i); by vm_compute. Qed.

Lemma crawl_then_rank_witness :
  (∃ out, sample_pagerank demo_pages DAMPING SAMPLES
            (λ i, if Nat.even i then 1 # 4 else 3 # 4) = Ok out
     ∧ dom out = dom demo_pages
     ∧ Py.sum_values out == 1)
  ∧ (∃ k out, (∀ fuel, (k < fuel)%nat →
                 iterate_pagerank fuel demo_pages DAMPING = Some (Ok out))
       ∧ dom out = dom demo_pages
       ∧ Py.sum_values out == 1).
Proof.
  apply (crawl_then_rank demo_listing demo_read demo_findall demo_pages).
  - apply (bool_decide_unpack _). by vm_compute.
  - apply (bool_decide_unpack _). by vm_compute.
  - intros i. destruct (Nat.even i); by vm_compute.
Defined.

(** X6.  On a directory without any file whose name ends in [.html],
    [crawl] returns the empty corpus, and the first estimator that [main]
    calls on it, [sample_pagerank] with [10000] samples, raises
    [IndexError]. *)
Theorem crawl_without_pages (listing : list string) (read_file : string → option string)
    (findall : string → list string) (rng : nat → Q) :
  (∀ f, f ∈ listing → endswith f ".html" = false) →
  crawl listing read_file findall = Pages ∅
  ∧ sample_pagerank ∅ DAMPING SAMPLES rng = Raise IndexError.
Proof.
  intros Hnone.
  assert (Hhtml : html_files listing = []).
  { apply elem_of_nil_inv. intros f [Hf Hh]%elem_of_html_files.
    rewrite (Hnone f Hf) in Hh. done. }
  destruct (crawl_pages listing read_file findall) as (pages & Hrun & Hdom & _).
  { unfold readable. rewrite Hhtml. constructor. }
  rewrite Hhtml in Hdom. apply dom_empty_inv_L in Hdom. subst pages.
  split; [done|]. apply sample_pagerank_empty. by vm_compute.
Qed.

Lemma crawl_without_pages_witness :
  crawl ["notes.txt"; "style.css"] demo_read demo_findall = Pages ∅
  ∧ sample_pagerank ∅ DAMPING SAMPLES (λ _, 0) = Raise IndexError.
Proof.
  apply (crawl_without_pages ["notes.txt"; "style.css"] demo_read demo_findall (λ _, 0)).
  intros f Hf. apply elem_of_cons in Hf as [->|Hf]; [by vm_compute|].
  apply elem_of_cons in Hf as [->|Hf]; [by vm_compute|]. by apply elem_of_nil in Hf.
Defined.

(** The values of a distribution lie in the unit interval. *)
Lemma transition_model_unit_interval (corpus : gmap string (gset string)) (d : Q)
    (page : string) (linked : gset string) :
  corpus !! page = Some linked →
  linked ⊆ dom corpus →
  0 <= d → d <= 1 →
  ∃ out, transition_model corpus page d = Ok out
    ∧ ∀ q v, out !! q = Some v → 0 <= v ∧ v <= 1.
Proof.
  intros Hpage Hsub Hd0 Hd1.
  assert (HN : (0 < size corpus)%nat).
  { apply (size_pos_of_elem corpus page), elem_of_dom. by eexists. }
  destruct (baseline_bounds corpus d HN Hd0 Hd1) as [Hb0 Hb1].
  destruct (decide (linked = ∅)) as [->|Hne].
  - destruct (transition_model_dangling corpus page d Hpage) as (out & Hrun & Hdom & Hval).
    exists out. split; [done|]. intros q v Hq.
    rewrite Hval in Hq by (rewrite <- Hdom; apply elem_of_dom; by eexists).
    injection Hq as <-. split; [apply inverse_count_nonneg|].
    apply Qle_shift_div_r; [by apply of_nat_pos|].
    rewrite Qmult_1_l. change 1 with (Py.of_nat 1). apply of_nat_le. lia.
  - destruct (transition_model_linked corpus page d linked Hpage Hne Hsub)
      as (out & Hrun & Hdom & Hin & Hout).
    assert (Hk : (0 < size linked)%nat).
    { apply is_empty_set_false. unfold Py.is_empty_set. by apply bool_decide_eq_false. }
    destruct (share_bounds d (size linked) Hk Hd0) as [Hs0 Hs1].
    exists out. split; [done|]. intros q v Hq.
    assert (q ∈ dom corpus) as Hqd by (rewrite <- Hdom; apply elem_of_dom; by eexists).
    destruct (decide (q ∈ linked)) as [Hl|Hl].
    + rewrite Hin in Hq by done. injection Hq as <-. split; lra.
    + rewrite Hout in Hq by done. injection Hq as <-. split; lra.
Qed.

(** X7.  For a page that is a key and whose links are all keys, with [d]
    in [0,1], every value of the distribution returned by
    [transition_model] is a probability: it lies between 0 and 1. *)
Theorem transition_model_probabilities (corpus : gmap string (gset string)) (d : Q)
    (page : string) (linked : gset string) :
  corpus !! page = Some linked →
  linked ⊆ dom corpus →
  0 <= d → d <= 1 →
  ∃ out, transition_model corpus page d = Ok out
    ∧ ∀ q v, out !! q = Some v → 0 <= v ∧ v <= 1.
Proof. apply transition_model_unit_interval. Qed.

Lemma transition_model_probabilities_witness :
  ∃ out, transition_model corpus_dangling "B" DAMPING = Ok out
    ∧ ∀ q v, out !! q = Some v → 0 <= v ∧ v <= 1.
Proof.
  apply (transition_model_probabilities corpus_dangling DAMPING "B" {[ "A" ]}).
  - apply (bool_decide_unpack _). by vm_compute.
  - apply (bool_decide_unpack _). by vm_compute.
  - by vm_compute.
  - by vm_compute.
Defined.

(** X8.  [transition_model] returns a distribution exactly when the page is
    a key of the corpus and all its links are keys; in every other case it
    raises [KeyError].  It raises no other exception: no division by zero
    occurs, also on the empty corpus. *)
Theorem transition_model_outcomes (corpus : gmap string (gset string)) (d : Q)
    (page : string) :
  ((∃ out, transition_model corpus page d = Ok out)
   ↔ ∃ linked, corpus !! page = Some linked ∧ linked ⊆ dom corpus)
  ∧ ((∃ out, transition_model corpus page d = Ok out)
     ∨ transition_model corpus page d = Raise KeyError).
Proof.
  destruct (transition_model_cases corpus page d)
    as [(linked & out & Hpage & Hsub & Hrun)|[Hrun Hwhy]].
  - split; [|left; by exists out]. split; [intros _; by exists linked|intros _; by exists out].
  - split; [|by right]. split.
    + intros [out Hout]. congruence.
    + intros (linked & Hpage & Hsub). exfalso.
      destruct Hwhy as [Hnone|(linked' & Hpage' & Hsub')]; [congruence|].
      apply Hsub'. congruence.
Qed.

(** ** Properties of the vector that [iterate_pagerank] returns *)

(** X9.  On a non-empty graph whose edge targets are keys, with [d] in
    [0,1], every vector that [iterate_pagerank] returns has the nodes of the
    graph as keys and adds up to one: a pass keeps the total. *)
Theorem iterate_pagerank_sums_to_one (corpus : gmap string (gset string)) (d : Q)
    (fuel : nat) (out : gmap string Q) :
  corpus ≠ ∅ →
  targets_are_keys corpus →
  0 <= d → d <= 1 →
  iterate_pagerank fuel corpus d = Some (Ok out) →
  dom out = dom corpus ∧ Py.sum_values out == 1.
Proof.
  intros Hne Hwf _ _ Hout.
  destruct (iterate_pagerank_returns corpus d fuel out Hout) as (k & -> & _).
  split; [apply ranks_after_dom|].
  rewrite (sum_values_rank corpus) by apply ranks_after_dom.
  by apply ranks_after_total.
Qed.

Lemma iterate_pagerank_sums_to_one_witness :
  dom ({[ "A" := 8 # 16; "B" := 8 # 16 ]} : gmap string Q) = dom corpus_pair
  ∧ Py.sum_values {[ "A" := 8 # 16; "B" := 8 # 16 ]} == 1.
Proof.
  apply (iterate_pagerank_sums_to_one corpus_pair (1 # 2) 1).
  - apply (bool_decide_unpack _). by vm_compute.
  - apply (bool_decide_unpack _). by vm_compute.
  - by vm_compute.
  - by vm_compute.
  - by vm_compute.
Defined.

(** X10.  On a non-empty graph whose edge targets are keys, with
    [0 <= d < 1], every rank that [iterate_pagerank] returns lies between
    the share [(1 - d) / N] of the random jump and 1. *)
Theorem iterate_pagerank_rank_bounds (corpus : gmap string (gset string)) (d : Q)
    (fuel : nat) (out : gmap string Q) :
  corpus ≠ ∅ →
  targets_are_keys corpus →
  0 <= d → d < 1 →
  iterate_pagerank fuel corpus d = Some (Ok out) →
  ∀ p v, out !! p = Some v →
    (1 - d) / Py.of_nat (size corpus) <= v ∧ v <= 1.
Proof.
  intros Hne Hwf Hd0 Hd1 Hout p v Hp.
  destruct (iterate_pagerank_returns corpus d fuel out Hout) as (k & -> & _).
  assert (p ∈ dom corpus) as Hpd.
  { rewrite <- (ranks_after_dom corpus d (S k)). apply elem_of_dom. by eexists. }
  assert (Hv : rank (ranks_after corpus d (S k)) p = v) by (unfold rank; by rewrite Hp).
  rewrite <- Hv. split.
  - apply ranks_after_lower; [done|lra|done].
  - rewrite <- (ranks_after_total corpus d (S k) Hwf Hne).
    apply sumQ_term_le; [by apply elem_of_keys|].
    intros q Hq%elem_of_keys. apply ranks_after_lower; [done|lra|done].
Qed.

Lemma iterate_pagerank_rank_bounds_witness :
  (1 - (1 # 2)) / Py.of_nat (size corpus_pair) <= 8 # 16 ∧ 8 # 16 <= 1.
Proof.
  apply (iterate_pagerank_rank_bounds corpus_pair (1 # 2) 1
           {[ "A" := 8 # 16; "B" := 8 # 16 ]}) with (p := "A").
  - apply (bool_decide_unpack _). by vm_compute.
  - apply (bool_decide_unpack _). by vm_compute.
  - by vm_compute.
  - by vm_compute.
  - by vm_compute.
  - by vm_compute.
Defined.

(** X11.  The vector that [iterate_pagerank] returns is nearly a fixed
    point of the pass: one more pass over it changes the ranks by at most
    [d * N * 0.001] in total (graph with edge targets that are keys,
    [0 <= d < 1]). *)
Theorem iterate_pagerank_near_fixed_point (corpus : gmap string (gset string)) (d : Q)
    (fuel : nat) (out : gmap string Q) :
  targets_are_keys corpus →
  0 <= d → d < 1 →
  iterate_pagerank fuel corpus d = Some (Ok out) →
  ∃ again,
    iterate_pass corpus d (size corpus) out out = Ok again
    ∧ sumQ (λ p, Qabs (rank again p - rank out p)) (Py.keys corpus)
      <= d * (Py.of_nat (size corpus) * threshold).
Proof.
  intros Hwf Hd0 Hd1 Hout.
  destruct (iterate_pagerank_returns corpus d fuel out Hout) as (k & -> & Hconv).
  exists (ranks_after corpus d (S (S k))). split; [apply ranks_after_pass|].
  pose proof (converged_near_fixed_point corpus d k Hwf Hconv) as Hnear.
  by rewrite Qabs_pos in Hnear.
Qed.

Lemma iterate_pagerank_near_fixed_point_witness :
  ∃ again,
    iterate_pass corpus_pair (1 # 2) (size corpus_pair)
      {[ "A" := 8 # 16; "B" := 8 # 16 ]} {[ "A" := 8 # 16; "B" := 8 # 16 ]} = Ok again
    ∧ sumQ (λ p, Qabs (rank again p - rank {[ "A" := 8 # 16; "B" := 8 # 16 ]} p))
        (Py.keys corpus_pair)
      <= (1 # 2) * (Py.of_nat (size corpus_pair) * threshold).
Proof.
  apply (iterate_pagerank_near_fixed_point corpus_pair (1 # 2) 1).
  - apply (bool_decide_unpack _). by vm_compute.
  - by vm_compute.
  - by vm_compute.
  - by vm_compute.
Defined.

(** ** Boundary parameters *)

(** X12.  With [n = 1], on a non-empty corpus, [sample_pagerank] returns
    the estimate [1] for the one page it samples and [0] for every other
    page; no transition model is computed, so the links of the corpus do not
    matter. *)
Theorem sample_pagerank_single_sample (corpus : gmap string (gset string)) (d : Q)
    (rng : nat → Q) :
  corpus ≠ ∅ →
  unit_draws rng →
  ∃ s out,
    sample_pagerank corpus d 1 rng = Ok out
    ∧ samples corpus d 1 rng = Ok [s]
    ∧ dom out = dom corpus
    ∧ s ∈ dom corpus
    ∧ rank out s == 1
    ∧ ∀ p, p ≠ s → rank out p == 0.
Proof. apply sample_pagerank_one_turn. Qed.

Lemma sample_pagerank_single_sample_witness :
  ∃ s out,
    sample_pagerank corpus_foreign DAMPING 1 (λ _, 1 # 2) = Ok out
    ∧ samples corpus_foreign DAMPING 1 (λ _, 1 # 2) = Ok [s]
    ∧ dom out = dom corpus_foreign
    ∧ s ∈ dom corpus_foreign
    ∧ rank out s == 1
    ∧ ∀ p, p ≠ s → rank out p == 0.
Proof.
  apply (sample_pagerank_single_sample corpus_foreign DAMPING (λ _, 1 # 2)).
  - apply (bool_decide_unpack _). by vm_compute.
  - intros i. by vm_compute.
Defined.

(** X13.  With the damping factor [0] the links do not count:
    [iterate_pagerank] leaves its loop after the first pass, on every
    corpus, with the rank [1 / N] for every page. *)
Theorem iterate_pagerank_without_damping (corpus : gmap string (gset string)) (fuel : nat) :
  (0 < fuel)%nat →
  ∃ out,
    iterate_pagerank fuel corpus 0 = Some (Ok out)
    ∧ dom out = dom corpus
    ∧ ∀ p, p ∈ dom corpus → rank out p == 1 / Py.of_nat (size corpus).
Proof.
  intros Hfuel.
  assert (H0 : ∀ p, p ∈ dom corpus →
            rank (ranks_after corpus 0 0) p == 1 / Py.of_nat (size corpus)).
  { intros p Hp. destruct (initial_ranks_ok corpus) as (x0 & Hx0 & _ & Hval).
    unfold ranks_after. cbn [rank_vector]. rewrite Hx0. unfold rank. by rewrite Hval. }
  assert (H1 : ∀ p, p ∈ dom corpus →
            rank (ranks_after corpus 0 1) p == 1 / Py.of_nat (size corpus)).
  { intros p Hp.
    rewrite (rank_vector_step corpus 0 0 _ _ (rank_vector_ranks_after corpus 0 0)
               (rank_vector_ranks_after corpus 0 1) p Hp).
    unfold recurrence, Qdiv. ring. }
  exists (ranks_after corpus 0 1). split_and!; [|apply ranks_after_dom|done].
  rewrite iterate_pagerank_loop, (iterate_loop_run corpus 0 0 0 fuel).
  - by destruct (decide (0 < fuel)%nat).
  - intros i Hi. lia.
  - intros p Hp. rewrite ranks_after_dom in Hp.
    rewrite (H0 p Hp), (H1 p Hp).
    assert (Hzero : 1 / Py.of_nat (size corpus) - 1 / Py.of_nat (size corpus) == 0)
      by (unfold Qdiv; ring).
    rewrite Hzero.
    by vm_compute.
Qed.

Lemma iterate_pagerank_without_damping_witness :
  ∃ out,
    iterate_pagerank 1 corpus_foreign 0 = Some (Ok out)
    ∧ dom out = dom corpus_foreign
    ∧ ∀ p, p ∈ dom corpus_foreign → rank out p == 1 / Py.of_nat (size corpus_foreign).
Proof. apply (iterate_pagerank_without_damping corpus_foreign 1). lia. Defined.

(** ** A page without links is a page that links to every page *)

Lemma link_to_all_dom (corpus : gmap string (gset string)) :
  dom (link_to_all corpus) = dom corpus.
Proof. unfold link_to_all. apply dom_fmap_L. Qed.

Lemma link_to_all_size (corpus : gmap string (gset string)) :
  size (link_to_all corpus) = size corpus.
Proof. by rewrite <- !size_dom, link_to_all_dom. Qed.

Lemma link_to_all_dangling (corpus : gmap string (gset string)) q :
  corpus !! q = Some ∅ → link_to_all corpus !! q = Some (dom corpus).
Proof.
  intros Hq. unfold link_to_all. rewrite lookup_fmap, Hq. simpl.
  by destruct (decide (∅ = ∅)).
Qed.

Lemma link_to_all_linked (corpus : gmap string (gset string)) q linked :
  corpus !! q = Some linked → linked ≠ ∅ → link_to_all corpus !! q = Some linked.
Proof.
  intros Hq Hne. unfold link_to_all. rewrite lookup_fmap, Hq. simpl.
  by destruct (decide (linked = ∅)).
Qed.

Lemma contribution_link_to_all (corpus : gmap string (gset string)) (x : gmap string Q) p q :
  p ∈ dom corpus → q ∈ dom corpus →
  contribution (link_to_all corpus) x p q == contribution corpus x p q.
Proof.
  intros Hp Hq. apply elem_of_dom in Hq as Hlook. destruct Hlook as [linked Hlinked].
  unfold contribution, outdegree. rewrite link_to_all_size.
  destruct (decide (linked = ∅)) as [->|Hne].
  - rewrite (links_lookup corpus q ∅ Hlinked).
    rewrite (links_lookup _ q _ (link_to_all_dangling corpus q Hlinked)).
    rewrite size_empty, size_dom.
    destruct (decide (0 = 0)%nat); [|done].
    destruct (decide (size corpus = 0)%nat) as [Hz|_].
    { pose proof (size_pos_of_elem corpus q Hq). lia. }
    destruct (decide (p ∈ dom corpus)); [reflexivity|done].
  - rewrite (links_lookup corpus q linked Hlinked).
    rewrite (links_lookup _ q _ (link_to_all_linked corpus q linked Hlinked Hne)).
    reflexivity.
Qed.

Lemma recurrence_link_to_all (corpus : gmap string (gset string)) d (x : gmap string Q) p :
  p ∈ dom corpus →
  recurrence (link_to_all corpus) d x p == recurrence corpus d x p.
Proof.
  intros Hp. unfold recurrence. rewrite link_to_all_size.
  rewrite (sumQ_perm _ _ _ (keys_perm (link_to_all corpus) corpus (link_to_all_dom corpus))).
  rewrite (sumQ_ext _ (contribution corpus x p)); [reflexivity|].
  intros q Hq%elem_of_keys. by apply contribution_link_to_all.
Qed.

Lemma recurrence_ext (corpus : gmap string (gset string)) d (x y : gmap string Q) p :
  (∀ q, rank x q == rank y q) →
  recurrence corpus d x p == recurrence corpus d y p.
Proof.
  intros Hxy. unfold recurrence.
  rewrite (sumQ_ext (contribution corpus x p) (contribution corpus y p)); [reflexivity|].
  intros q _. by rewrite !contribution_transfer, Hxy.
Qed.

Lemma rank_outside (x : gmap string Q) p : p ∉ dom x → rank x p = 0.
Proof. intros Hp. unfold rank. by rewrite (proj1 (not_elem_of_dom x p) Hp). Qed.

Lemma ranks_after_link_to_all (corpus : gmap string (gset string)) d k :
  same_ranks (ranks_after corpus d k) (ranks_after (link_to_all corpus) d k).
Proof.
  split; [by rewrite !ranks_after_dom, link_to_all_dom|]. induction k as [|k IH]; intros p.
  - destruct (decide (p ∈ dom corpus)) as [Hp|Hp].
    + destruct (initial_ranks_ok corpus) as (x0 & Hx0 & _ & Hval).
      destruct (initial_ranks_ok (link_to_all corpus)) as (y0 & Hy0 & _ & Hval').
      unfold ranks_after. cbn [rank_vector]. rewrite Hx0, Hy0. unfold rank.
      rewrite Hval, Hval' by (by rewrite ?link_to_all_dom). simpl.
      by rewrite link_to_all_size.
    + rewrite !rank_outside; [reflexivity|by rewrite ranks_after_dom, ?link_to_all_dom..].
  - destruct (decide (p ∈ dom corpus)) as [Hp|Hp].
    + rewrite (rank_vector_step corpus d k _ _ (rank_vector_ranks_after corpus d k)
                 (rank_vector_ranks_after corpus d (S k)) p Hp).
      rewrite (rank_vector_step (link_to_all corpus) d k _ _
                 (rank_vector_ranks_after (link_to_all corpus) d k)
                 (rank_vector_ranks_after (link_to_all corpus) d (S k)) p)
        by (by rewrite link_to_all_dom).
      rewrite (recurrence_link_to_all corpus d _ p Hp).
      by apply recurrence_ext.
    + rewrite !rank_outside; [reflexivity|by rewrite ranks_after_dom, ?link_to_all_dom..].
Qed.

Lemma converged_same_ranks (a a' b b' : gmap string Q) :
  same_ranks a a' → same_ranks b b' → converged a b → converged a' b'.
Proof.
  intros [_ Ha] [Hdom Hb] Hconv p Hp. rewrite <- Ha, <- Hb. apply Hconv. by rewrite Hdom.
Qed.

Lemma same_ranks_sym (a b : gmap string Q) : same_ranks a b → same_ranks b a.
Proof. intros [Hdom Hr]. split; [done|]. intros p. by rewrite Hr. Qed.

(** X15.  For [iterate_pagerank] a page without links is the same as a
    page that links to every page of the corpus: on the corpus and on the
    corpus in which every page without links is given all pages as links,
    the loop runs the same number of passes with any fuel, and the returned
    vectors have the same keys and equal ranks. *)
Theorem iterate_pagerank_link_to_all (corpus : gmap string (gset string)) (d : Q)
    (fuel : nat) :
  (iterate_pagerank fuel corpus d = None
   ∧ iterate_pagerank fuel (link_to_all corpus) d = None)
  ∨ ∃ out out',
      iterate_pagerank fuel corpus d = Some (Ok out)
      ∧ iterate_pagerank fuel (link_to_all corpus) d = Some (Ok out')
      ∧ same_ranks out out'.
Proof.
  rewrite !iterate_pagerank_loop. generalize 0%nat as j.
  induction fuel as [|fuel IH]; intros j; [by left|].
  cbn [iterate_loop]. rewrite !ranks_after_pass.
  destruct (significant_differences_spec (ranks_after corpus d (S j)) (ranks_after corpus d j))
    as (ds & -> & Hds); [by rewrite !ranks_after_dom|].
  destruct (significant_differences_spec (ranks_after (link_to_all corpus) d (S j))
              (ranks_after (link_to_all corpus) d j))
    as (ds' & -> & Hds'); [by rewrite !ranks_after_dom|].
  destruct (decide (length ds = 0%nat)) as [Hz|Hz], (decide (length ds' = 0%nat)) as [Hz'|Hz'].
  - right. exists (ranks_after corpus d (S j)), (ranks_after (link_to_all corpus) d (S j)).
    split_and!; [done..|]. apply ranks_after_link_to_all.
  - exfalso. apply Hz', Hds'. apply Hds in Hz.
    eapply converged_same_ranks; [apply ranks_after_link_to_all..|done].
  - exfalso. apply Hz, Hds. apply Hds' in Hz'.
    eapply converged_same_ranks; [apply same_ranks_sym, ranks_after_link_to_all..|done].
  - apply IH.
Qed.

(** ** The weighted choice never picks a page of weight zero *)

(** The binary search on a non-decreasing list: everything before the
    returned index is at most [x], everything from it on, below [hi], is
    above [x]. *)
Lemma bisect_loop_spec (a : list Q) (x : Q) :
  (∀ i j y z, (i ≤ j)%nat → a !! i = Some y → a !! j = Some z → y <= z) →
  ∀ turns lo hi,
    (lo ≤ hi)%nat → (hi ≤ length a)%nat → (hi - lo ≤ turns)%nat →
    ∃ i, Random.bisect_loop turns a x lo hi = Ok i
      ∧ (lo ≤ i ≤ hi)%nat
      ∧ (∀ j y, (lo ≤ j < i)%nat → a !! j = Some y → y <= x)
      ∧ (∀ j y, (i ≤ j < hi)%nat → a !! j = Some y → x < y).
Proof.
  intros Hmono. induction turns as [|turns IH]; intros lo hi Hlo Hhi Hturns;
    cbn [Random.bisect_loop]; cbv zeta.
  - exists lo. split_and!; [done|lia|lia|intros; lia..].
  - destruct (decide (lo < hi)%nat) as [Hlt|Hge].
    2:{ exists lo. split_and!; [done|lia|lia|intros; lia..]. }
    assert (Hmid : (lo ≤ (lo + hi) / 2 < hi)%nat).
    { split; [apply Nat.div_le_lower_bound; lia|apply Nat.Div0.div_lt_upper_bound; lia]. }
    destruct (lookup_lt_is_Some_2 a ((lo + hi) / 2)) as [a_mid Hmidv]; [lia|].
    rewrite (index_Some _ _ _ Hmidv), bind_Ok.
    destruct (Qlt_le_dec x a_mid) as [Hx|Hx].
    + destruct (IH lo ((lo + hi) / 2)%nat) as (i & -> & Hi & Hbelow & Habove); [lia..|].
      exists i. split_and!; [done|lia|lia|done|].
      intros j y Hj Hy. destruct (decide (j < (lo + hi) / 2)%nat) as [Hjm|Hjm].
      * apply (Habove j y); [lia|done].
      * eapply Qlt_le_trans; [exact Hx|]. apply (Hmono ((lo + hi) / 2)%nat j); [lia|done..].
    + destruct (IH ((lo + hi) / 2 + 1)%nat hi) as (i & -> & Hi & Hbelow & Habove); [lia..|].
      exists i. split_and!; [done|lia|lia| |done].
      intros j y Hj Hy. destruct (decide ((lo + hi) / 2 + 1 ≤ j)%nat) as [Hjm|Hjm].
      * apply (Hbelow j y); [lia|done].
      * eapply Qle_trans; [|exact Hx]. apply (Hmono j ((lo + hi) / 2)%nat); [lia|done..].
Qed.

(** The running sums: entry [j] is the sum of the first [j + 1] weights. *)
Lemma sumQ_take_S (ws : list Q) w : sumQ id (take 1 (w :: ws)) == w.
Proof. change (sumQ id (take 1 (w :: ws))) with (w + 0). ring. Qed.

Lemma accumulate_from_lookup acc ws j c :
  Random.accumulate_from acc ws !! j = Some c →
  c == acc + sumQ id (take (S j) ws).
Proof.
  revert acc j. induction ws as [|w ws IH]; intros acc j Hc; [done|].
  destruct j as [|j].
  - injection Hc as <-. rewrite sumQ_take_S. reflexivity.
  - change (Random.accumulate_from (acc + w) ws !! j = Some c) in Hc.
    apply IH in Hc. rewrite Hc.
    change (take (S (S j)) (w :: ws)) with (w :: take (S j) ws).
    rewrite (sumQ_cons id w). unfold id at 2. ring.
Qed.

Lemma accumulate_lookup ws j c :
  Random.accumulate ws !! j = Some c → c == sumQ id (take (S j) ws).
Proof.
  destruct ws as [|w ws]; [done|]. destruct j as [|j].
  - intros [= <-]. by rewrite sumQ_take_S.
  - intros Hc. change (Random.accumulate_from w ws !! j = Some c) in Hc.
    apply accumulate_from_lookup in Hc. rewrite Hc.
    change (take (S (S j)) (w :: ws)) with (w :: take (S j) ws).
    rewrite (sumQ_cons id w). reflexivity.
Qed.

Lemma prefix_sum_mono (ws : list Q) i j :
  Forall (λ w, 0 <= w) ws → (i ≤ j)%nat →
  sumQ id (take i ws) <= sumQ id (take j ws).
Proof.
  intros Hpos Hij. replace j with (i + (j - i))%nat by lia.
  rewrite <- take_take_drop, sumQ_app.
  assert (0 <= sumQ id (take (j - i) (drop i ws))); [|lra].
  apply sumQ_nonneg. intros w Hw. unfold id.
  rewrite Forall_forall in Hpos. apply Hpos.
  apply list_elem_of_lookup in Hw as [n Hn]. apply lookup_take_Some in Hn as [Hn _].
  rewrite lookup_drop in Hn. by apply list_elem_of_lookup_2 in Hn.
Qed.

(** With non-negative weights and a variate of the unit interval, the
    weighted choice returns an element whose weight is positive. *)
Lemma choices_positive {A} (u : Q) (population : list A) (weights : list Q) (x : A) :
  length weights = length population →
  Forall (λ w, 0 <= w) weights →
  0 <= u → u < 1 →
  Random.choices u population weights = Ok [x] →
  ∃ i w, population !! i = Some x ∧ weights !! i = Some w ∧ 0 < w.
Proof.
  intros Hlen Hpos Hu0 Hu1. unfold Random.choices.
  destruct (decide (length (Random.accumulate weights) ≠ length population)) as [|_]; [done|].
  destruct weights as [|w0 ws0] eqn:Eweights; [done|]. rewrite <- Eweights in *.
  destruct (accumulate_last weights) as (t & -> & Ht); [by rewrite Eweights|].
  rewrite bind_Ok. destruct (Qle_bool t 0) eqn:Et; [done|].
  assert (Htpos : 0 < t).
  { destruct (Qlt_le_dec 0 t) as [|Hle]; [done|]. apply Qle_bool_iff in Hle. congruence. }
  assert (Hn : (0 < length weights)%nat) by (rewrite Eweights; simpl; lia).
  assert (Hmono : ∀ i j y z, (i ≤ j)%nat →
            Random.accumulate weights !! i = Some y →
            Random.accumulate weights !! j = Some z → y <= z).
  { intros i j y z Hij Hy%accumulate_lookup Hz%accumulate_lookup.
    rewrite Hy, Hz. apply prefix_sum_mono; [done|lia]. }
  destruct (bisect_loop_spec (Random.accumulate weights) (u * t) Hmono
              (length population - 1 - 0) 0 (length population - 1))
    as (i & Hi & Hrange & Hbelow & Habove); [lia|rewrite accumulate_length; lia|lia|].
  unfold Random.bisect. rewrite Hi, bind_Ok. unfold Py.index.
  destruct (population !! i) as [x'|] eqn:Hx; [|done].
  rewrite bind_Ok. intros [= <-].
  destruct (lookup_lt_is_Some_2 weights i) as [w Hw]; [lia|].
  exists i, w. split_and!; [done..|].
  assert (Hstep : sumQ id (take (S i) weights) == sumQ id (take i weights) + w).
  { rewrite (take_S_r _ _ _ Hw), sumQ_app. change (sumQ id [w]) with (w + 0). ring. }
  assert (Hlow : sumQ id (take i weights) <= u * t).
  { destruct i as [|i].
    - change (sumQ id (take 0 weights)) with 0. nra.
    - destruct (lookup_lt_is_Some_2 (Random.accumulate weights) i) as [y Hy];
        [rewrite accumulate_length; lia|].
      rewrite <- (accumulate_lookup _ _ _ Hy). apply (Hbelow i y); [lia|done]. }
  assert (Hhigh : u * t < sumQ id (take (S i) weights)).
  { destruct (decide (i < length population - 1)%nat) as [Hlt|Hge].
    - destruct (lookup_lt_is_Some_2 (Random.accumulate weights) i) as [y Hy];
        [rewrite accumulate_length; lia|].
      rewrite <- (accumulate_lookup _ _ _ Hy). apply (Habove i y); [lia|done].
    - rewrite take_ge by lia. rewrite <- Ht. nra. }
  lra.
Qed.

Lemma choices_singleton {A} (u : Q) (population : list A) (weights : list Q) drawn :
  Random.choices u population weights = Ok drawn → ∃ x, drawn = [x].
Proof.
  unfold Random.choices.
  destruct (decide _); [done|]. destruct (last _); [|done]. rewrite bind_Ok.
  destruct (Qle_bool _ _); [done|].
  destruct (Random.bisect _ _ _ _); [|done]. rewrite bind_Ok.
  destruct (Py.index _ _); [|done]. rewrite bind_Ok. intros [= <-]. by eexists.
Qed.

Lemma transition_model_nonneg (corpus : gmap string (gset string)) page d out :
  0 <= d → d <= 1 →
  transition_model corpus page d = Ok out →
  ∀ q v, out !! q = Some v → 0 <= v.
Proof.
  intros Hd0 Hd1 Hrun q v Hq.
  destruct (transition_model_cases corpus page d)
    as [(linked & out' & Hpage & Hsub & Hrun')|[Hrun' _]]; [|congruence].
  destruct (transition_model_unit_interval corpus d page linked Hpage Hsub Hd0 Hd1)
    as (out'' & Hrun'' & Hval).
  assert (out'' = out) as -> by congruence. by apply (Hval q v).
Qed.

(** After the first turn, the page sampled next has a positive probability
    in the transition model of the page sampled before. *)
Lemma next_sample_positive (corpus : gmap string (gset string)) d rng i current s :
  i ≠ 0%nat →
  0 <= d → d <= 1 →
  0 <= rng i → rng i < 1 →
  next_sample corpus d rng i (Some current) = Ok s →
  may_follow corpus d current s.
Proof.
  intros Hi Hd0 Hd1 Hu0 Hu1. unfold next_sample.
  destruct (decide (i = 0%nat)); [done|]. rewrite bind_Ok.
  destruct (transition_model corpus current d) as [t|] eqn:Ht; [|done].
  rewrite bind_Ok, comprehension_getitem, bind_Ok.
  destruct (Random.choices (rng i) (Py.keys t) (map_to_list t).*2) as [drawn|] eqn:Hdrawn; [|done].
  rewrite bind_Ok. destruct (choices_singleton _ _ _ _ Hdrawn) as [x ->].
  intros [= <-].
  destruct (choices_positive (rng i) (Py.keys t) (map_to_list t).*2 x)
    as (j & w & Hj & Hw & Hpos); [|..|done|done|done|].
  - unfold Py.keys. by rewrite !length_fmap.
  - apply Forall_forall. intros w Hw. apply list_elem_of_fmap in Hw as ([k w'] & -> & Hkw).
    apply elem_of_map_to_list in Hkw. by apply (transition_model_nonneg corpus current d t Hd0 Hd1 Ht k).
  - exists t, w. split_and!; [done| |done].
    unfold Py.keys in Hj. rewrite list_lookup_fmap in Hj. rewrite list_lookup_fmap in Hw.
    destruct (map_to_list t !! j) as [[k w']|] eqn:Hkw; [|done].
    simpl in Hj, Hw. injection Hj as ->. injection Hw as ->.
    apply elem_of_map_to_list. apply list_elem_of_lookup. by exists j.
Qed.

Lemma walk_follows (corpus : gmap string (gset string)) d rng :
  0 <= d → d <= 1 →
  unit_draws rng →
  ∀ turns current sampled,
    Forall (λ i, i ≠ 0%nat) turns →
    walk corpus d rng turns (Some current) = Ok sampled →
    ∀ i s s', (current :: sampled) !! i = Some s → (current :: sampled) !! S i = Some s' →
      may_follow corpus d s s'.
Proof.
  intros Hd0 Hd1 Hrng. induction turns as [|t turns IH]; intros current sampled Hturns Hwalk.
  - injection Hwalk as <-. intros i s s' _ Hs'. destruct i; done.
  - cbn [walk] in Hwalk. apply Forall_cons in Hturns as [Ht Hturns].
    destruct (next_sample corpus d rng t (Some current)) as [s0|] eqn:Hs0; [|done].
    rewrite bind_Ok in Hwalk.
    destruct (walk corpus d rng turns (Some s0)) as [later|] eqn:Hlater; [|done].
    rewrite bind_Ok in Hwalk. injection Hwalk as <-.
    intros i s s' Hs Hs'. destruct i as [|i].
    + injection Hs as <-. injection Hs' as <-.
      by apply (next_sample_positive corpus d rng t); [..|apply Hrng|apply Hrng|].
    + by apply (IH s0 later Hturns Hlater i).
Qed.

Lemma samples_may_follow (corpus : gmap string (gset string)) (d : Q)
    (n : Z) (rng : nat → Q) (sampled : list string) :
  0 <= d → d <= 1 →
  unit_draws rng →
  samples corpus d n rng = Ok sampled →
  ∀ i s s', sampled !! i = Some s → sampled !! S i = Some s' → may_follow corpus d s s'.
Proof.
  intros Hd0 Hd1 Hrng. unfold samples, Py.range.
  destruct (Z.to_nat n) as [|m]; [intros [= <-] i s s' Hs; done|].
  cbn [seq walk]. destruct (next_sample corpus d rng 0 None) as [s0|]; [|done].
  rewrite bind_Ok.
  destruct (walk corpus d rng (seq 1 m) (Some s0)) as [later|] eqn:Hlater; [|done].
  rewrite bind_Ok. intros [= <-].
  apply (walk_follows corpus d rng Hd0 Hd1 Hrng (seq 1 m) s0 later); [|done].
  apply Forall_forall. intros i Hi%elem_of_seq. lia.
Qed.

(** X16.  With [d] in [0,1], the random walk of [sample_pagerank] never
    steps to a page to which the transition model gives probability zero:
    every sampled page but the first has a positive probability in the
    transition model of the page sampled just before. *)
Theorem samples_have_positive_probability (corpus : gmap string (gset string)) (d : Q)
    (n : Z) (rng : nat → Q) (sampled : list string) :
  0 <= d → d <= 1 →
  unit_draws rng →
  samples corpus d n rng = Ok sampled →
  ∀ i s s', sampled !! i = Some s → sampled !! S i = Some s' →
    ∃ t w, transition_model corpus s d = Ok t ∧ t !! s' = Some w ∧ 0 < w.
Proof. apply samples_may_follow. Qed.

Lemma samples_have_positive_probability_witness :
  ∃ t w, transition_model corpus_pair "B" 1 = Ok t ∧ t !! "A" = Some w ∧ 0 < w.
Proof.
  apply (samples_have_positive_probability corpus_pair 1 3 (λ _, 1 # 2) ["B"; "A"; "B"])
    with (i := 0%nat).
  - by vm_compute.
  - by vm_compute.
  - intros i. by vm_compute.
  - by vm_compute.
  - reflexivity.
  - reflexivity.
Defined.

(** X17.  With the damping factor [1] the random walk only follows links:
    a sampled page that has links is always followed by one of the pages it
    links to. *)
Theorem samples_follow_links (corpus : gmap string (gset string)) (n : Z)
    (rng : nat → Q) (sampled : list string) :
  unit_draws rng →
  samples corpus 1 n rng = Ok sampled →
  ∀ i s s' linked,
    sampled !! i = Some s → sampled !! S i = Some s' →
    corpus !! s = Some linked → linked ≠ ∅ →
    s' ∈ linked.
Proof.
  intros Hrng Hsamples i s s' linked Hs Hs' Hlinked Hne.
  destruct (samples_may_follow corpus 1 n rng sampled) with (i := i) (s := s) (s' := s')
    as (t & w & Ht & Hw & Hpos); try done.
  destruct (transition_model_cases corpus s 1)
    as [(linked' & out & Hpage & Hsub & Hrun)|[Hrun _]]; [|congruence].
  assert (linked' = linked) as -> by congruence.
  destruct (transition_model_linked corpus s 1 linked Hlinked Hne Hsub)
    as (t' & Ht' & Hdom & _ & Hout).
  assert (t' = t) as -> by congruence.
  destruct (decide (s' ∈ linked)) as [|Hnot]; [done|]. exfalso.
  rewrite Hout in Hw; [|rewrite <- Hdom; apply elem_of_dom; by eexists|done].
  injection Hw as <-. unfold baseline, Qdiv in Hpos.
  assert (Hz : (1 - 1) * / Py.of_nat (size corpus) == 0) by ring.
  rewrite Hz in Hpos. by apply Qlt_irrefl in Hpos.
Qed.

Lemma samples_follow_links_witness : "A" ∈ ({[ "A" ]} : gset string).
Proof.
  apply (samples_follow_links corpus_pair 3 (λ _, 1 # 2) ["B"; "A"; "B"])
    with (i := 0%nat) (s := "B").
  - intros i. by vm_compute.
  - by vm_compute.
  - reflexivity.
  - reflexivity.
  - apply (bool_decide_unpack _). by vm_compute.
  - apply (bool_decide_unpack _). by vm_compute.
Defined.

(** ** How the ranks depend on the incoming links *)

(** X18.  In a corpus in which every page has links, a page that no page
    links to gets exactly the share of the random jump, [(1 - d) / N], from
    [iterate_pagerank]. *)
Theorem iterate_pagerank_without_incoming_links (corpus : gmap string (gset string))
    (d : Q) (fuel : nat) (out : gmap string Q) (p : string) :
  iterate_pagerank fuel corpus d = Some (Ok out) →
  p ∈ dom corpus →
  (∀ q linked, corpus !! q = Some linked → linked ≠ ∅ ∧ p ∉ linked) →
  rank out p == (1 - d) / Py.of_nat (size corpus).
Proof.
  intros Hout Hp Hnone.
  destruct (iterate_pagerank_returns corpus d fuel out Hout) as (k & -> & _).
  rewrite (rank_vector_step corpus d k _ _ (rank_vector_ranks_after corpus d k)
             (rank_vector_ranks_after corpus d (S k)) p Hp).
  unfold recurrence.
  rewrite (sumQ_ext _ (λ _, 0)).
  - rewrite sumQ_const. ring.
  - intros q Hq%elem_of_keys. apply elem_of_dom in Hq as [linked Hlinked].
    destruct (Hnone q linked Hlinked) as [Hne Hnot].
    unfold contribution, outdegree. rewrite (links_lookup corpus q linked Hlinked).
    destruct (decide (size linked = 0)%nat) as [Hz|_].
    { exfalso. by apply Hne, leibniz_equiv, size_empty_iff. }
    by destruct (decide (p ∈ linked)).
Qed.

(** X19.  Two pages with the same incoming links get equal ranks from
    [iterate_pagerank]. *)
Theorem iterate_pagerank_same_incoming_links (corpus : gmap string (gset string))
    (d : Q) (fuel : nat) (out : gmap string Q) (p p' : string) :
  iterate_pagerank fuel corpus d = Some (Ok out) →
  p ∈ dom corpus → p' ∈ dom corpus →
  (∀ q linked, corpus !! q = Some linked → p ∈ linked ↔ p' ∈ linked) →
  rank out p == rank out p'.
Proof.
  intros Hout Hp Hp' Hsame.
  destruct (iterate_pagerank_returns corpus d fuel out Hout) as (k & -> & _).
  rewrite !(rank_vector_step corpus d k _ _ (rank_vector_ranks_after corpus d k)
              (rank_vector_ranks_after corpus d (S k))) by done.
  unfold recurrence.
  rewrite (sumQ_ext (contribution corpus (ranks_after corpus d k) p)
             (contribution corpus (ranks_after corpus d k) p')); [reflexivity|].
  intros q Hq%elem_of_keys. apply elem_of_dom in Hq as [linked Hlinked].
  unfold contribution. rewrite (links_lookup corpus q linked Hlinked).
  destruct (decide (outdegree corpus q = 0)%nat); [reflexivity|].
  destruct (decide (p ∈ linked)) as [Hin|Hin], (decide (p' ∈ linked)) as [Hin'|Hin'];
    try reflexivity; exfalso.
  - by apply Hin', (Hsame q linked).
  - by apply Hin, (Hsame q linked).
Qed.

Lemma iterate_pagerank_without_incoming_links_witness :
  rank fan_ranks "S" == (1 - (1 # 2)) / Py.of_nat (size corpus_fan).
Proof.
  apply (iterate_pagerank_without_incoming_links corpus_fan (1 # 2) 20 fan_ranks "S").
  - by vm_compute.
  - apply (bool_decide_unpack _). by vm_compute.
  - change (map_Forall (λ (_ : string) (linked : gset string), linked ≠ ∅ ∧ "S" ∉ linked)
              corpus_fan).
    apply (bool_decide_unpack _). by vm_compute.
Defined.

Lemma iterate_pagerank_same_incoming_links_witness :
  rank fan_ranks "B" == rank fan_ranks "C".
Proof.
  apply (iterate_pagerank_same_incoming_links corpus_fan (1 # 2) 20 fan_ranks "B" "C").
  - by vm_compute.
  - apply (bool_decide_unpack _). by vm_compute.
  - apply (bool_decide_unpack _). by vm_compute.
  - change (map_Forall (λ (_ : string) (linked : gset string), "B" ∈ linked ↔ "C" ∈ linked)
              corpus_fan).
    apply (bool_decide_unpack _). by vm_compute.
Defined.
